(** * WildSafePath: geometry, route vetting and live navigation

    A shallow embedding of the routing core of the application:
    - [services/geoService.ts]  : spline smoothing, nearest point on a path;
    - [services/apiService.ts]  : the retrying fetch helper, the linear
      path predictor and the route plausibility check;
    - [hooks/useAnimalData.ts]  : route arbitration and the position-fix
      handler of a navigation session.

    A JavaScript number is the rational ([Q]) it holds; [Infinity] as an
    initial minimum is [None].  The geometry and the route vetting compare
    and combine such numbers exactly.  Where the program rounds what it
    shows (the navigation stats, a route's length) or computes in single
    precision (the path predictor), the arithmetic is rounded as IEEE 754
    does, to the nearest double ([Num.fl]) or single ([Num.fround]), and
    a number read from a record is the double nearest to what the record
    says; overflow to an infinity is left out.  The great-circle distance,
    the trigonometric functions and the operations of the tensor library
    are not part of the repository: they are section variables or the
    fields of a record. *)

From Stdlib Require Import QArith Qround Qabs Qpower Lqa ZArith List Ascii String Lia.
From stdpp Require Import gmap strings.
Import ListNotations.

Local Open Scope Q_scope.

(** ** Numbers *)

Module Num.

(** [a < b] on numbers. *)
Definition ltb (a b : Q) : bool := negb (Qle_bool b a).

(** [a > b]. *)
Definition gtb (a b : Q) : bool := ltb b a.

(** [a <= b]. *)
Definition leb (a b : Q) : bool := Qle_bool a b.

(** [a < m] where [m] starts as [Infinity] ([None]). *)
Definition lt_min (a : Q) (m : option Q) : bool :=
  match m with
  | None => true
  | Some b => ltb a b
  end.

(** [Math.round]: nearest integer, halves upward. *)
Definition Math_round (x : Q) : Q := inject_Z (Qfloor (x + (1 # 2))).

(** [x.toFixed(1)], the decimal the string spells: one decimal place,
    halves away from zero. *)
Definition toFixed1 (x : Q) : Q :=
  if ltb x 0
  then - (inject_Z (Qfloor ((- x) * 10 + (1 # 2))) / 10)
  else inject_Z (Qfloor (x * 10 + (1 # 2))) / 10.

(** An array index or length as a number. *)
Definition ofNat (n : nat) : Q := inject_Z (Z.of_nat n).

Definition Math_max (a b : Q) : Q := if ltb a b then b else a.
Definition Math_min (a b : Q) : Q := if ltb b a then b else a.

(** *** Rounding to a binary format *)

Definition pow2 (z : Z) : Q := Qpower 2 z.

(** The exponent of [x > 0]: [2 ^ ilog2 x <= x < 2 ^ (ilog2 x + 1)]. *)
Definition ilog2 (x : Q) : Z :=
  let k := (Z.log2 (Qnum x) - Z.log2 (Zpos (Qden x)))%Z in
  if Qle_bool (pow2 k) x then k else (k - 1)%Z.

(** The nearest integer, a tie going to the even one. *)
Definition nearestEven (t : Q) : Z :=
  let f := Qfloor t in
  let r := t - inject_Z f in
  if ltb r (1 # 2) then f
  else if ltb (1 # 2) r then (f + 1)%Z
  else if Z.even f then f else (f + 1)%Z.

(** The exponent of the last place of [x] in a format of [prec]
    significant bits whose smallest positive number is [2 ^ emin]. *)
Definition ulpExp (prec emin : Z) (x : Q) : Z :=
  Z.max emin (ilog2 (Qabs x) - (prec - 1)).

(** [x] rounded to the nearest number of that format, ties to even,
    subnormal numbers included. *)
Definition roundTo (prec emin : Z) (x : Q) : Q :=
  let x := Qred x in
  if Qeq_bool x 0 then 0
  else
    let e := ulpExp prec emin x in
    Qred (inject_Z (nearestEven (x / pow2 e)) * pow2 e).

(** The result of an arithmetic operation on numbers, whose exact value
    is [x]: the nearest double. *)
Definition fl : Q -> Q := roundTo 53 (-1074).

(** [Math.fround], and what a [Float32Array] stores: the nearest single. *)
Definition fround : Q -> Q := roundTo 24 (-149).




End Num.

(** ** Shared data types ([types.ts]) *)

Record LatLon : Type := mkLatLon { lat : Q; lon : Q }.

Record Location : Type := mkLocation
  { loc_lat : Q; loc_lon : Q; loc_name : string }.

Definition latlon_of (l : Location) : LatLon :=
  mkLatLon (loc_lat l) (loc_lon l).

Inductive TravelMode : Type := car | bus | bike | walk.

(** A coordinate pair [[lat, lon]]. *)
Definition Coord : Type := (Q * Q)%type.

Definition coord_eq (p q : Coord) : Prop :=
  fst p == fst q /\ snd p == snd q.

Record Route : Type := mkRoute
  { path : list Coord;
    distanceKm : Q;
    durationMinutes : Q;
    start : Location;
    end_ : Location;
    mode : TravelMode;
    isHighRisk : option bool }.

(** [{ ...route, isHighRisk: true }] *)
Definition withHighRisk (r : Route) : Route :=
  mkRoute (path r) (distanceKm r) (durationMinutes r) (start r) (end_ r)
          (mode r) (Some true).

Record Sighting : Type := mkSighting
  { s_lat : Q; s_lon : Q; s_image : option string }.

Record AnimalPrediction : Type := mkAnimal
  { animal_id : string;                (* the [id] field *)
    common : string;
    current : LatLon;
    distanceToPathKm : option Q }.

Record NavigationStats : Type := mkStats
  { remainingKm : Q; etaMinutes : Q; progressPercent : Q }.

Record WeatherData : Type := mkWeather
  { temperature : Q; weatherCode : Z; windSpeed : Q; isDay : Z }.

(** ** [services/geoService.ts] *)

Module geo.

(** Cardinal spline blend of four control points at parameter [t]. *)
Definition getSplinePoint (t : Q) (p0 p1 p2 p3 : Coord) (tension : Q) : Coord :=
  let t2 := t * t in
  let t3 := t2 * t in
  let b1 := - tension * t3 + 2 * tension * t2 - tension * t in
  let b2 := (2 - tension) * t3 + (tension - 3) * t2 + 1 in
  let b3 := (tension - 2) * t3 + (3 - 2 * tension) * t2 + tension * t in
  let b4 := tension * t3 - tension * t2 in
  let x := fst p0 * b1 + fst p1 * b2 + fst p2 * b3 + fst p3 * b4 in
  let y := snd p0 * b1 + snd p1 * b2 + snd p2 * b3 + snd p3 * b4 in
  (x, y).

(** [points[i]]; every index the spline loop uses is in range. *)
Definition at_ (points : list Coord) (i : nat) : Coord :=
  nth i points (0, 0).

(** The [substeps + 1] samples of segment [i]: [t = 0 .. substeps]. *)
Definition splineSegment (points : list Coord) (substeps : nat) (tension : Q)
    (i : nat) : list Coord :=
  map (fun t : nat =>
         getSplinePoint (inject_Z (Z.of_nat t) / inject_Z (Z.of_nat substeps))
           (at_ points (i - 1)) (at_ points i)
           (at_ points (i + 1)) (at_ points (i + 2)) tension)
      (seq 0 (S substeps)).

(** The control points: a copy of the waypoints with the first one
    repeated in front and the last one repeated behind:
    [points.unshift(points[0]); points.push(points[points.length - 1])]. *)
Definition controlPoints (waypoints : list Coord) : list Coord :=
  let unshifted := at_ waypoints 0 :: waypoints in
  unshifted ++ [at_ unshifted (length unshifted - 1)].

Definition createSplinePath (waypoints : list Coord) (substeps : nat)
    (tension : Q) : list Coord :=
  if (length waypoints <? 2)%nat then waypoints
  else
    let points := controlPoints waypoints in
    (* for (i = 1; i < points.length - 2; i++) *)
    let path := flat_map (splineSegment points substeps tension)
                         (seq 1 (length points - 2 - 1)) in
    if (0 <? length path)%nat
    then path ++ [at_ waypoints (length waypoints - 1)]
    else path.

Record PathData : Type := mkPathData
  { remainingPath : list Coord;
    distanceToPath : option Q;       (* [None] is [Infinity] *)
    closestPointIndex : nat }.

Definition INCREASING_THRESHOLD : nat := 30.

Section Distance.

Variable calculateDistance : LatLon -> LatLon -> Q.

(** The search loop of [getPathDataFromLocation], from index [i] over
    the vertices [pts] that remain, with the loop's three variables. *)
Fixpoint searchLoop (userLocation : LatLon) (pts : list Coord) (i : nat)
    (closest : nat) (minDistance : option Q) (increasingCount : nat)
    : nat * option Q :=
  match pts with
  | [] => (closest, minDistance)
  | p :: rest =>
      let distance := calculateDistance userLocation (mkLatLon (fst p) (snd p)) in
      let '(closest', minDistance', increasingCount') :=
        if Num.lt_min distance minDistance
        then (i, Some distance, 0%nat)
        else (closest, minDistance, S increasingCount) in
      if (INCREASING_THRESHOLD <? increasingCount')%nat
      then (closest', minDistance')
      else searchLoop userLocation rest (S i) closest' minDistance' increasingCount'
  end.

Definition getPathDataFromLocation (userLocation : LatLon)
    (routePath : list Coord) (searchStartIndex : nat) : PathData :=
  if (length routePath <? 2)%nat then mkPathData [] None 0
  else
    let searchFrom := Nat.max 0 (searchStartIndex - 20) in
    let '(closest, minDistance) :=
      searchLoop userLocation (drop searchFrom routePath) searchFrom
                 searchStartIndex None 0 in
    mkPathData ((lat userLocation, lon userLocation) :: drop closest routePath)
               minDistance closest.

End Distance.

End geo.

(** ** [services/apiService.ts] *)

(** Errors raised by the service layer. *)
Inductive Error : Type :=
| InvalidJson                 (* "Received invalid JSON from the server." *)
| ApiStatus (status : Z)      (* "API Error: Status <status>" *)
| Transport (message : string)(* [fetch] itself rejected *)
| DataNotFetched              (* "The required data could not be fetched. ..." *)
| NoDirectRoute.              (* "Could not find a direct route. ..." *)

(** How a call ends: a value, or a thrown error. *)
Inductive Outcome (A : Type) : Type :=
| Returned (value : A)
| Thrown (error : Error).
Arguments Returned {A} value.
Arguments Thrown {A} error.

Module api.

(** What one call of [fetch] does: it rejects, or resolves with a
    response of some status and body text. *)
Inductive FetchOutcome : Type :=
| Rejected (message : string)
| Responded (status : Z) (text : string).

(** [response.ok] *)
Definition ok (status : Z) : bool := ((200 <=? status) && (status <=? 299))%Z.

(** What happened during one call of [fetchJson]: its outcome, the
    number of [fetch] calls made and the delays slept (ms), in order. *)
Record FetchRun (Json : Type) : Type := mkFetchRun
  { outcome : Outcome (option Json);
    fetchCalls : nat;
    slept : list Z }.
Arguments mkFetchRun {Json} outcome fetchCalls slept.
Arguments outcome {Json} f.
Arguments fetchCalls {Json} f.
Arguments slept {Json} f.

Section Fetch.

Variable Json : Type.
Variable JSON_parse : string -> option Json.

(** How the body of the [try] block completes for one response. *)
Inductive Completion : Type :=
| Return (value : option Json)
| Continue (lastError : Error)     (* the 5xx branch: sleep, double, [continue] *)
| Throw (error : Error).

Definition tryBlock (o : FetchOutcome) : Completion :=
  match o with
  | Rejected message => Throw (Transport message)
  | Responded status text =>
      if ok status then
        if String.eqb text EmptyString then Return None
        else match JSON_parse text with
             | Some value => Return (Some value)
             | None => Throw InvalidJson
             end
      else if ((500 <=? status) && (status <? 600))%Z
           then Continue (ApiStatus status)
           else Throw (ApiStatus status)
  end.

(** The [for] loop of [fetchJson]: [remaining] iterations are left,
    [i] calls were made, [network i] is what the next call does. *)
Fixpoint fetchLoop (network : nat -> FetchOutcome) (remaining : nat) (i : nat)
    (delay : Z) (lastError : option Error) (sleeps : list Z) : FetchRun Json :=
  match remaining with
  | O => mkFetchRun (Thrown DataNotFetched) i sleeps
  | S remaining' =>
      match tryBlock (network i) with
      | Return value => mkFetchRun (Returned value) (S i) sleeps
      | Continue e =>
          fetchLoop network remaining' (S i) (delay * 2)%Z (Some e)
                    (sleeps ++ [delay])
      | Throw e =>
          (* the enclosing [catch (error)] receives it *)
          fetchLoop network remaining' (S i) (delay * 2)%Z (Some e)
                    (sleeps ++ [delay])
      end
  end.

Definition fetchJson (network : nat -> FetchOutcome) (retries : nat)
    (initialDelay : Z) : FetchRun Json :=
  fetchLoop network retries 0 initialDelay None [].

End Fetch.

(** *** [predictAnimalPaths] *)

Record SightingSet : Type := mkSightingSet
  { scientificName : string; sightings : list Sighting }.

Record PredictionGroup : Type := mkGroup
  { g_scientificName : string; predictions : list LatLon }.

(** The tensor library ([tf]) is a global of the page and no part of the
    repository.  Its tensors hold single-precision numbers.  What the
    predictor uses of it: the difference and the sum of two tensors, taken
    element by element, and the mean of the rows of a tensor, taken column
    by column. *)
Record TensorLibrary : Type := mkTensorLibrary
  { t_sub : Q -> Q -> Q;        (* one element of [a.sub(b)] *)
    t_add : Q -> Q -> Q;        (* one element of [a.add(b)] *)
    t_mean : list Q -> Q }.     (* one column of [tf.mean(rows, 0)] *)

(** [tf.tensor2d(coords)] and [tf.tensor1d(point)]: every number, a
    double, is stored as the nearest single. *)
Definition tensor2d (coords : list Coord) : list Coord :=
  map (fun c : Coord => (Num.fround (Num.fl (fst c)), Num.fround (Num.fl (snd c)))) coords.

Definition tensor1d (point : Coord) : Coord :=
  (Num.fround (Num.fl (fst point)), Num.fround (Num.fl (snd point))).

Definition sumQ (l : list Q) : Q := fold_right Qplus 0 l.

(** The mean of a list of numbers, exactly. *)
Definition mean (l : list Q) : Q := sumQ l / inject_Z (Z.of_nat (length l)).

(** The displacements between consecutive sightings, each from the older
    sighting to the newer one; [sightings] is most recent first. *)
Definition displacements (sightings : list Sighting) : list Coord :=
  let coords := map (fun s => (s_lat s, s_lon s)) sightings in
  zip_with (fun newer older : Coord => (fst newer - fst older, snd newer - snd older))
           coords (drop 1 coords).

(** Their mean, exactly. *)
Definition meanDisplacement (sightings : list Sighting) : Coord :=
  (mean (map fst (displacements sightings)), mean (map snd (displacements sightings))).

Section Predict.

Variables Math_cos Math_sin : Q -> Q.
Variable Math_PI : Q.
Variable tf : TensorLibrary.

(** [tensor.slice(1).sub(tensor.slice(0, n - 1))] on an [n x 2] tensor. *)
Definition deltasOf (tensor : list Coord) : list Coord :=
  zip_with (fun a b : Coord => (t_sub tf (fst a) (fst b), t_sub tf (snd a) (snd b)))
           (drop 1 tensor) (take (length tensor - 1) tensor).

(** [tf.mean(deltas, 0)] *)
Definition meanRows (rows : list Coord) : Coord :=
  (t_mean tf (map fst rows), t_mean tf (map snd rows)).

Definition avgDeltaOf (sightings : list Sighting) : Coord :=
  let coords := rev (map (fun s => (s_lat s, s_lon s)) sightings) in
  let tensor := tensor2d coords in
  meanRows (deltasOf tensor).

(** One sighting set; [random] is the value [Math.random()] yields if
    this set draws one, a double, as are [Math.PI] and the values of
    [Math.cos] and [Math.sin].  The fallback for a single sighting computes
    in doubles, the extrapolation in the tensors. *)
Definition predictSet (set : SightingSet) (random : Q) : PredictionGroup :=
  match sightings set with
  | [] => mkGroup (scientificName set) []
  | lastSighting :: older =>
      if (length (sightings set) <? 2)%nat then
        let randomAngle := Num.fl (Num.fl (random * 2) * Math_PI) in
        let randomDist := Num.fl 0.01 in
        let pred1 :=
          mkLatLon (Num.fl (Num.fl (s_lat lastSighting)
                            + Num.fl (randomDist * Math_cos randomAngle)))
                   (Num.fl (Num.fl (s_lon lastSighting)
                            + Num.fl (randomDist * Math_sin randomAngle))) in
        let pred2 :=
          mkLatLon (Num.fl (lat pred1 + Num.fl (randomDist * Math_cos randomAngle)))
                   (Num.fl (lon pred1 + Num.fl (randomDist * Math_sin randomAngle))) in
        mkGroup (scientificName set) [pred1; pred2]
      else
        let avgDelta := avgDeltaOf (sightings set) in
        let lastPointTensor := tensor1d (s_lat lastSighting, s_lon lastSighting) in
        let pred1Tensor := (t_add tf (fst lastPointTensor) (fst avgDelta),
                            t_add tf (snd lastPointTensor) (snd avgDelta)) in
        let pred2Tensor := (t_add tf (fst pred1Tensor) (fst avgDelta),
                            t_add tf (snd pred1Tensor) (snd avgDelta)) in
        mkGroup (scientificName set)
                [mkLatLon (fst pred1Tensor) (snd pred1Tensor);
                 mkLatLon (fst pred2Tensor) (snd pred2Tensor)]
  end.

(** The sets in order; the [k]-th draw of [Math.random] is [randoms k]. *)
Fixpoint predictSets (sets : list SightingSet) (randoms : nat -> Q) (k : nat)
    : list PredictionGroup :=
  match sets with
  | [] => []
  | set :: rest =>
      predictSet set (randoms k)
      :: predictSets rest randoms
           (if (length (sightings set) =? 1)%nat then S k else k)
  end.

(** [tfLoaded] is [typeof tf !== 'undefined']. *)
Definition predictAnimalPaths (tfLoaded : bool) (sets : list SightingSet)
    (randoms : nat -> Q) : list PredictionGroup :=
  if negb tfLoaded then []
  else List.filter (fun p => (0 <? length (predictions p))%nat)
                   (predictSets sets randoms 0).

End Predict.

(** *** Route vetting *)

Definition minSpeed (m : TravelMode) : Q :=
  match m with car => 10 | bus => 10 | bike => 8 | walk => 2 end.

Definition maxSpeed (m : TravelMode) : Q :=
  match m with car => 120 | bus => 100 | bike => 35 | walk => 8 end.

Section Routing.

Variable calculateDistance : LatLon -> LatLon -> Q.

Definition isRouteReasonable (route : Route) (start end_ : Location) : bool :=
  let straightLineDistance := calculateDistance (latlon_of start) (latlon_of end_) in
  let maxReasonableDistance := straightLineDistance * 7 in
  if Num.gtb (distanceKm route) maxReasonableDistance then false
  else if Num.gtb (durationMinutes route) 0 then
    let avgSpeedKmh := distanceKm route / (durationMinutes route / 60) in
    if Num.ltb avgSpeedKmh (minSpeed (mode route))
       || Num.gtb avgSpeedKmh (maxSpeed (mode route))
    then false
    else true
  else true.



(** An avoidance polygon: a ring of [[lon, lat]] pairs. *)
Definition Polygon : Type := list Coord.

(** [_fetchValhallaRoute]: the routing service and the translation of
    its answer, which may throw (network error, non-2xx status). *)
Variable _fetchValhallaRoute :
  Location -> Location -> list Polygon -> TravelMode -> Outcome (option Route).

Definition getSafeNavigationRoute (start end_ : Location)
    (avoidPolygons : list Polygon) (mode : TravelMode) : Outcome (option Route) :=
  match _fetchValhallaRoute start end_ avoidPolygons mode with
  | Thrown error => Thrown error
  | Returned None => Returned None
  | Returned (Some valhallaRoute) =>
      if isRouteReasonable valhallaRoute start end_
      then Returned (Some valhallaRoute)
      else Returned None
  end.

End Routing.

End api.

(** ** [hooks/useAnimalData.ts] *)

Module hook.

Inductive RouteMessage : Type :=
| SaferRouteFound (extraMinutes : option Q) (* [None]: "no extra" *)
| DirectRouteHighRisk
| NoWildlifeRisk
| ProceedToStart (km : Q)
| EmergencyRouteCalculated
| RouteError (error : Error).

Inductive AlertMessage : Type :=
| SignalLost          (* "Live location signal lost. ..." *)
| NavigationBegun     (* "You've reached the start. Navigation has begun!" *)
| AnimalDetected (common : string) (toPathKm : option Q) (toAnimalKm : Q)
| Rerouting (place : string).

Record NavigationAlert : Type := mkAlert
  { animal : option AnimalPrediction; message : AlertMessage }.

(** [message.includes("Live location signal lost")] *)
Definition isSignalLost (a : option NavigationAlert) : bool :=
  match a with
  | Some (mkAlert _ SignalLost) => true
  | _ => false
  end.

Record Snapshot : Type := mkSnapshot
  { snap_start : Location; snap_end : Location; snap_mode : TravelMode;
    snap_distanceKm : Q; snap_durationMinutes : Q }.

(** *** Route arbitration ([calculateSafeRoute]) *)

Record RoutePlan : Type := mkPlan
  { finalRoute : Route;
    alternative : option Route;
    planMessage : RouteMessage }.

Definition DURATION_MULTIPLIER_THRESHOLD : Q := 2.5.
Definition DURATION_ABSOLUTE_THRESHOLD_MINS : Q := 120.

Section Arbitration.

(** [api.getSafeNavigationRoute] and [geo.createCirclePolygon]. *)
Variable getSafeNavigationRoute :
  Location -> Location -> list api.Polygon -> TravelMode -> Outcome (option Route).
Variable createCirclePolygon : Coord -> Q -> api.Polygon.

Definition avoidancePolygonsOf (relevantPredictions : list AnimalPrediction)
    (excludedAnimalIds : list string) (radius : Q) : list api.Polygon :=
  map (fun p => createCirclePolygon (lat (current p), lon (current p)) (radius / 10))
      (List.filter (fun p => negb (bool_decide (animal_id p ∈ excludedAnimalIds)))
                   relevantPredictions).

(** The choice between the direct route and the safe alternative, once
    both requests have answered. *)
Definition arbitrate (directRoute : Route) (safeAlternative : option Route)
    : RoutePlan :=
  match safeAlternative with
  | Some safe =>
      if Num.ltb (durationMinutes safe)
                 (durationMinutes directRoute * DURATION_MULTIPLIER_THRESHOLD)
         && Num.ltb (durationMinutes safe)
                    (durationMinutes directRoute + DURATION_ABSOLUTE_THRESHOLD_MINS)
      then
        let durationDiff := durationMinutes safe - durationMinutes directRoute in
        mkPlan safe (Some (withHighRisk directRoute))
               (SaferRouteFound (if Num.gtb durationDiff 0 then Some durationDiff else None))
      else mkPlan (withHighRisk directRoute) safeAlternative DirectRouteHighRisk
  | None => mkPlan (withHighRisk directRoute) safeAlternative DirectRouteHighRisk
  end.

(** The routing part of [calculateSafeRoute], once both locations are
    resolved and the predictions for the area are known. *)
Definition calculateSafeRoute (startLoc endLoc : Location) (radius : Q)
    (mode : TravelMode) (excludedAnimalIds : list string)
    (relevantPredictions : list AnimalPrediction) : Outcome RoutePlan :=
  match getSafeNavigationRoute startLoc endLoc [] mode with
  | Thrown error => Thrown error
  | Returned None => Thrown NoDirectRoute
  | Returned (Some directRoute) =>
      let avoidancePolygons :=
        avoidancePolygonsOf relevantPredictions excludedAnimalIds radius in
      if (0 <? length avoidancePolygons)%nat then
        match getSafeNavigationRoute startLoc endLoc avoidancePolygons mode with
        | Thrown error => Thrown error
        | Returned safeAlternative => Returned (arbitrate directRoute safeAlternative)
        end
      else Returned (mkPlan directRoute None NoWildlifeRisk)
  end.

End Arbitration.

(** *** Navigation session *)

Definition WEATHER_CHECK_INTERVAL_MS : Z := 5 * 60 * 1000.

Definition isWeatherSevere (code : Z) : bool :=
  existsb (Z.eqb code) [63; 65; 66; 67; 73; 75; 77; 81; 82; 85; 86; 95; 96; 99]%Z.

Definition getWeatherAlertText (code : Z) : string :=
  if existsb (Z.eqb code) [63; 65; 81; 82]%Z
  then "Warning: Heavy rain detected on your route. Drive carefully."
  else if existsb (Z.eqb code) [73; 75; 85; 86; 77]%Z
  then "Warning: Heavy snow detected. Conditions may be hazardous."
  else if existsb (Z.eqb code) [66; 67]%Z
  then "Warning: Freezing rain detected. Roads may be icy."
  else if existsb (Z.eqb code) [95; 96; 99]%Z
  then "Warning: Thunderstorms nearby. Consider seeking shelter if possible."
  else "Warning: Severe weather conditions detected ahead.".

(** The part of the hook's state that navigation reads or writes.  The
    alternative routes, the safe places and the live-location ref are left
    out; [watching] stands for [watchIdRef.current !== null].  A mirrored
    ref ([navigationAlertRef], [safeRouteRef], ...) follows its state only
    when the component renders, so both are kept. *)
Record Session : Type := mkSession
  { (* React state, written with the [set...] functions *)
    navigationAlert : option NavigationAlert;
    weatherAlert : option string;
    liveLocation : option Location;
    navigationStats : option NavigationStats;
    safeRoute : option Route;
    emergencyRoute : option Route;
    animalsNearRoute : list AnimalPrediction;
    closestPathIndex : nat;
    isApproachingStart : bool;
    isNavigating : bool;
    routeMessage : option RouteMessage;
    (* refs, read and written in place by the handlers *)
    navigationAlertRef : option NavigationAlert;
    weatherAlertRef : option string;
    safeRouteRef : option Route;
    emergencyRouteRef : option Route;
    animalsNearRouteRef : list AnimalPrediction;
    closestPathIndexRef : nat;
    isApproachingStartRef : bool;
    initialRouteSnapshotRef : option Snapshot;
    shownAnimalAlertsRef : gset string;
    lastWeatherCheckTimestampRef : Z;
    watching : bool;
    (* every alert sounded and notified, most recent first *)
    alertsRaised : list NavigationAlert;
    (* every weather alert sounded and notified, most recent first *)
    weatherAlertsRaised : list string }.

Definition setNavigationAlert (v : option NavigationAlert) (s : Session) : Session :=
  mkSession
    v (weatherAlert s) (liveLocation s) (navigationStats s) (safeRoute s)
    (emergencyRoute s) (animalsNearRoute s) (closestPathIndex s)
    (isApproachingStart s) (isNavigating s) (routeMessage s) (navigationAlertRef s)
    (weatherAlertRef s) (safeRouteRef s) (emergencyRouteRef s)
    (animalsNearRouteRef s) (closestPathIndexRef s) (isApproachingStartRef s)
    (initialRouteSnapshotRef s) (shownAnimalAlertsRef s)
    (lastWeatherCheckTimestampRef s) (watching s) (alertsRaised s)
    (weatherAlertsRaised s).

Definition setWeatherAlert (v : option string) (s : Session) : Session :=
  mkSession
    (navigationAlert s) v (liveLocation s) (navigationStats s) (safeRoute s)
    (emergencyRoute s) (animalsNearRoute s) (closestPathIndex s)
    (isApproachingStart s) (isNavigating s) (routeMessage s) (navigationAlertRef s)
    (weatherAlertRef s) (safeRouteRef s) (emergencyRouteRef s)
    (animalsNearRouteRef s) (closestPathIndexRef s) (isApproachingStartRef s)
    (initialRouteSnapshotRef s) (shownAnimalAlertsRef s)
    (lastWeatherCheckTimestampRef s) (watching s) (alertsRaised s)
    (weatherAlertsRaised s).

Definition setLiveLocation (v : option Location) (s : Session) : Session :=
  mkSession
    (navigationAlert s) (weatherAlert s) v (navigationStats s) (safeRoute s)
    (emergencyRoute s) (animalsNearRoute s) (closestPathIndex s)
    (isApproachingStart s) (isNavigating s) (routeMessage s) (navigationAlertRef s)
    (weatherAlertRef s) (safeRouteRef s) (emergencyRouteRef s)
    (animalsNearRouteRef s) (closestPathIndexRef s) (isApproachingStartRef s)
    (initialRouteSnapshotRef s) (shownAnimalAlertsRef s)
    (lastWeatherCheckTimestampRef s) (watching s) (alertsRaised s)
    (weatherAlertsRaised s).

Definition setNavigationStats (v : option NavigationStats) (s : Session) : Session :=
  mkSession
    (navigationAlert s) (weatherAlert s) (liveLocation s) v (safeRoute s)
    (emergencyRoute s) (animalsNearRoute s) (closestPathIndex s)
    (isApproachingStart s) (isNavigating s) (routeMessage s) (navigationAlertRef s)
    (weatherAlertRef s) (safeRouteRef s) (emergencyRouteRef s)
    (animalsNearRouteRef s) (closestPathIndexRef s) (isApproachingStartRef s)
    (initialRouteSnapshotRef s) (shownAnimalAlertsRef s)
    (lastWeatherCheckTimestampRef s) (watching s) (alertsRaised s)
    (weatherAlertsRaised s).

Definition setSafeRoute (v : option Route) (s : Session) : Session :=
  mkSession
    (navigationAlert s) (weatherAlert s) (liveLocation s) (navigationStats s) v
    (emergencyRoute s) (animalsNearRoute s) (closestPathIndex s)
    (isApproachingStart s) (isNavigating s) (routeMessage s) (navigationAlertRef s)
    (weatherAlertRef s) (safeRouteRef s) (emergencyRouteRef s)
    (animalsNearRouteRef s) (closestPathIndexRef s) (isApproachingStartRef s)
    (initialRouteSnapshotRef s) (shownAnimalAlertsRef s)
    (lastWeatherCheckTimestampRef s) (watching s) (alertsRaised s)
    (weatherAlertsRaised s).

Definition setEmergencyRoute (v : option Route) (s : Session) : Session :=
  mkSession
    (navigationAlert s) (weatherAlert s) (liveLocation s) (navigationStats s)
    (safeRoute s) v (animalsNearRoute s) (closestPathIndex s) (isApproachingStart s)
    (isNavigating s) (routeMessage s) (navigationAlertRef s) (weatherAlertRef s)
    (safeRouteRef s) (emergencyRouteRef s) (animalsNearRouteRef s)
    (closestPathIndexRef s) (isApproachingStartRef s) (initialRouteSnapshotRef s)
    (shownAnimalAlertsRef s) (lastWeatherCheckTimestampRef s) (watching s)
    (alertsRaised s)
    (weatherAlertsRaised s).

Definition setAnimalsNearRoute (v : list AnimalPrediction) (s : Session) : Session :=
  mkSession
    (navigationAlert s) (weatherAlert s) (liveLocation s) (navigationStats s)
    (safeRoute s) (emergencyRoute s) v (closestPathIndex s) (isApproachingStart s)
    (isNavigating s) (routeMessage s) (navigationAlertRef s) (weatherAlertRef s)
    (safeRouteRef s) (emergencyRouteRef s) (animalsNearRouteRef s)
    (closestPathIndexRef s) (isApproachingStartRef s) (initialRouteSnapshotRef s)
    (shownAnimalAlertsRef s) (lastWeatherCheckTimestampRef s) (watching s)
    (alertsRaised s)
    (weatherAlertsRaised s).

Definition setClosestPathIndex (v : nat) (s : Session) : Session :=
  mkSession
    (navigationAlert s) (weatherAlert s) (liveLocation s) (navigationStats s)
    (safeRoute s) (emergencyRoute s) (animalsNearRoute s) v (isApproachingStart s)
    (isNavigating s) (routeMessage s) (navigationAlertRef s) (weatherAlertRef s)
    (safeRouteRef s) (emergencyRouteRef s) (animalsNearRouteRef s)
    (closestPathIndexRef s) (isApproachingStartRef s) (initialRouteSnapshotRef s)
    (shownAnimalAlertsRef s) (lastWeatherCheckTimestampRef s) (watching s)
    (alertsRaised s)
    (weatherAlertsRaised s).

Definition setIsApproachingStart (v : bool) (s : Session) : Session :=
  mkSession
    (navigationAlert s) (weatherAlert s) (liveLocation s) (navigationStats s)
    (safeRoute s) (emergencyRoute s) (animalsNearRoute s) (closestPathIndex s) v
    (isNavigating s) (routeMessage s) (navigationAlertRef s) (weatherAlertRef s)
    (safeRouteRef s) (emergencyRouteRef s) (animalsNearRouteRef s)
    (closestPathIndexRef s) (isApproachingStartRef s) (initialRouteSnapshotRef s)
    (shownAnimalAlertsRef s) (lastWeatherCheckTimestampRef s) (watching s)
    (alertsRaised s)
    (weatherAlertsRaised s).

Definition setIsNavigating (v : bool) (s : Session) : Session :=
  mkSession
    (navigationAlert s) (weatherAlert s) (liveLocation s) (navigationStats s)
    (safeRoute s) (emergencyRoute s) (animalsNearRoute s) (closestPathIndex s)
    (isApproachingStart s) v (routeMessage s) (navigationAlertRef s)
    (weatherAlertRef s) (safeRouteRef s) (emergencyRouteRef s)
    (animalsNearRouteRef s) (closestPathIndexRef s) (isApproachingStartRef s)
    (initialRouteSnapshotRef s) (shownAnimalAlertsRef s)
    (lastWeatherCheckTimestampRef s) (watching s) (alertsRaised s)
    (weatherAlertsRaised s).

Definition setRouteMessage (v : option RouteMessage) (s : Session) : Session :=
  mkSession
    (navigationAlert s) (weatherAlert s) (liveLocation s) (navigationStats s)
    (safeRoute s) (emergencyRoute s) (animalsNearRoute s) (closestPathIndex s)
    (isApproachingStart s) (isNavigating s) v (navigationAlertRef s)
    (weatherAlertRef s) (safeRouteRef s) (emergencyRouteRef s)
    (animalsNearRouteRef s) (closestPathIndexRef s) (isApproachingStartRef s)
    (initialRouteSnapshotRef s) (shownAnimalAlertsRef s)
    (lastWeatherCheckTimestampRef s) (watching s) (alertsRaised s)
    (weatherAlertsRaised s).

Definition put_closestPathIndexRef (v : nat) (s : Session) : Session :=
  mkSession
    (navigationAlert s) (weatherAlert s) (liveLocation s) (navigationStats s)
    (safeRoute s) (emergencyRoute s) (animalsNearRoute s) (closestPathIndex s)
    (isApproachingStart s) (isNavigating s) (routeMessage s) (navigationAlertRef s)
    (weatherAlertRef s) (safeRouteRef s) (emergencyRouteRef s)
    (animalsNearRouteRef s) v (isApproachingStartRef s) (initialRouteSnapshotRef s)
    (shownAnimalAlertsRef s) (lastWeatherCheckTimestampRef s) (watching s)
    (alertsRaised s)
    (weatherAlertsRaised s).

Definition put_isApproachingStartRef (v : bool) (s : Session) : Session :=
  mkSession
    (navigationAlert s) (weatherAlert s) (liveLocation s) (navigationStats s)
    (safeRoute s) (emergencyRoute s) (animalsNearRoute s) (closestPathIndex s)
    (isApproachingStart s) (isNavigating s) (routeMessage s) (navigationAlertRef s)
    (weatherAlertRef s) (safeRouteRef s) (emergencyRouteRef s)
    (animalsNearRouteRef s) (closestPathIndexRef s) v (initialRouteSnapshotRef s)
    (shownAnimalAlertsRef s) (lastWeatherCheckTimestampRef s) (watching s)
    (alertsRaised s)
    (weatherAlertsRaised s).

Definition put_initialRouteSnapshotRef (v : option Snapshot) (s : Session) : Session :=
  mkSession
    (navigationAlert s) (weatherAlert s) (liveLocation s) (navigationStats s)
    (safeRoute s) (emergencyRoute s) (animalsNearRoute s) (closestPathIndex s)
    (isApproachingStart s) (isNavigating s) (routeMessage s) (navigationAlertRef s)
    (weatherAlertRef s) (safeRouteRef s) (emergencyRouteRef s)
    (animalsNearRouteRef s) (closestPathIndexRef s) (isApproachingStartRef s) v
    (shownAnimalAlertsRef s) (lastWeatherCheckTimestampRef s) (watching s)
    (alertsRaised s)
    (weatherAlertsRaised s).

Definition put_shownAnimalAlertsRef (v : gset string) (s : Session) : Session :=
  mkSession
    (navigationAlert s) (weatherAlert s) (liveLocation s) (navigationStats s)
    (safeRoute s) (emergencyRoute s) (animalsNearRoute s) (closestPathIndex s)
    (isApproachingStart s) (isNavigating s) (routeMessage s) (navigationAlertRef s)
    (weatherAlertRef s) (safeRouteRef s) (emergencyRouteRef s)
    (animalsNearRouteRef s) (closestPathIndexRef s) (isApproachingStartRef s)
    (initialRouteSnapshotRef s) v (lastWeatherCheckTimestampRef s) (watching s)
    (alertsRaised s)
    (weatherAlertsRaised s).

Definition put_lastWeatherCheckTimestampRef (v : Z) (s : Session) : Session :=
  mkSession
    (navigationAlert s) (weatherAlert s) (liveLocation s) (navigationStats s)
    (safeRoute s) (emergencyRoute s) (animalsNearRoute s) (closestPathIndex s)
    (isApproachingStart s) (isNavigating s) (routeMessage s) (navigationAlertRef s)
    (weatherAlertRef s) (safeRouteRef s) (emergencyRouteRef s)
    (animalsNearRouteRef s) (closestPathIndexRef s) (isApproachingStartRef s)
    (initialRouteSnapshotRef s) (shownAnimalAlertsRef s) v (watching s)
    (alertsRaised s)
    (weatherAlertsRaised s).

Definition put_watching (v : bool) (s : Session) : Session :=
  mkSession
    (navigationAlert s) (weatherAlert s) (liveLocation s) (navigationStats s)
    (safeRoute s) (emergencyRoute s) (animalsNearRoute s) (closestPathIndex s)
    (isApproachingStart s) (isNavigating s) (routeMessage s) (navigationAlertRef s)
    (weatherAlertRef s) (safeRouteRef s) (emergencyRouteRef s)
    (animalsNearRouteRef s) (closestPathIndexRef s) (isApproachingStartRef s)
    (initialRouteSnapshotRef s) (shownAnimalAlertsRef s)
    (lastWeatherCheckTimestampRef s) v (alertsRaised s)
    (weatherAlertsRaised s).

Definition put_alertsRaised (v : list NavigationAlert) (s : Session) : Session :=
  mkSession
    (navigationAlert s) (weatherAlert s) (liveLocation s) (navigationStats s)
    (safeRoute s) (emergencyRoute s) (animalsNearRoute s) (closestPathIndex s)
    (isApproachingStart s) (isNavigating s) (routeMessage s) (navigationAlertRef s)
    (weatherAlertRef s) (safeRouteRef s) (emergencyRouteRef s)
    (animalsNearRouteRef s) (closestPathIndexRef s) (isApproachingStartRef s)
    (initialRouteSnapshotRef s) (shownAnimalAlertsRef s)
    (lastWeatherCheckTimestampRef s) (watching s) v
    (weatherAlertsRaised s).

Definition put_weatherAlertsRaised (v : list string) (s : Session) : Session :=
  mkSession
    (navigationAlert s) (weatherAlert s) (liveLocation s) (navigationStats s)
    (safeRoute s) (emergencyRoute s) (animalsNearRoute s) (closestPathIndex s)
    (isApproachingStart s) (isNavigating s) (routeMessage s) (navigationAlertRef s)
    (weatherAlertRef s) (safeRouteRef s) (emergencyRouteRef s)
    (animalsNearRouteRef s) (closestPathIndexRef s) (isApproachingStartRef s)
    (initialRouteSnapshotRef s) (shownAnimalAlertsRef s)
    (lastWeatherCheckTimestampRef s) (watching s) (alertsRaised s) v.

(** A re-render: the effects copy each mirrored state into its ref. *)
Definition render (s : Session) : Session :=
  mkSession
    (navigationAlert s) (weatherAlert s) (liveLocation s) (navigationStats s)
    (safeRoute s) (emergencyRoute s) (animalsNearRoute s) (closestPathIndex s)
    (isApproachingStart s) (isNavigating s) (routeMessage s)
    (navigationAlert s) (weatherAlert s) (safeRoute s) (emergencyRoute s)
    (animalsNearRoute s) (closestPathIndexRef s) (isApproachingStartRef s)
    (initialRouteSnapshotRef s) (shownAnimalAlertsRef s)
    (lastWeatherCheckTimestampRef s) (watching s) (alertsRaised s)
    (weatherAlertsRaised s).

(** The hook's state before any navigation. *)
Definition initialSession : Session :=
  mkSession None None None None None None [] 0 false false None
            None None None None [] 0 false None ∅ 0%Z false [] [].

(** Sets the alert, plays the sound and shows the notification. *)
Definition triggerNavigationAlert (alert : NavigationAlert) (s : Session) : Session :=
  put_alertsRaised (alert :: alertsRaised s) (setNavigationAlert (Some alert) s).

(** The same for a weather alert. *)
Definition triggerWeatherAlert (text : string) (s : Session) : Session :=
  put_weatherAlertsRaised (text :: weatherAlertsRaised s) (setWeatherAlert (Some text) s).

Definition clearNavigationAlert (s : Session) : Session := setNavigationAlert None s.

Definition clearWeatherAlert (s : Session) : Session := setWeatherAlert None s.

Definition stopNavigation (s : Session) : Session :=
  let s := put_watching false s in
  let s := setIsNavigating false s in
  let s := setClosestPathIndex 0 s in
  let s := setLiveLocation None s in
  let s := setNavigationStats None s in
  let s := setNavigationAlert None s in
  let s := setWeatherAlert None s in
  let s := setSafeRoute None s in
  let s := setAnimalsNearRoute [] s in
  let s := setEmergencyRoute None s in
  let s := setIsApproachingStart false s in
  let s := put_closestPathIndexRef 0 s in
  let s := put_isApproachingStartRef false s in
  let s := put_initialRouteSnapshotRef None s in
  put_shownAnimalAlertsRef ∅ s.

Definition APPROACHING_START_THRESHOLD_KM : Q := 0.5.
Definition ANIMAL_ALERT_THRESHOLD_KM : Q := 2.

(** One fix delivered by the position watch. [now] is [Date.now()] when
    its handler starts; [weather] is what [api.getWeatherData] resolves
    with if asked (it never rejects). *)
Record Position : Type := mkPosition
  { latitude : Q; longitude : Q; now : Z; weather : option WeatherData }.

(** The registration part of [startNavigation]; the watch callback is
    the handler below. *)
Definition startNavigation (routeToNavigate : Route) (s : Session) : Session :=
  let s := put_shownAnimalAlertsRef ∅ s in
  let s := setClosestPathIndex 0 s in
  let s := put_closestPathIndexRef 0 s in
  let s := setEmergencyRoute None s in
  let s := setSafeRoute (Some routeToNavigate) s in
  let s := put_initialRouteSnapshotRef
             (Some (mkSnapshot (start routeToNavigate) (end_ routeToNavigate)
                               (mode routeToNavigate) (distanceKm routeToNavigate)
                               (durationMinutes routeToNavigate))) s in
  let s := setIsNavigating true s in
  let s := setNavigationAlert None s in
  let s := setWeatherAlert None s in
  put_watching true s.

(** The state changes of [calculateRouteToNearestSafePlace] once the
    route to the closest safe place [place] has been found. *)
Definition emergencyReroute (route : Route) (place : string) (s : Session) : Session :=
  let s := setEmergencyRoute (Some route) s in
  let s := put_closestPathIndexRef 0 s in
  let s := setClosestPathIndex 0 s in
  let s := setIsApproachingStart false s in
  let s := put_isApproachingStartRef false s in
  let s := triggerNavigationAlert (mkAlert None (Rerouting place)) s in
  setRouteMessage (Some EmergencyRouteCalculated) s.

Section Handler.

Variable calculateDistance : LatLon -> LatLon -> Q.

(** [now - lastWeatherCheckTimestampRef.current > WEATHER_CHECK_INTERVAL_MS] *)
Definition weatherCheckDue (position : Position) (s : Session) : bool :=
  (WEATHER_CHECK_INTERVAL_MS <? now position - lastWeatherCheckTimestampRef s)%Z.

(** What the handler does with the answer of [api.getWeatherData]. *)
Definition applyWeather (answer : option WeatherData) (s : Session) : Session :=
  match answer with
  | Some weatherData =>
      if isWeatherSevere (weatherCode weatherData)
      then triggerWeatherAlert (getWeatherAlertText (weatherCode weatherData)) s
      else match weatherAlertRef s with
           | Some _ => clearWeatherAlert s
           | None => s
           end
  | None => s
  end.

(** The weather part of the handler, when the answer is there at once. *)
Definition weatherStep (position : Position) (s : Session) : Session :=
  if weatherCheckDue position s then
    let s := put_lastWeatherCheckTimestampRef (now position) s in
    applyWeather (weather position) s
  else s.

(** The test of the alert loop: within the threshold and not yet shown. *)
Definition qualifiesForAlert (currentLiveLocation : LatLon) (shown : gset string)
    (animal : AnimalPrediction) : bool :=
  Num.leb (calculateDistance currentLiveLocation (current animal)) ANIMAL_ALERT_THRESHOLD_KM
  && negb (bool_decide (animal_id animal ∈ shown)).

(** The alert raised for [animal]. *)
Definition animalAlert (currentLiveLocation : LatLon) (animal : AnimalPrediction)
    : NavigationAlert :=
  mkAlert (Some animal)
    (AnimalDetected (common animal)
       (option_map Num.toFixed1 (distanceToPathKm animal))
       (Num.toFixed1 (calculateDistance currentLiveLocation (current animal)))).

(** [for (const animal of nearbyAnimals)], with its [break]. *)
Fixpoint animalAlertLoop (currentLiveLocation : LatLon)
    (nearbyAnimals : list AnimalPrediction) (s : Session) : Session :=
  match nearbyAnimals with
  | [] => s
  | animal :: rest =>
      if qualifiesForAlert currentLiveLocation (shownAnimalAlertsRef s) animal
      then
        match navigationAlertRef s with
        | None =>
            let s := triggerNavigationAlert (animalAlert currentLiveLocation animal) s in
            put_shownAnimalAlertsRef ({[animal_id animal]} ∪ shownAnimalAlertsRef s) s
        | Some _ => animalAlertLoop currentLiveLocation rest s
        end
      else animalAlertLoop currentLiveLocation rest s
  end.

(** [emergencyRouteRef.current || safeRouteRef.current] *)
Definition activeRouteOf (s : Session) : option Route :=
  match emergencyRouteRef s with
  | Some r => Some r
  | None => safeRouteRef s
  end.

(** The stats of the last lines of the handler, in doubles: the route's
    totals are read as doubles, and every operation gives the double
    nearest to its exact result ([Num.fl]); [totalPathPoints - 1], a
    difference of small integers, is exact. *)
Definition progressRatioOf (routePath : list Coord) (index : nat) : Q :=
  if (1 <? length routePath)%nat
  then Num.fl (Num.ofNat index / (Num.ofNat (length routePath) - 1))
  else 0.

Definition statsOf (activeRoute : Route) (index : nat) : NavigationStats :=
  let totalDistanceKm := Num.fl (distanceKm activeRoute) in
  let totalDurationMinutes := Num.fl (durationMinutes activeRoute) in
  let progressRatio := progressRatioOf (path activeRoute) index in
  let remainingKm := Num.fl (totalDistanceKm * Num.fl (1 - progressRatio)) in
  let etaMinutes := Num.fl (totalDurationMinutes * Num.fl (1 - progressRatio)) in
  let progressPercent := Num.Math_round (Num.fl (progressRatio * 100)) in
  mkStats (Num.fl (Num.toFixed1 remainingKm)) (Num.Math_round etaMinutes)
          (Num.Math_max 0 (Num.Math_min 100 progressPercent)).

(** The index found for this fix, and the approaching-start test. *)
Definition newClosestPointIndexOf (currentLiveLocation : LatLon)
    (activeRoute : Route) (s : Session) : nat :=
  geo.closestPointIndex
    (geo.getPathDataFromLocation calculateDistance currentLiveLocation
       (path activeRoute) (closestPathIndexRef s)).

Definition isNowApproachingOf (currentLiveLocation : LatLon)
    (activeRoute : Route) (s : Session) : bool :=
  let distanceToStart :=
    calculateDistance currentLiveLocation (latlon_of (start activeRoute)) in
  match emergencyRouteRef s with
  | Some _ => false
  | None =>
      (newClosestPointIndexOf currentLiveLocation activeRoute s =? 0)%nat
      && Num.gtb distanceToStart APPROACHING_START_THRESHOLD_KM
  end.

(** The handler up to its [await]: a stale signal-lost alert is cleared,
    the live position is stored and, if a weather check is due, its time
    is noted and the weather is asked for. *)
Definition onPositionBegin (position : Position) (s : Session) : Session :=
  let s := if isSignalLost (navigationAlertRef s) then clearNavigationAlert s else s in
  let s := setLiveLocation
             (Some (mkLocation (latitude position) (longitude position) "Live Location")) s in
  if weatherCheckDue position s
  then put_lastWeatherCheckTimestampRef (now position) s
  else s.

(** The handler's first steps when the weather is answered at once. *)
Definition preamble (position : Position) (s : Session) : Session :=
  let s := if isSignalLost (navigationAlertRef s) then clearNavigationAlert s else s in
  let s := setLiveLocation
             (Some (mkLocation (latitude position) (longitude position) "Live Location")) s in
  weatherStep position s.

(** The handler's last steps: the nearest path point, the
    approaching-start test, the matched index and the stats. *)
Definition trackProgress (currentLiveLocation : LatLon) (s : Session) : Session :=
  match activeRouteOf s with
  | None => s
  | Some activeRoute =>
      let totalDistanceKm := distanceKm activeRoute in
      let totalDurationMinutes := durationMinutes activeRoute in
      let newClosestPointIndex :=
        newClosestPointIndexOf currentLiveLocation activeRoute s in
      let distanceToStart :=
        calculateDistance currentLiveLocation (latlon_of (start activeRoute)) in
      let wasApproaching := isApproachingStartRef s in
      let isNowApproaching := isNowApproachingOf currentLiveLocation activeRoute s in
      if isNowApproaching then
        let s := if negb wasApproaching
                 then setIsApproachingStart true (put_isApproachingStartRef true s)
                 else s in
        let s := setRouteMessage
                   (Some (ProceedToStart (Num.toFixed1 distanceToStart))) s in
        setNavigationStats
          (Some (match initialRouteSnapshotRef s with
                 | Some originalRouteStats =>
                     mkStats (snap_distanceKm originalRouteStats)
                             (snap_durationMinutes originalRouteStats) 0
                 | None => mkStats totalDistanceKm totalDurationMinutes 0
                 end)) s
      else
        let s := if wasApproaching
                 then triggerNavigationAlert (mkAlert None NavigationBegun)
                        (setIsApproachingStart false (put_isApproachingStartRef false s))
                 else s in
        let s := put_closestPathIndexRef newClosestPointIndex s in
        let s := setClosestPathIndex newClosestPointIndex s in
        setNavigationStats (Some (statsOf activeRoute newClosestPointIndex)) s
  end.

(** The handler from the alert loop to its end: nothing is awaited
    there. *)
Definition onPositionEnd (position : Position) (s : Session) : Session :=
  let currentLiveLocation := mkLatLon (latitude position) (longitude position) in
  let s := animalAlertLoop currentLiveLocation (animalsNearRouteRef s) s in
  trackProgress currentLiveLocation s.

(** The handler resumed with the answer of the weather service. *)
Definition onPositionResume (position : Position) (s : Session) : Session :=
  onPositionEnd position (applyWeather (weather position) s).

(** The success callback of [watchPosition] with nothing else running
    before it ends.  That is the handler of every fix for which no weather
    check is due; when one is due the handler gives way at its [await], and
    a render, another fix or a stop may come before it resumes: it is then
    [onPositionBegin] followed, later, by [onPositionResume]. *)
Definition onPosition (position : Position) (s : Session) : Session :=
  let currentLiveLocation := mkLatLon (latitude position) (longitude position) in
  let s := preamble position s in
  let s := animalAlertLoop currentLiveLocation (animalsNearRouteRef s) s in
  trackProgress currentLiveLocation s.

(** The error callback of [watchPosition]. *)
Definition onPositionError (s : Session) : Session :=
  triggerNavigationAlert (mkAlert None SignalLost) s.

(** What can happen to a session between its start and its stop.  A fix
    for which a weather check is due is two events: the fix, handled up to
    the [await], and the answer of the weather service, with which its
    handler resumes. *)
Inductive Event : Type :=
| PositionFix (position : Position)
| WeatherAnswered (position : Position)
| PositionError
| Rendered
| AlertDismissed                 (* the user closes the alert *)
| AnimalsUpdated (animals : list AnimalPrediction)
| EmergencyRerouted (route : Route) (place : string).

Definition handle (e : Event) (s : Session) : Session :=
  match e with
  | PositionFix position =>
      if weatherCheckDue position s
      then onPositionBegin position s
      else onPositionEnd position (onPositionBegin position s)
  | WeatherAnswered position => onPositionResume position s
  | PositionError => onPositionError s
  | Rendered => render s
  | AlertDismissed => clearNavigationAlert s
  | AnimalsUpdated animals => setAnimalsNearRoute animals s
  | EmergencyRerouted route place => emergencyReroute route place s
  end.

Definition run (events : list Event) (s : Session) : Session :=
  fold_left (fun s e => handle e s) events s.

End Handler.

(** The alerts raised for the hazard [hazardId]. *)
Definition alertsFor (hazardId : string) (alerts : list NavigationAlert)
    : list NavigationAlert :=
  List.filter (fun a => match animal a with
                        | Some an => String.eqb (animal_id an) hazardId
                        | None => false
                        end) alerts.

(** The hazard alerts among [alerts]. *)
Definition hazardAlerts (alerts : list NavigationAlert) : list NavigationAlert :=
  List.filter (fun a => match animal a with Some _ => true | None => false end) alerts.

End hook.

(** ** Stand-ins for running the definitions

    Rational stand-ins for the functions the development leaves abstract.
    They only serve to evaluate the definitions on concrete inputs. *)

Module sample.

(** Kilometres between two points of a flat grid, 111 km to the degree,
    measured along the axes. *)
Definition gridDistance (a b : LatLon) : Q :=
  111 * (Qabs (lat a - lat b) + Qabs (lon a - lon b)).

Definition Math_PI : Q := 355 # 113.
Definition Math_cos (x : Q) : Q := 1 - x * x / 2.
Definition Math_sin (x : Q) : Q := x - x * x * x / 6.

Definition A : Location := mkLocation 0 0 "A".
Definition B : Location := mkLocation 0 (5 # 1000) "B".



(** The spec's arbitration scenario: a direct route of 30 minutes, a
    safe alternative of 40, one hazard on the way. *)
Definition direct30 : Route := mkRoute [(0, 0); (0, 5 # 1000)] 1 30 A B walk None.
Definition safe40 : Route := mkRoute [(0, 0); (1 # 1000, 2 # 1000); (0, 5 # 1000)] 2 40 A B walk None.
Definition tiger : AnimalPrediction :=
  mkAnimal "Panthera tigris-1" "Tiger" (mkLatLon 0 (2 # 1000)) None.

(** A routing service that knows these two routes. *)
Definition router (start end_ : Location) (avoid : list (list Coord)) (m : TravelMode)
    : Outcome (option Route) :=
  match avoid with
  | [] => Returned (Some direct30)
  | _ => Returned (Some safe40)
  end.

(** A degenerate ring standing in for the circle around a hazard. *)
Definition ring (center : Coord) (radiusKm : Q) : list Coord := [center; center].

(** Three sightings of one animal, most recent first, and a species seen
    once, and one never seen. *)
Definition tigerSightings : api.SightingSet :=
  api.mkSightingSet "Panthera tigris"
    [mkSighting 3 6 None; mkSighting 2 4 None; mkSighting 0 0 None].
Definition bearSighting : api.SightingSet :=
  api.mkSightingSet "Melursus ursinus" [mkSighting 1 1 None].
Definition noSighting : api.SightingSet :=
  api.mkSightingSet "Bos gaurus" [].
Definition randoms (k : nat) : Q := 1 # 4.

(** A tensor library whose operations are correctly rounded to single
    precision, the mean being rounded once. *)
Definition tf : api.TensorLibrary :=
  api.mkTensorLibrary (fun a b => Num.fround (a - b)) (fun a b => Num.fround (a + b))
                      (fun l => Num.fround (api.mean l)).

(** A straight route of four vertices 1.11 km apart, 10 km and 30 minutes
    in total by the service's summary. *)
Definition trail : Route :=
  mkRoute [(0, 0); (0, 1 # 100); (0, 2 # 100); (0, 3 # 100)] 10 30
          (mkLocation 0 0 "trailhead") (mkLocation 0 (3 # 100) "camp") walk None.

(** A fix at the [k]-th hundredth of a degree along the trail, no weather
    check due. *)
Definition fixAt (k : Z) : hook.Position := hook.mkPosition 0 (k # 100) 0 None.

(** An elephant 1.11 km off the trail's second vertex. *)
Definition elephant : AnimalPrediction :=
  mkAnimal "Elephas maximus-1" "Elephant" (mkLatLon (1 # 100) (1 # 100)) (Some (111 # 100)).

(** A session on the trail, rendered once, with the elephant known. *)
Definition onTrail : hook.Session :=
  hook.render
    (hook.setAnimalsNearRoute [elephant] (hook.startNavigation trail hook.initialSession)).

(** A gaur 1.11 km off the same vertex, on the other side. *)
Definition gaur : AnimalPrediction :=
  mkAnimal "Bos gaurus-1" "Gaur (Indian Bison)" (mkLatLon (- (1 # 100)) (1 # 100))
           (Some (111 # 100)).

(** The same session with both animals known. *)
Definition twoHazards : hook.Session :=
  hook.render
    (hook.setAnimalsNearRoute [elephant; gaur]
       (hook.startNavigation trail hook.initialSession)).

(** The first fix of that session, at the trail's second vertex, for
    which the weather is asked and found calm, and a fix one second later
    at the same place. *)
Definition firstFix : hook.Position :=
  hook.mkPosition 0 (1 # 100) 1700000000000 (Some (mkWeather 20 1 10 1)).
Definition nextFix : hook.Position :=
  hook.mkPosition 0 (1 # 100) 1700000001000 None.

(** The session once the first fix is handled to its end, not yet
    rendered again. *)
Definition alerted : hook.Session :=
  hook.run gridDistance [hook.PositionFix firstFix; hook.WeatherAnswered firstFix]
           twoHazards.

(** A straight route of 201 vertices 1.11 km apart, and a session on it
    whose matched index is 30. *)
Definition longTrail : Route :=
  mkRoute (map (fun k => (0, inject_Z (Z.of_nat k) / 100)) (seq 0 201)) 222 300
          (mkLocation 0 0 "trailhead") (mkLocation 0 2 "pass") walk None.
Definition onLongTrail : hook.Session :=
  hook.render (hook.startNavigation longTrail hook.initialSession).
Definition farAlong : hook.Session :=
  hook.handle gridDistance (hook.PositionFix (fixAt 30)) onLongTrail.

(** An animal seen twice at the same place. *)
Definition restingTiger : api.SightingSet :=
  api.mkSightingSet "Panthera tigris"
    [mkSighting 11.43 76.7 None; mkSighting 11.43 76.7 None].

End sample.

(** ** The rest of [services/geoService.ts] *)

Module geoService.

Inductive PlaceType : Type := police | ranger.

Record SafePlace : Type := mkSafePlace
  { sp_id : Z;
    sp_lat : Q;
    sp_lon : Q;
    sp_type : PlaceType;
    sp_name : string;
    sp_address : option string;
    sp_hours : option string;
    sp_phone : option string }.

Definition latlon_of_place (p : SafePlace) : LatLon := mkLatLon (sp_lat p) (sp_lon p).

Section Sphere.

Variables Math_cos Math_sin Math_asin Math_sqrt : Q -> Q.
Variable Math_atan2 : Q -> Q -> Q.
Variable Math_PI : Q.

(** The haversine distance in km. *)
Definition calculateDistance (loc1 loc2 : LatLon) : Q :=
  let R := 6371 in
  let dLat := (lat loc2 - lat loc1) * Math_PI / 180 in
  let dLon := (lon loc2 - lon loc1) * Math_PI / 180 in
  let a :=
    0.5 - Math_cos dLat / 2 +
    Math_cos (lat loc1 * Math_PI / 180) * Math_cos (lat loc2 * Math_PI / 180) *
    (1 - Math_cos dLon) / 2 in
  R * 2 * Math_asin (Math_sqrt a).

(** The [i]-th vertex of the circle, as [[lon, lat]]. *)
Definition circleVertex (center : Coord) (radiusKm : Q) (points : nat) (i : nat) : Coord :=
  let distance := radiusKm / 6371 in
  let lat1 := fst center * Math_PI / 180 in
  let lon1 := snd center * Math_PI / 180 in
  let bearing := 2 * Math_PI * Num.ofNat i / Num.ofNat points in
  let lat2 := Math_asin (Math_sin lat1 * Math_cos distance
                         + Math_cos lat1 * Math_sin distance * Math_cos bearing) in
  let lon2 := lon1 + Math_atan2 (Math_sin bearing * Math_sin distance * Math_cos lat1)
                                (Math_cos distance - Math_sin lat1 * Math_sin lat2) in
  (lon2 * 180 / Math_PI, lat2 * 180 / Math_PI).

(** The ring of [points] vertices, closed by [coords.push(coords[0])];
    meant for [points >= 1] (with none, the source pushes [undefined]). *)
Definition createCirclePolygon (center : Coord) (radiusKm : Q) (points : nat)
    : list Coord :=
  let coords := map (circleVertex center radiusKm points) (seq 0 points) in
  coords ++ [nth 0 coords (0, 0)].

End Sphere.

Section Flat.

Variable calculateDistance : LatLon -> LatLon -> Q.

(** [for (let i = 0; i < path.length - 1; i++) totalDistance += ...] *)
Definition calculatePolylineDistance (path : list Coord) : Q :=
  fold_left
    (fun totalDistance i =>
       let point1 := mkLatLon (fst (geo.at_ path i)) (snd (geo.at_ path i)) in
       let point2 := mkLatLon (fst (geo.at_ path (i + 1))) (snd (geo.at_ path (i + 1))) in
       totalDistance + calculateDistance point1 point2)
    (seq 0 (length path - 1)) 0.

(** The body of [places.forEach] in [findClosestSafePlace], on the pair
    of [closestPlace] and [minDistance]. *)
Definition closerPlace (userLocation : LatLon) (acc : option SafePlace * option Q)
    (place : SafePlace) : option SafePlace * option Q :=
  let distance := calculateDistance userLocation (latlon_of_place place) in
  if Num.lt_min distance (snd acc) then (Some place, Some distance) else acc.

Definition findClosestSafePlace (userLocation : LatLon) (places : list SafePlace)
    : option SafePlace :=
  if (length places =? 0)%nat then None
  else fst (fold_left (closerPlace userLocation) places (None, None)).

End Flat.

(** *** [decodePolyline] *)

(** A number as a 32-bit signed integer, as the bit operators see it. *)
Definition toInt32 (z : Z) : Z := ((z + 2 ^ 31) mod 2 ^ 32 - 2 ^ 31)%Z.

(** [charCodeAt] of a character of the string. *)
Definition charCode (c : ascii) : Z := Z.of_nat (nat_of_ascii c).

(** One [do ... while (b >= 0x20)] loop over the characters left, from
    the given [shift] and [result]: the value read and the characters left
    after it.  Past the end [charCodeAt] gives [NaN]: nothing is or-ed in
    and the loop stops. *)
Fixpoint readValue (codes : list Z) (shift result : Z) : Z * list Z :=
  match codes with
  | [] => (result, [])
  | c :: rest =>
      let b := (c - 63)%Z in
      let result := Z.lor result (toInt32 (Z.shiftl (Z.land b 31) (shift mod 32))) in
      if (32 <=? b)%Z then readValue rest (shift + 5)%Z result else (result, rest)
  end.

(** [(result & 1) ? ~(result >> 1) : (result >> 1)] *)
Definition unzigzag (result : Z) : Z :=
  if (Z.land result 1 =? 0)%Z then Z.shiftr result 1 else Z.lnot (Z.shiftr result 1).

(** The [while (index < len)] loop; every round reads at least one
    character, so [fuel] rounds are enough for [fuel] characters. *)
Fixpoint decodeLoop (fuel : nat) (codes : list Z) (lat lng : Z) (factor : Q)
    : list Coord :=
  match fuel with
  | O => []
  | S fuel' =>
      match codes with
      | [] => []
      | _ :: _ =>
          let '(result, rest) := readValue codes 0 0 in
          let lat := (lat + unzigzag result)%Z in
          let '(result', rest') := readValue rest 0 0 in
          let lng := (lng + unzigzag result')%Z in
          (inject_Z lat / factor, inject_Z lng / factor)
          :: decodeLoop fuel' rest' lat lng factor
      end
  end.

Definition decodePolyline (encoded : string) (precision : nat) : list Coord :=
  let factor := inject_Z (10 ^ Z.of_nat precision) in
  decodeLoop (String.length encoded) (map charCode (list_ascii_of_string encoded)) 0 0 factor.

(** The encoding [decodePolyline] reads, for comparison: a value is
    doubled, complemented when negative, and written five bits at a time,
    low bits first, each chunk but the last with bit [0x20] set, plus 63. *)
Definition zigzag (v : Z) : Z :=
  if (v <? 0)%Z then Z.lnot (Z.shiftl v 1) else Z.shiftl v 1.

Fixpoint encodeChunks (chunks : nat) (u : Z) : list Z :=
  match chunks with
  | O => []
  | S chunks' =>
      if (u <? 32)%Z then [(u + 63)%Z]
      else (Z.lor 32 (Z.land u 31) + 63)%Z :: encodeChunks chunks' (Z.shiftr u 5)
  end.

Definition encodeValue (v : Z) : list Z := encodeChunks 6 (zigzag v).

(** The points are integers (coordinates times [10 ^ precision]); each is
    written as its difference from the previous one. *)
Fixpoint encodePoints (points : list (Z * Z)) (lat lng : Z) : list Z :=
  match points with
  | [] => []
  | (lat', lng') :: rest =>
      encodeValue (lat' - lat) ++ encodeValue (lng' - lng) ++ encodePoints rest lat' lng'
  end.

(** The points whose steps fit the six chunks of a value. *)
Fixpoint encodable (points : list (Z * Z)) (lat lng : Z) : Prop :=
  match points with
  | [] => True
  | (lat', lng') :: rest =>
      (Z.abs (lat' - lat) < 2 ^ 29)%Z /\ (Z.abs (lng' - lng) < 2 ^ 29)%Z
      /\ encodable rest lat' lng'
  end.

Definition encodePolyline (points : list (Z * Z)) : string :=
  string_of_list_ascii
    (map (fun c => ascii_of_nat (Z.to_nat c)) (encodePoints points 0 0)).

End geoService.

(** ** The rest of [services/apiService.ts] *)

Module apiService.

(** A number in a condition: [undefined], [NaN] and 0 are falsy. *)
Definition truthy (x : option Q) : bool :=
  match x with
  | Some q => negb (Qeq_bool q 0)
  | None => false
  end.

(** [x || fallback] on strings: absent and empty strings are falsy. *)
Definition orElse (x : option string) (fallback : string) : string :=
  match x with
  | Some s => if String.eqb s EmptyString then fallback else s
  | None => fallback
  end.

(** *** Safe places from the map service *)

(** An element of the map service's answer, as far as it is read. *)
Record Element : Type := mkElement
  { el_id : Z;
    el_center : option (option Q * option Q);   (* [{lat, lon}] of a way *)
    el_lat : option Q;
    el_lon : option Q;
    el_tags : option (gmap string string) }.

(** [tags[key]], with [tags] defaulting to [{}]. *)
Definition tag (el : Element) (key : string) : option string :=
  match el_tags el with
  | Some tags => tags !! key
  | None => None
  end.

(** [x || undefined] on strings. *)
Definition nonEmpty (x : option string) : option string :=
  match x with
  | Some s => if String.eqb s EmptyString then None else Some s
  | None => None
  end.

(** [[a, b, c, d].filter(Boolean).join(', ')] *)
Definition addressOf (el : Element) : string :=
  String.concat ", "
    (omap (fun key => nonEmpty (tag el key))
          ["addr:housenumber"; "addr:street"; "addr:city"; "addr:postcode"]).

(** One element as the source maps it, before the filter; the
    coordinates may still be missing. *)
Record RawPlace : Type := mkRawPlace
  { raw_lat : option Q; raw_lon : option Q; raw_place : geoService.SafePlace }.

Definition placeOf (el : Element) : RawPlace :=
  let center := match el_center el with
                | Some c => c
                | None => (el_lat el, el_lon el)
                end in
  let type := match tag el "amenity" with
              | Some amenity =>
                  if String.eqb amenity "police" then geoService.police
                  else geoService.ranger
              | None => geoService.ranger
              end in
  mkRawPlace (fst center) (snd center)
    (geoService.mkSafePlace (el_id el)
       (default 0 (fst center)) (default 0 (snd center)) type
       (orElse (tag el "name")
               match type with
               | geoService.police => "Police Station"
               | geoService.ranger => "Forest Office"
               end)
       (nonEmpty (Some (addressOf el)))
       (nonEmpty (tag el "opening_hours"))
       (nonEmpty (Some (orElse (tag el "phone")
                               (orElse (tag el "contact:phone") EmptyString))))).

(** [data.elements.map(...).filter(p => p.lat && p.lon)] *)
Definition placesOf (elements : list Element) : list geoService.SafePlace :=
  map raw_place
      (List.filter (fun p => truthy (raw_lat p) && truthy (raw_lon p))
                   (map placeOf elements)).

(** The box written into the query of [findSafePlacesAlongRoute], as
    (south, west, north, east); [None] for an empty path, for which no
    query is sent. *)
Definition boxStep (box : Q * Q * Q * Q) (vertex : Coord) : Q * Q * Q * Q :=
  let '(minLat, maxLat, minLon, maxLon) := box in
  (Num.Math_min minLat (fst vertex), Num.Math_max maxLat (fst vertex),
   Num.Math_min minLon (snd vertex), Num.Math_max maxLon (snd vertex)).

Definition routeBox (routePath : list Coord) : option (Q * Q * Q * Q) :=
  if (length routePath =? 0)%nat then None
  else
    let buffer := 0.05 in
    let '(minLat, maxLat, minLon, maxLon) :=
      fold_left boxStep routePath (90, -90, 180, -180) in
    Some (minLat - buffer, minLon - buffer, maxLat + buffer, maxLon + buffer).

(** *** Calls through the fetch helper *)

Inductive GeocodeOutcome : Type :=
| Resolved (name : string)
| InvalidCoordinates (lat lon : Q)   (* "Invalid coordinates provided: ..." *)
| GeocodeFailed (error : Error).     (* the fetch helper's error, message kept *)

(** An occurrence of the sightings service, as far as it is read. *)
Record Media : Type := mkMedia { m_type : string; m_identifier : option string }.

Record Occurrence : Type := mkOccurrence
  { decimalLatitude : option Q;
    decimalLongitude : option Q;
    media : option (list Media) }.

(** [occ.media?.find(m => m.type === 'StillImage')?.identifier] *)
Definition imageOf (occ : Occurrence) : option string :=
  match media occ with
  | Some ms =>
      match List.find (fun m => String.eqb (m_type m) "StillImage") ms with
      | Some m => m_identifier m
      | None => None
      end
  | None => None
  end.



Section Calls.

Variable Json : Type.
Variable JSON_parse : string -> option Json.

(** What is read of a parsed body: [data.display_name] and
    [data.results], each [None] when absent. *)
Variable display_name : Json -> option string.
Variable results : Json -> option (list Occurrence).

(** [reverseGeocode]: the outcome and the number of [fetch] calls made. *)
Definition reverseGeocode (lat lon : Q) (network : nat -> api.FetchOutcome)
    : GeocodeOutcome * nat :=
  if Num.ltb lat (-90) || Num.gtb lat 90 || Num.ltb lon (-180) || Num.gtb lon 180
  then (InvalidCoordinates lat lon, 0%nat)
  else
    let run := api.fetchJson Json JSON_parse network 3 1000 in
    match api.outcome run with
    | Returned (Some data) =>
        (Resolved (orElse (display_name data) "Unknown location"), api.fetchCalls run)
    | Returned None => (Resolved "Unknown location", api.fetchCalls run)
    | Thrown error => (GeocodeFailed error, api.fetchCalls run)
    end.

(** [getAnimalSightings], for the request the network script answers:
    the sightings and the number of [fetch] calls made. *)
Definition getAnimalSightings (taxonKey : string) (network : nat -> api.FetchOutcome)
    : list Sighting * nat :=
  if String.eqb taxonKey EmptyString then ([], 0%nat)
  else
    let run := api.fetchJson Json JSON_parse network 3 1000 in
    match api.outcome run with
    | Returned (Some sightingsData) =>
        match results sightingsData with
        | Some occurrences =>
            let sightings :=
              map (fun occ => (decimalLatitude occ, decimalLongitude occ, imageOf occ))
                  occurrences in
            (map (fun s => mkSighting (default 0 (fst (fst s))) (default 0 (snd (fst s)))
                                      (snd s))
                 (List.filter (fun s => truthy (fst (fst s)) && truthy (snd (fst s)))
                              sightings),
             api.fetchCalls run)
        | None => ([], api.fetchCalls run)
        end
    | Returned None => ([], api.fetchCalls run)
    | Thrown _ => ([], api.fetchCalls run)
    end.

End Calls.

End apiService.

(** ** The rest of [hooks/useAnimalData.ts] *)

Module useAnimalData.

Definition RADIUS_KM : Q := 50.
Definition NEARBY_KM : Q := 5.
Definition SEQ_LEN : nat := 10.
Definition SMOOTH_STEPS : nat := 150.

(** [Object.entries(ANIMALS)]: each scientific name with its common
    name, in the order of the table. *)
Definition ANIMALS : list (string * string) :=
  [("Panthera pardus", "Leopard");
   ("Elephas maximus", "Asian Elephant");
   ("Bos gaurus", "Gaur (Indian Bison)");
   ("Panthera tigris", "Tiger");
   ("Melursus ursinus", "Sloth Bear");
   ("Rhinoceros unicornis", "Rhino")].

(** [commonToScientific[name]], once the table has been filled entry by
    entry (a later entry overwrites an earlier one); [name] is not one of
    the property names every object has. *)
Definition commonToScientific (name : string) : option string :=
  fold_left (fun found entry =>
               if String.eqb (snd entry) name then Some (fst entry) else found)
            ANIMALS None.

(** A sighting reported by the user. *)
Record ManualSighting : Type := mkManual
  { commonName : string;
    m_address : string;
    m_lat : Q;
    m_lon : Q;
    m_timestamp : string }.

(** *** Sighting sets for the predictor ([getPredictionsForArea]) *)

(** [manualSightingSets]: an object used as a map from scientific names
    to sightings, its keys in insertion order. *)
Definition ManualSets : Type := list (string * list Sighting).

Fixpoint lookupSet (key : string) (sets : ManualSets) : option (list Sighting) :=
  match sets with
  | [] => None
  | (k, l) :: rest => if String.eqb k key then Some l else lookupSet key rest
  end.

Fixpoint deleteSet (key : string) (sets : ManualSets) : ManualSets :=
  match sets with
  | [] => []
  | (k, l) :: rest =>
      if String.eqb k key then deleteSet key rest else (k, l) :: deleteSet key rest
  end.

(** [if (!sets[key]) sets[key] = []; sets[key].push(s)] *)
Fixpoint pushTo (key : string) (s : Sighting) (sets : ManualSets) : ManualSets :=
  match sets with
  | [] => [(key, [s])]
  | (k, l) :: rest =>
      if String.eqb k key then (k, l ++ [s]) :: rest else (k, l) :: pushTo key s rest
  end.

Definition manualSightingSetsOf (relevantManualSightings : list ManualSighting)
    : ManualSets :=
  fold_left (fun sets s =>
               match commonToScientific (commonName s) with
               | Some sciName => pushTo sciName (mkSighting (m_lat s) (m_lon s) None) sets
               | None => sets
               end)
            relevantManualSightings [].

(** The manual sightings of one species, as sightings and in the order
    of the list. *)
Definition manualOf (name : string) (relevantManualSightings : list ManualSighting)
    : list Sighting :=
  map (fun s => mkSighting (m_lat s) (m_lon s) None)
      (List.filter (fun s => bool_decide (commonToScientific (commonName s) = Some name))
                   relevantManualSightings).

(** The first [forEach] over the fetched sets: manual sightings go in
    front, and the species is removed from the manual sets. *)
Definition mergeManual (sightingSets : list api.SightingSet) (manual : ManualSets)
    : list api.SightingSet * ManualSets :=
  fold_left (fun acc set =>
               match lookupSet (api.scientificName set) (snd acc) with
               | Some m =>
                   (fst acc ++ [api.mkSightingSet (api.scientificName set)
                                                  (m ++ api.sightings set)],
                    deleteSet (api.scientificName set) (snd acc))
               | None => (fst acc ++ [set], snd acc)
               end)
            sightingSets ([], manual).

Section Predictions.

Variable calculateDistance : LatLon -> LatLon -> Q.

(** The sighting sets handed to the predictor; [sightingsOf name] is what
    [api.getAnimalSightings] returns for the species. *)
Definition sightingSetsOf (location : LatLon) (radius : Q)
    (sightingsOf : string -> list Sighting)
    (manualSightings : list ManualSighting) : list api.SightingSet :=
  let sightingSets :=
    List.filter (fun set => (0 <? length (api.sightings set))%nat)
      (map (fun entry => api.mkSightingSet (fst entry)
                           (take SEQ_LEN (sightingsOf (fst entry))))
           ANIMALS) in
  let relevantManualSightings :=
    List.filter (fun s => Num.leb (calculateDistance location
                                     (mkLatLon (m_lat s) (m_lon s))) radius)
                manualSightings in
  let merged := mergeManual sightingSets (manualSightingSetsOf relevantManualSightings) in
  map (fun set => api.mkSightingSet (api.scientificName set)
                                    (take SEQ_LEN (api.sightings set)))
      (fst merged ++ map (fun entry => api.mkSightingSet (fst entry) (snd entry))
                         (snd merged)).

(** How the work on one predicted group ends. *)
Inductive Detail : Type :=
| Skipped                        (* [return null] *)
| Detailed (currentSighting : Sighting) (common : string) (currentAddr : string)
           (fullPath : list Coord)
| Rejected.                      (* an error is thrown: the promise rejects *)

(** [ANIMALS[scientificName]?.common]; [scientificName] is not one of the
    property names every object has. *)
Definition animalInfoOf (scientificName : string) : option string :=
  option_map snd (List.find (fun entry => String.eqb (fst entry) scientificName) ANIMALS).

(** One predicted group: the current sighting, the species' common name,
    the address of the current point and the smoothed path through it and
    the predicted points.  [reverseGeocode] is [api.reverseGeocode] with
    the network of the moment; the call for the current point is awaited
    outside any [try].  The addresses of the predicted points, whose
    lookups are caught, and the display attributes are left out. *)
Definition trackOf (reverseGeocode : Q -> Q -> apiService.GeocodeOutcome)
    (sightingSets : list api.SightingSet) (predGroup : api.PredictionGroup) : Detail :=
  let pathPoints := api.predictions predGroup in
  match List.find (fun s => String.eqb (api.scientificName s)
                                       (api.g_scientificName predGroup))
                  sightingSets with
  | None => Skipped
  | Some sightingSet =>
      match api.sightings sightingSet with
      | [] => Skipped
      | currentSighting :: _ =>
          if (length pathPoints =? 0)%nat then Skipped
          else
            let animalInfo := animalInfoOf (api.g_scientificName predGroup) in
            match reverseGeocode (s_lat currentSighting) (s_lon currentSighting) with
            | apiService.Resolved currentAddr =>
                let waypoints :=
                  (s_lat currentSighting, s_lon currentSighting)
                  :: map (fun p => (lat p, lon p)) pathPoints in
                let fullPath := geo.createSplinePath waypoints SMOOTH_STEPS 0.5 in
                match animalInfo with
                | Some common => Detailed currentSighting common currentAddr fullPath
                | None => Rejected   (* [animalInfo.common] of [undefined] *)
                end
            | _ => Rejected
            end
      end
  end.

Definition isRejected (d : Detail) : bool :=
  match d with Rejected => true | _ => false end.

Definition isSkipped (d : Detail) : bool :=
  match d with Skipped => true | _ => false end.

(** [newPredictions], the predictions put on the map: [None] when one of
    the promises rejects, and the [catch] then puts none. *)
Definition newPredictionsOf (reverseGeocode : Q -> Q -> apiService.GeocodeOutcome)
    (sightingSets : list api.SightingSet) (pathPredictions : list api.PredictionGroup)
    : option (list Detail) :=
  let details := map (trackOf reverseGeocode sightingSets) pathPredictions in
  if existsb isRejected details then None
  else Some (List.filter (fun d => negb (isSkipped d)) details).

(** [nearbyAnimals] of [calculateSafeRoute]: each prediction with its
    distance to the final route, those under the radius kept. *)
Definition nearbyAnimalsOf (relevantPredictions : list AnimalPrediction)
    (finalRoute : Route) (radius : Q) : list AnimalPrediction :=
  List.filter
    (fun p => match distanceToPathKm p with
              | Some d => Num.ltb d radius
              | None => false
              end)
    (map (fun p =>
            mkAnimal (animal_id p) (common p) (current p)
                     (geo.distanceToPath
                        (geo.getPathDataFromLocation calculateDistance (current p)
                           (path finalRoute) 0)))
         relevantPredictions).

End Predictions.

(** The search history after a search by name that found a place
    ([processLocationSearch]). *)
Definition searchHistoryAfter (location : string) (searchHistory : list string)
    : list string :=
  if bool_decide (location ∈ searchHistory) then searchHistory
  else location :: take 4 searchHistory.

End useAnimalData.

(** ** [App.tsx]: accounts *)

Module App.

Record User : Type := mkUser
  { name : string;
    email : string;
    avatarId : string;
    nearbyRadiusKm : option Q;     (* may be missing in stored data *)
    isNewUser : bool }.            (* a missing flag counts as false *)

(** The three kinds of item the component keeps in [localStorage]. *)
Record Storage : Type := mkStorage
  { users_item : option (gmap string string);  (* 'wildlife-app-users' *)
    session_item : option User;                (* 'wildlife-app-session' *)
    user_items : gmap string User }.           (* 'user-<email>' *)

Record State : Type := mkState
  { user : option User;
    usersDB : gmap string string;              (* email -> password *)
    showOnboarding : bool;
    localStorage : Storage }.

Inductive Mode : Type := login | signup.

Section Auth.

Variable toLowerCase : string -> string.

(** [usersDB[email]] as a condition: a stored password that is not
    empty ([email] is not one of the property names every object has). *)
Definition registered (db : gmap string string) (email : string) : bool :=
  match db !! email with
  | Some stored => negb (String.eqb stored EmptyString)
  | None => false
  end.

(** [handleAuth]: the message returned ([None] is [null]) and the state
    after it. *)
Definition handleAuth (mode : Mode) (name email pass : string) (st : State)
    : option string * State :=
  let normalizedEmail := toLowerCase email in
  match mode with
  | login =>
      if registered (usersDB st) normalizedEmail
         && bool_decide (usersDB st !! normalizedEmail = Some pass)
      then
        match user_items (localStorage st) !! normalizedEmail with
        | None => (Some "Could not find user data. Please sign up again.", st)
        | Some stored =>
            let userData :=
              match nearbyRadiusKm stored with
              | None => mkUser (App.name stored) (App.email stored) (avatarId stored)
                               (Some useAnimalData.NEARBY_KM) (isNewUser stored)
              | Some _ => stored
              end in
            (None,
             mkState (Some userData) (usersDB st)
                     (if isNewUser userData then true else showOnboarding st)
                     (mkStorage (users_item (localStorage st)) (Some userData)
                                (user_items (localStorage st))))
        end
      else (Some "Invalid credentials. Please try again.", st)
  | signup =>
      if registered (usersDB st) normalizedEmail
      then (Some "An account with this email already exists.", st)
      else
        let newUser := mkUser name normalizedEmail "tiger"
                              (Some useAnimalData.NEARBY_KM) true in
        let newDB := <[normalizedEmail := pass]> (usersDB st) in
        (None,
         mkState (Some newUser) newDB true
                 (mkStorage (Some newDB) (Some newUser)
                            (<[normalizedEmail := newUser]> (user_items (localStorage st)))))
  end.

End Auth.

(** The accounts in memory are the stored ones, and every account with a
    password has its user data stored. *)
Definition consistent (st : State) : Prop :=
  users_item (localStorage st) = Some (usersDB st)
  /\ forall email, registered (usersDB st) email = true ->
                   is_Some (user_items (localStorage st) !! email).

End App.

(** ** More sample data *)

Module fixtures.

(** Stand-ins for the square root and the arc sine that agree with them
    at 0. *)
Definition Math_sqrt (x : Q) : Q := x.
Definition Math_asin (x : Q) : Q := x.

Definition ooty : LatLon := mkLatLon (114 # 10) (767 # 10).
Definition coonoor : LatLon := mkLatLon (113 # 10) (768 # 10).

(** A server that answers 500 twice and then 200 with a body; bodies are
    taken as they are. *)
Definition flaky (call : nat) : api.FetchOutcome :=
  if (call <? 2)%nat then api.Responded 500 "busy" else api.Responded 200 "{}".
Definition parse (text : string) : option string := Some text.

(** A police station as the map service reports it, and as it is kept. *)
Definition stationElement : apiService.Element :=
  apiService.mkElement 7 None (Some (1 # 100)) (Some (2 # 100))
    (Some ({[ "amenity" := "police" ]} : gmap string string)).
Definition station : geoService.SafePlace :=
  geoService.mkSafePlace 7 (1 # 100) (2 # 100) geoService.police "Police Station"
    None None None.


(** The component with no account yet, and addresses that are
    lower-case already. *)
Definition fresh : App.State :=
  App.mkState None ∅ false (App.mkStorage (Some ∅) None ∅).
Definition asTyped (address : string) : string := address.

(** A geocoder that knows one place. *)
Definition geocoder (lat lon : Q) : apiService.GeocodeOutcome :=
  apiService.Resolved "Mudumalai".

(** A routing service that cannot be reached. *)
Definition offline (start end_ : Location) (avoid : list (list Coord)) (m : TravelMode)
    : Outcome (option Route) :=
  Thrown DataNotFetched.

(** A fix on the trail, 400 s into the session, under a thunderstorm. *)
Definition stormFix : hook.Position :=
  hook.mkPosition 0 (1 # 100) 400000 (Some (mkWeather 20 95 10 1)).

End fixtures.

(** * Properties *)

(** ** Facts about numbers *)

Section NumFacts.

Lemma ltb_lt (a b : Q) : Num.ltb a b = true <-> a < b.
Proof.
  unfold Num.ltb. rewrite negb_true_iff, <- not_true_iff_false, Qle_bool_iff.
  split; [apply Qnot_le_lt | apply Qlt_not_le].
Qed.

Lemma ltb_ge (a b : Q) : Num.ltb a b = false <-> b <= a.
Proof.
  unfold Num.ltb. rewrite negb_false_iff. apply Qle_bool_iff.
Qed.

Lemma gtb_gt (a b : Q) : Num.gtb a b = true <-> b < a.
Proof. apply ltb_lt. Qed.

Lemma gtb_le (a b : Q) : Num.gtb a b = false <-> a <= b.
Proof. apply ltb_ge. Qed.

Lemma leb_le (a b : Q) : Num.leb a b = true <-> a <= b.
Proof. apply Qle_bool_iff. Qed.

(** [Math.round] is within one half of its argument. *)
Lemma Math_round_near (x : Q) :
  x - (1 # 2) < Num.Math_round x /\ Num.Math_round x <= x + (1 # 2).
Proof.
  unfold Num.Math_round.
  pose proof (Qfloor_le (x + (1 # 2))) as Hle.
  pose proof (Qlt_floor (x + (1 # 2))) as Hlt.
  rewrite inject_Z_plus in Hlt. change (inject_Z 1) with 1 in Hlt.
  split; lra.
Qed.

(** One decimal: within a twentieth of the argument. *)
Lemma toFixed1_near (x : Q) : Qabs (Num.toFixed1 x - x) <= 1 # 20.
Proof.
  unfold Num.toFixed1.
  destruct (Num.ltb x 0).
  - pose proof (Qfloor_le (- x * 10 + (1 # 2))) as Hle.
    pose proof (Qlt_floor (- x * 10 + (1 # 2))) as Hlt.
    rewrite inject_Z_plus in Hlt. change (inject_Z 1) with 1 in Hlt.
    set (n := inject_Z (Qfloor (- x * 10 + (1 # 2)))) in *.
    apply Qabs_Qle_condition. split.
    + assert (E : - (n / 10) - x == - (n + 10 * x) / 10) by (field).
      rewrite E. apply Qle_shift_div_l; lra.
    + assert (E : - (n / 10) - x == - (n + 10 * x) / 10) by (field).
      rewrite E. apply Qle_shift_div_r; lra.
  - pose proof (Qfloor_le (x * 10 + (1 # 2))) as Hle.
    pose proof (Qlt_floor (x * 10 + (1 # 2))) as Hlt.
    rewrite inject_Z_plus in Hlt. change (inject_Z 1) with 1 in Hlt.
    set (n := inject_Z (Qfloor (x * 10 + (1 # 2)))) in *.
    apply Qabs_Qle_condition. split.
    + assert (E : n / 10 - x == (n - 10 * x) / 10) by (field).
      rewrite E. apply Qle_shift_div_l; lra.
    + assert (E : n / 10 - x == (n - 10 * x) / 10) by (field).
      rewrite E. apply Qle_shift_div_r; lra.
Qed.

End NumFacts.

(** ** Rounding to a binary format *)

Section RoundingFacts.

Lemma pow2_pos (z : Z) : 0 < Num.pow2 z.
Proof. apply Qpower_0_lt. reflexivity. Qed.

Lemma pow2_add (a b : Z) : Num.pow2 (a + b) == Num.pow2 a * Num.pow2 b.
Proof. apply Qpower_plus. discriminate. Qed.

Lemma pow2_le (a b : Z) : (a <= b)%Z -> Num.pow2 a <= Num.pow2 b.
Proof. intros H. apply Qpower_le_compat_l; [exact H | discriminate]. Qed.

Lemma pow2_lt (a b : Z) : (a < b)%Z -> Num.pow2 a < Num.pow2 b.
Proof. intros H. apply Qpower_lt_compat_l; [exact H | reflexivity]. Qed.

Lemma pow2_lt_inv (a b : Z) : Num.pow2 a < Num.pow2 b -> (a < b)%Z.
Proof.
  intros H. destruct (Z.lt_ge_cases a b) as [Hlt | Hge]; [exact Hlt |].
  apply pow2_le in Hge. exfalso. apply (Qlt_not_le _ _ H Hge).
Qed.

Lemma pow2_inject (n : Z) : (0 <= n)%Z -> Num.pow2 n == inject_Z (2 ^ n).
Proof. intros H. unfold Num.pow2. rewrite Zpower_Qpower by exact H. reflexivity. Qed.

Lemma pow2_opp (n : Z) : Num.pow2 (- n) == / Num.pow2 n.
Proof. apply Qpower_opp. Qed.

(** [ilog2] is the binary logarithm, rounded down. *)
Lemma ilog2_spec (x : Q) :
  0 < x -> Num.pow2 (Num.ilog2 x) <= x /\ x < Num.pow2 (Num.ilog2 x + 1).
Proof.
  intros Hx. destruct x as [p q]. unfold Num.ilog2. cbn [Qnum Qden].
  assert (Hp : (0 < p)%Z).
  { unfold Qlt in Hx. cbn in Hx. lia. }
  set (a := Z.log2 p). set (b := Z.log2 (Z.pos q)).
  assert (Ha : (2 ^ a <= p < 2 ^ (a + 1))%Z).
  { pose proof (Z.log2_spec p Hp) as H. unfold a. rewrite <- Z.add_1_r in H. exact H. }
  assert (Hb : (2 ^ b <= Z.pos q < 2 ^ (b + 1))%Z).
  { pose proof (Z.log2_spec (Z.pos q) ltac:(lia)) as H. unfold b.
    rewrite <- Z.add_1_r in H. exact H. }
  assert (Ha0 : (0 <= a)%Z) by apply Z.log2_nonneg.
  assert (Hb0 : (0 <= b)%Z) by apply Z.log2_nonneg.
  assert (Hx' : p # q == inject_Z p / inject_Z (Z.pos q)) by apply Qmake_Qdiv.
  assert (Hq : 0 < inject_Z (Z.pos q)) by reflexivity.
  assert (Hupper : p # q < Num.pow2 (a - b + 1)).
  { replace (a - b + 1)%Z with ((a + 1) + - b)%Z by lia.
    rewrite pow2_add, pow2_opp, (pow2_inject (a + 1)), (pow2_inject b), Hx' by lia.
    assert (H2b : 0 < inject_Z (2 ^ b)).
    { change 0 with (inject_Z 0). rewrite <- Zlt_Qlt. apply Z.pow_pos_nonneg; lia. }
    apply Qlt_shift_div_r; [exact Hq |].
    unfold Qdiv. rewrite <- Qmult_assoc, (Qmult_comm (/ _)), Qmult_assoc.
    apply Qlt_shift_div_l; [exact H2b |].
    rewrite <- !inject_Z_mult, <- Zlt_Qlt. nia. }
  assert (Hlower : Num.pow2 (a - b - 1) < p # q).
  { replace (a - b - 1)%Z with (a + - (b + 1))%Z by lia.
    rewrite pow2_add, pow2_opp, (pow2_inject a), (pow2_inject (b + 1)), Hx' by lia.
    assert (H2b : 0 < inject_Z (2 ^ (b + 1))).
    { change 0 with (inject_Z 0). rewrite <- Zlt_Qlt. apply Z.pow_pos_nonneg; lia. }
    apply Qlt_shift_div_l; [exact Hq |].
    unfold Qdiv. rewrite <- Qmult_assoc, (Qmult_comm (/ _)), Qmult_assoc.
    apply Qlt_shift_div_r; [exact H2b |].
    rewrite <- !inject_Z_mult, <- Zlt_Qlt. nia. }
  destruct (Qle_bool (Num.pow2 (a - b)) (p # q)) eqn:Hcmp.
  - apply Qle_bool_iff in Hcmp. split; assumption.
  - assert (Hlt : p # q < Num.pow2 (a - b)).
    { apply Qnot_le_lt. intros H. apply Qle_bool_iff in H. congruence. }
    replace (a - b - 1 + 1)%Z with (a - b)%Z by lia.
    split; [apply Qlt_le_weak; exact Hlower | exact Hlt].
Qed.

Lemma ilog2_unique (x : Q) (k : Z) :
  Num.pow2 k <= x -> x < Num.pow2 (k + 1) -> Num.ilog2 x = k.
Proof.
  intros Hlow Hhigh.
  assert (Hx : 0 < x) by (eapply Qlt_le_trans; [apply (pow2_pos k) | exact Hlow]).
  destruct (ilog2_spec x Hx) as [Hl Hh].
  assert (Num.ilog2 x < k + 1)%Z.
  { apply pow2_lt_inv. eapply Qle_lt_trans; [exact Hl | exact Hhigh]. }
  assert (k < Num.ilog2 x + 1)%Z.
  { apply pow2_lt_inv. eapply Qle_lt_trans; [exact Hlow | exact Hh]. }
  lia.
Qed.

Lemma ilog2_mono (x y : Q) : 0 < x -> x <= y -> (Num.ilog2 x <= Num.ilog2 y)%Z.
Proof.
  intros Hx Hxy.
  assert (Hy : 0 < y) by (eapply Qlt_le_trans; eassumption).
  destruct (ilog2_spec x Hx) as [Hl _]. destruct (ilog2_spec y Hy) as [_ Hh].
  assert (Num.ilog2 x < Num.ilog2 y + 1)%Z; [| lia].
  apply pow2_lt_inv. eapply Qle_lt_trans; [exact Hl |].
  eapply Qle_lt_trans; [exact Hxy | exact Hh].
Qed.

Lemma ilog2_comp (x y : Q) : 0 < x -> x == y -> Num.ilog2 x = Num.ilog2 y.
Proof.
  intros Hx Hxy. destruct (ilog2_spec x Hx) as [Hl Hh].
  symmetry. apply ilog2_unique; rewrite <- Hxy; assumption.
Qed.

(** *** Rounding to the nearest integer *)

Lemma inject_Z_minus (a b : Z) : inject_Z (a - b) == inject_Z a - inject_Z b.
Proof. unfold Z.sub. rewrite inject_Z_plus, inject_Z_opp. reflexivity. Qed.

Lemma Qfloor_unique (x : Q) (z : Z) :
  inject_Z z <= x -> x < inject_Z (z + 1) -> Qfloor x = z.
Proof.
  intros Hl Hh.
  pose proof (Qfloor_le x) as Fl. pose proof (Qlt_floor x) as Fh.
  assert (Qfloor x < z + 1)%Z.
  { rewrite Zlt_Qlt. eapply Qle_lt_trans; eassumption. }
  assert (z < Qfloor x + 1)%Z.
  { rewrite Zlt_Qlt. eapply Qle_lt_trans; eassumption. }
  lia.
Qed.

Lemma nearestEven_cases (t : Q) :
  let f := Qfloor t in
  let r := t - inject_Z f in
  0 <= r /\ r < 1
  /\ ((r < 1 # 2 /\ Num.nearestEven t = f)
      \/ (1 # 2 < r /\ Num.nearestEven t = (f + 1)%Z)
      \/ (r == 1 # 2 /\ Z.even f = true /\ Num.nearestEven t = f)
      \/ (r == 1 # 2 /\ Z.even f = false /\ Num.nearestEven t = (f + 1)%Z)).
Proof.
  cbv zeta. pose proof (Qfloor_le t) as Fl. pose proof (Qlt_floor t) as Fh.
  rewrite inject_Z_plus in Fh. change (inject_Z 1) with 1 in Fh.
  split; [lra |]. split; [lra |].
  unfold Num.nearestEven.
  destruct (Num.ltb (t - inject_Z (Qfloor t)) (1 # 2)) eqn:H1.
  - apply ltb_lt in H1. left. split; [exact H1 | reflexivity].
  - apply ltb_ge in H1.
    destruct (Num.ltb (1 # 2) (t - inject_Z (Qfloor t))) eqn:H2.
    + apply ltb_lt in H2. right. left. split; [exact H2 | reflexivity].
    + apply ltb_ge in H2.
      assert (Hhalf : t - inject_Z (Qfloor t) == 1 # 2) by (apply Qle_antisym; assumption).
      destruct (Z.even (Qfloor t)) eqn:He.
      * right. right. left. split; [exact Hhalf |]. split; reflexivity.
      * right. right. right. split; [exact Hhalf |]. split; reflexivity.
Qed.

Lemma nearestEven_near (t : Q) :
  inject_Z (Num.nearestEven t) - (1 # 2) <= t /\ t <= inject_Z (Num.nearestEven t) + (1 # 2).
Proof.
  destruct (nearestEven_cases t) as (H0 & H1 & Hc). cbv zeta in *.
  destruct Hc as [[Hr ->] | [[Hr ->] | [(Hr & _ & ->) | (Hr & _ & ->)]]];
    rewrite ?inject_Z_plus; change (inject_Z 1) with 1; split; lra.
Qed.

Lemma nearestEven_comp (t u : Q) : t == u -> Num.nearestEven t = Num.nearestEven u.
Proof.
  intros H. unfold Num.nearestEven. rewrite (Qfloor_comp t u H).
  assert (Hr : t - inject_Z (Qfloor u) == u - inject_Z (Qfloor u)) by lra.
  assert (E1 : Num.ltb (t - inject_Z (Qfloor u)) (1 # 2)
               = Num.ltb (u - inject_Z (Qfloor u)) (1 # 2)).
  { unfold Num.ltb. f_equal. apply Qleb_comp; [reflexivity | exact Hr]. }
  assert (E2 : Num.ltb (1 # 2) (t - inject_Z (Qfloor u))
               = Num.ltb (1 # 2) (u - inject_Z (Qfloor u))).
  { unfold Num.ltb. f_equal. apply Qleb_comp; [exact Hr | reflexivity]. }
  rewrite E1, E2. reflexivity.
Qed.

Lemma nearestEven_int (n : Z) : Num.nearestEven (inject_Z n) = n.
Proof.
  destruct (nearestEven_cases (inject_Z n)) as (_ & _ & Hc). cbv zeta in Hc.
  rewrite Qfloor_Z in Hc.
  destruct Hc as [[_ H] | [[Hr _] | [(Hr & _) | (Hr & _)]]]; [exact H | | |]; exfalso; lra.
Qed.

Lemma nearestEven_mono (t u : Q) : t <= u -> (Num.nearestEven t <= Num.nearestEven u)%Z.
Proof.
  intros Htu. pose proof (Qfloor_resp_le t u Htu) as Hf.
  destruct (nearestEven_cases t) as (T0 & T1 & Tc).
  destruct (nearestEven_cases u) as (U0 & U1 & Uc). cbv zeta in *.
  destruct (Z.eq_dec (Qfloor t) (Qfloor u)) as [Heq | Hne].
  - rewrite Heq in *.
    destruct Tc as [[Tr ->] | [[Tr ->] | [(Tr & Te & ->) | (Tr & Te & ->)]]];
      destruct Uc as [[Ur ->] | [[Ur ->] | [(Ur & Ue & ->) | (Ur & Ue & ->)]]];
      try lia; try (exfalso; lra); congruence.
  - assert (Qfloor t + 1 <= Qfloor u)%Z by lia.
    destruct Tc as [[Tr ->] | [[Tr ->] | [(Tr & Te & ->) | (Tr & Te & ->)]]];
      destruct Uc as [[Ur ->] | [[Ur ->] | [(Ur & Ue & ->) | (Ur & Ue & ->)]]]; lia.
Qed.

Lemma nearestEven_opp (t : Q) : Num.nearestEven (- t) = (- Num.nearestEven t)%Z.
Proof.
  destruct (nearestEven_cases t) as (T0 & T1 & Tc). cbv zeta in *.
  set (f := Qfloor t) in *.
  destruct (Qeq_dec (t - inject_Z f) 0) as [Hint | Hfrac].
  - assert (Ht : t == inject_Z f) by lra.
    assert (Ht' : - t == inject_Z (- f)).
    { rewrite inject_Z_opp, Ht. reflexivity. }
    rewrite (nearestEven_comp (- t) (inject_Z (- f)) Ht').
    rewrite (nearestEven_comp t (inject_Z f)) by exact Ht.
    rewrite !nearestEven_int. reflexivity.
  - assert (Hfloor : Qfloor (- t) = (- f - 1)%Z).
    { apply Qfloor_unique.
      - rewrite inject_Z_minus, inject_Z_opp. change (inject_Z 1) with 1. lra.
      - replace (- f - 1 + 1)%Z with (- f)%Z by lia. rewrite inject_Z_opp.
        assert (0 < t - inject_Z f).
        { destruct (Qle_lt_or_eq _ _ T0) as [H | H]; [exact H |].
          exfalso. apply Hfrac. symmetry. exact H. }
        lra. }
    destruct (nearestEven_cases (- t)) as (N0 & N1 & Nc). cbv zeta in *.
    rewrite Hfloor in *.
    assert (Hr : - t - inject_Z (- f - 1) == 1 - (t - inject_Z f)).
    { rewrite inject_Z_minus, inject_Z_opp. change (inject_Z 1) with 1. ring. }
    assert (Hev : Z.even (- f - 1) = negb (Z.even f)).
    { replace (- f - 1)%Z with (- (f + 1))%Z by lia.
      rewrite Z.even_opp, Z.add_1_r, Z.even_succ, <- Z.negb_even. reflexivity. }
    rewrite Hev in Nc.
    destruct Tc as [[Tr ->] | [[Tr ->] | [(Tr & Te & ->) | (Tr & Te & ->)]]];
      destruct Nc as [[Nr ->] | [[Nr ->] | [(Nr & Ne & ->) | (Nr & Ne & ->)]]];
      try lia; try (exfalso; lra);
      rewrite Te in Ne; discriminate.
Qed.

Lemma nearestEven_nonneg (t : Q) : 0 <= t -> (0 <= Num.nearestEven t)%Z.
Proof.
  intros H. rewrite <- (nearestEven_int 0). apply nearestEven_mono. exact H.
Qed.

(** *** Rounding to a precision *)

Section Precision.

Variables prec emin : Z.
Hypothesis prec_pos : (1 <= prec)%Z.

Local Abbreviation roundTo := (Num.roundTo prec emin).
Local Abbreviation ulpExp := (Num.ulpExp prec emin).

Lemma roundTo_comp (x y : Q) : x == y -> roundTo x = roundTo y.
Proof. intros H. unfold Num.roundTo. rewrite (Qred_complete x y H). reflexivity. Qed.

Lemma roundTo_zero (x : Q) : x == 0 -> roundTo x = 0.
Proof. intros H. rewrite (roundTo_comp x 0 H). reflexivity. Qed.

Lemma ulpExp_comp (x y : Q) : ~ x == 0 -> x == y -> ulpExp x = ulpExp y.
Proof.
  intros Hx H. unfold Num.ulpExp. f_equal. f_equal. apply ilog2_comp.
  - destruct (Qlt_le_dec 0 (Qabs x)) as [Hpos | Hle]; [exact Hpos |].
    exfalso. apply Hx. pose proof (Qabs_nonneg x) as Hn.
    assert (Hz : Qabs x == 0) by (apply Qle_antisym; assumption).
    apply Qabs_Qle_condition in Hle. lra.
  - rewrite H. reflexivity.
Qed.

Lemma roundTo_value (x : Q) :
  ~ x == 0 ->
  roundTo x == inject_Z (Num.nearestEven (x / Num.pow2 (ulpExp x))) * Num.pow2 (ulpExp x).
Proof.
  intros Hx. unfold Num.roundTo. cbv zeta.
  pose proof (Qred_correct x) as Hred.
  destruct (Qeq_bool (Qred x) 0) eqn:Hz.
  - apply Qeq_bool_iff in Hz. exfalso. apply Hx. rewrite <- Hred. exact Hz.
  - rewrite Qred_correct.
    rewrite (ulpExp_comp (Qred x) x); [| rewrite Hred; exact Hx | exact Hred].
    rewrite (nearestEven_comp (Qred x / _) (x / Num.pow2 (ulpExp x))); [reflexivity |].
    rewrite Hred. reflexivity.
Qed.

Lemma ulpExp_opp (x : Q) : ulpExp (- x) = ulpExp x.
Proof.
  unfold Num.ulpExp. f_equal. f_equal.
  destruct x as [p q]. unfold Qabs, Qopp. cbn [Qnum Qden]. rewrite Z.abs_opp. reflexivity.
Qed.

Lemma roundTo_opp (x : Q) : roundTo (- x) == - roundTo x.
Proof.
  destruct (Qeq_dec x 0) as [Hz | Hnz].
  - rewrite (roundTo_zero x Hz), (roundTo_zero (- x)) by (rewrite Hz; reflexivity).
    reflexivity.
  - rewrite (roundTo_value x Hnz), (roundTo_value (- x)) by (intros H; apply Hnz; lra).
    rewrite ulpExp_opp.
    rewrite (nearestEven_comp (- x / _) (- (x / Num.pow2 (ulpExp x))))
      by (unfold Qdiv; ring).
    rewrite nearestEven_opp, inject_Z_opp. ring.
Qed.

Lemma roundTo_nonneg (x : Q) : 0 <= x -> 0 <= roundTo x.
Proof.
  intros Hx. destruct (Qeq_dec x 0) as [Hz | Hnz].
  - rewrite (roundTo_zero x Hz). apply Qle_refl.
  - rewrite (roundTo_value x Hnz).
    pose proof (pow2_pos (ulpExp x)) as Hp.
    apply Qmult_le_0_compat; [| apply Qlt_le_weak; exact Hp].
    change 0 with (inject_Z 0). rewrite <- Zle_Qle. apply nearestEven_nonneg.
    apply Qle_shift_div_l; [exact Hp | lra].
Qed.

Lemma ulpExp_mono (x y : Q) : 0 < x -> x <= y -> (ulpExp x <= ulpExp y)%Z.
Proof.
  intros Hx Hxy. unfold Num.ulpExp.
  assert (Hy : 0 < y) by (eapply Qlt_le_trans; eassumption).
  assert (Num.ilog2 (Qabs x) <= Num.ilog2 (Qabs y))%Z; [| lia].
  apply ilog2_mono.
  - rewrite Qabs_pos by (apply Qlt_le_weak; exact Hx). exact Hx.
  - rewrite !Qabs_pos by (apply Qlt_le_weak; assumption). exact Hxy.
Qed.

Lemma roundTo_mono_pos (x y : Q) : 0 < x -> x <= y -> roundTo x <= roundTo y.
Proof.
  intros Hx Hxy.
  assert (Hy : 0 < y) by (eapply Qlt_le_trans; eassumption).
  rewrite (roundTo_value x), (roundTo_value y) by (intros H; lra).
  pose proof (ulpExp_mono x y Hx Hxy) as He.
  pose proof (pow2_pos (ulpExp x)) as Hpx. pose proof (pow2_pos (ulpExp y)) as Hpy.
  destruct (Z.eq_dec (ulpExp x) (ulpExp y)) as [Heq | Hne].
  - rewrite Heq in *. apply Qmult_le_compat_r; [| apply Qlt_le_weak; exact Hpy].
    rewrite <- Zle_Qle. apply nearestEven_mono.
    unfold Qdiv. apply Qmult_le_compat_r; [exact Hxy |].
    apply Qlt_le_weak, Qinv_lt_0_compat. exact Hpy.
  - assert (Hlt : (ulpExp x + 1 <= ulpExp y)%Z) by lia.
    assert (Hxabs : Qabs x == x) by (apply Qabs_pos, Qlt_le_weak; exact Hx).
    assert (Hyabs : Qabs y == y) by (apply Qabs_pos, Qlt_le_weak; exact Hy).
    destruct (ilog2_spec (Qabs x)) as [_ Hxh]; [rewrite Hxabs; exact Hx |].
    destruct (ilog2_spec (Qabs y)) as [Hyl _]; [rewrite Hyabs; exact Hy |].
    assert (Hxh' : x < Num.pow2 (Num.ilog2 (Qabs x) + 1)) by lra.
    assert (Hyl' : Num.pow2 (Num.ilog2 (Qabs y)) <= y) by lra.
    assert (Hey : ulpExp y = (Num.ilog2 (Qabs y) - (prec - 1))%Z).
    { unfold Num.ulpExp in *. lia. }
    assert (Hex : (Num.ilog2 (Qabs x) + 1 <= ulpExp x + prec)%Z).
    { unfold Num.ulpExp. lia. }
    (* the rounded [x] is at most [2^(ex + prec)] *)
    apply Qle_trans with (Num.pow2 (prec + ulpExp x)).
    + rewrite pow2_add, (pow2_inject prec) by lia.
      apply Qmult_le_compat_r; [| apply Qlt_le_weak; exact Hpx].
      rewrite <- Zle_Qle. rewrite <- (nearestEven_int (2 ^ prec)).
      apply nearestEven_mono. rewrite <- (pow2_inject prec) by lia.
      apply Qle_shift_div_r; [exact Hpx |]. rewrite <- pow2_add.
      apply Qlt_le_weak. eapply Qlt_le_trans; [exact Hxh' |]. apply pow2_le. lia.
    + apply Qle_trans with (Num.pow2 (prec - 1 + ulpExp y)); [apply pow2_le; lia |].
      rewrite pow2_add, (pow2_inject (prec - 1)) by lia.
      apply Qmult_le_compat_r; [| apply Qlt_le_weak; exact Hpy].
      rewrite <- Zle_Qle. rewrite <- (nearestEven_int (2 ^ (prec - 1))) at 1.
      apply nearestEven_mono. rewrite <- (pow2_inject (prec - 1)) by lia.
      apply Qle_shift_div_l; [exact Hpy |]. rewrite <- pow2_add.
      eapply Qle_trans; [| exact Hyl']. apply pow2_le. lia.
Qed.

Lemma roundTo_mono (x y : Q) : x <= y -> roundTo x <= roundTo y.
Proof.
  intros Hxy.
  destruct (Qlt_le_dec 0 x) as [Hx | Hx].
  - apply roundTo_mono_pos; assumption.
  - destruct (Qlt_le_dec y 0) as [Hy | Hy].
    + (* both negative *)
      assert (H : roundTo (- y) <= roundTo (- x)) by (apply roundTo_mono_pos; lra).
      rewrite !roundTo_opp in H. lra.
    + apply Qle_trans with 0.
      * assert (H : 0 <= roundTo (- x)) by (apply roundTo_nonneg; lra).
        rewrite roundTo_opp in H. lra.
      * apply roundTo_nonneg. exact Hy.
Qed.

(** The error is at most half a unit in the last place. *)
Lemma roundTo_error (x : Q) :
  Qabs (roundTo x - x) <= Qabs x * Num.pow2 (- prec) + Num.pow2 (emin - 1).
Proof.
  pose proof (pow2_pos (- prec)) as Hu. pose proof (pow2_pos (emin - 1)) as Hh.
  pose proof (Qabs_nonneg x) as Hx0.
  destruct (Qeq_dec x 0) as [Hz | Hnz].
  - rewrite (roundTo_zero x Hz).
    setoid_replace (0 - x) with 0 using relation Qeq by lra. change (Qabs 0) with 0.
    apply Qlt_le_weak.
    assert (0 <= Qabs x * Num.pow2 (- prec)).
    { apply Qmult_le_0_compat; [exact Hx0 | apply Qlt_le_weak; exact Hu]. }
    lra.
  - rewrite (roundTo_value x Hnz).
    set (e := ulpExp x). pose proof (pow2_pos e) as Hp.
    destruct (nearestEven_near (x / Num.pow2 e)) as [Hlow Hhigh].
    set (n := inject_Z (Num.nearestEven (x / Num.pow2 e))) in *.
    assert (Hne : ~ Num.pow2 e == 0).
    { intros H. rewrite H in Hp. apply (Qlt_irrefl 0 Hp). }
    assert (Hhalf : Qabs (n * Num.pow2 e - x) <= Num.pow2 (e - 1)).
    { replace (e - 1)%Z with (e + -1)%Z by lia. rewrite pow2_add.
      change (Num.pow2 (-1)) with (1 # 2).
      assert (E : n * Num.pow2 e - x == (n - x / Num.pow2 e) * Num.pow2 e)
        by (field; exact Hne).
      rewrite E, Qabs_Qmult, (Qabs_pos (Num.pow2 e)) by (apply Qlt_le_weak; exact Hp).
      rewrite (Qmult_comm (Num.pow2 e) (1 # 2)).
      apply Qmult_le_compat_r; [| apply Qlt_le_weak; exact Hp].
      apply Qabs_Qle_condition. split; lra. }
    eapply Qle_trans; [exact Hhalf |].
    assert (Hpos : 0 < Qabs x).
    { destruct (Qlt_le_dec 0 (Qabs x)) as [H | H]; [exact H |].
      exfalso. apply Hnz. apply Qabs_Qle_condition in H. lra. }
    destruct (ilog2_spec (Qabs x) Hpos) as [Hl _].
    unfold e, Num.ulpExp.
    destruct (Z.max_spec emin (Num.ilog2 (Qabs x) - (prec - 1))) as [[_ ->] | [_ ->]].
    + (* the exponent follows the magnitude *)
      replace (Num.ilog2 (Qabs x) - (prec - 1) - 1)%Z
        with (Num.ilog2 (Qabs x) + - prec)%Z by lia.
      rewrite pow2_add.
      assert (Num.pow2 (Num.ilog2 (Qabs x)) * Num.pow2 (- prec)
              <= Qabs x * Num.pow2 (- prec)).
      { apply Qmult_le_compat_r; [exact Hl | apply Qlt_le_weak; exact Hu]. }
      lra.
    + assert (0 <= Qabs x * Num.pow2 (- prec)).
      { apply Qmult_le_0_compat; [exact Hx0 | apply Qlt_le_weak; exact Hu]. }
      lra.
Qed.

(** A rounded number is a number of the format: rounding it again
    changes nothing. *)
Lemma roundTo_canonical (x : Q) : Qred (roundTo x) = roundTo x.
Proof.
  unfold Num.roundTo. cbv zeta.
  destruct (Qeq_bool (Qred x) 0); [reflexivity | apply Qred_complete, Qred_correct].
Qed.

Lemma roundTo_eq (x y : Q) : roundTo x == roundTo y -> roundTo x = roundTo y.
Proof.
  intros H. rewrite <- (roundTo_canonical x), <- (roundTo_canonical y).
  apply Qred_complete, H.
Qed.

Lemma pow2_sub (a b : Z) : Num.pow2 (a - b) == Num.pow2 a / Num.pow2 b.
Proof.
  unfold Z.sub. rewrite pow2_add, pow2_opp. reflexivity.
Qed.

Lemma Qabs_nonneg_eq (x : Q) : 0 <= x -> Qabs x = x.
Proof.
  intros H. destruct x as [p q]. unfold Qabs. f_equal.
  apply Z.abs_eq. unfold Qle in H. cbn in H. lia.
Qed.

Lemma roundTo_idempotent_pos (x : Q) : 0 < x -> roundTo (roundTo x) == roundTo x.
Proof.
  intros Hx.
  assert (Hnz : ~ x == 0) by (intros H; rewrite H in Hx; apply (Qlt_irrefl 0 Hx)).
  pose proof (roundTo_value x Hnz) as Hy.
  set (e := ulpExp x) in *. set (n := Num.nearestEven (x / Num.pow2 e)) in *.
  pose proof (pow2_pos e) as He.
  assert (Hepos : ~ Num.pow2 e == 0) by (intros H; rewrite H in He; apply (Qlt_irrefl 0 He)).
  destruct (ilog2_spec x Hx) as [Hlow Hhigh].
  assert (Hek : (Num.ilog2 x - (prec - 1) <= e)%Z /\ (emin <= e)%Z).
  { unfold e, Num.ulpExp. rewrite (Qabs_nonneg_eq x) by lra. lia. }
  destruct Hek as [Hek Hemin].
  (* the significand is at most [2 ^ prec] *)
  assert (Hn0 : (0 <= n)%Z).
  { apply nearestEven_nonneg. apply Qle_shift_div_l; [exact He | lra]. }
  assert (Hn : (n <= 2 ^ prec)%Z).
  { rewrite <- (nearestEven_int (2 ^ prec)%Z). apply nearestEven_mono.
    rewrite <- pow2_inject by lia.
    apply Qle_shift_div_r; [exact He |].
    rewrite <- pow2_add. apply Qlt_le_weak.
    apply Qlt_le_trans with (1 := Hhigh). apply pow2_le. lia. }
  destruct (Z.eq_dec n 0%Z) as [Hzero | Hnonzero].
  { rewrite Hzero in Hy.
    assert (Hy0 : roundTo x == 0) by (rewrite Hy; ring).
    rewrite (roundTo_zero _ Hy0), Hy0. reflexivity. }
  assert (Hypos : 0 < roundTo x).
  { rewrite Hy. apply Qmult_lt_0_compat; [| exact He].
    change 0 with (inject_Z 0). rewrite <- Zlt_Qlt. lia. }
  assert (Hynz : ~ roundTo x == 0)
    by (intros H; rewrite H in Hypos; apply (Qlt_irrefl 0 Hypos)).
  rewrite (roundTo_value (roundTo x) Hynz).
  set (e' := ulpExp (roundTo x)).
  pose proof (pow2_pos e') as He'.
  assert (He'pos : ~ Num.pow2 e' == 0)
    by (intros H; rewrite H in He'; apply (Qlt_irrefl 0 He')).
  enough (Hint : exists m, roundTo x / Num.pow2 e' == inject_Z m).
  { destruct Hint as [m Hm].
    rewrite (nearestEven_comp _ _ Hm), nearestEven_int, <- Hm. field. exact He'pos. }
  destruct (Z.eq_dec n (2 ^ prec)%Z) as [Htop | Hbelow].
  - (* the value is [2 ^ (prec + e)] *)
    assert (Hval : roundTo x == Num.pow2 (prec + e)).
    { rewrite Hy, Htop, <- pow2_inject by lia. rewrite pow2_add. reflexivity. }
    assert (Hlog : Num.ilog2 (roundTo x) = (prec + e)%Z).
    { apply ilog2_unique; rewrite Hval; [apply Qle_refl | apply pow2_lt; lia]. }
    assert (E' : e' = (e + 1)%Z).
    { unfold e', Num.ulpExp. rewrite (Qabs_nonneg_eq (roundTo x)) by lra. rewrite Hlog. lia. }
    exists (2 ^ (prec - 1))%Z.
    rewrite <- pow2_inject by lia. rewrite Hval, E', <- pow2_sub.
    replace (prec + e - (e + 1))%Z with (prec - 1)%Z by lia. reflexivity.
  - (* the value is below [2 ^ (prec + e)] *)
    assert (Hlt : roundTo x < Num.pow2 (prec + e)).
    { rewrite Hy, pow2_add. apply Qmult_lt_compat_r; [exact He |].
      rewrite pow2_inject by lia. rewrite <- Zlt_Qlt. lia. }
    destruct (ilog2_spec (roundTo x) Hypos) as [Hl' _].
    assert (Hlog : (Num.ilog2 (roundTo x) < prec + e)%Z).
    { apply pow2_lt_inv. apply Qle_lt_trans with (1 := Hl'). exact Hlt. }
    assert (E' : (e' <= e)%Z).
    { unfold e', Num.ulpExp. rewrite (Qabs_nonneg_eq (roundTo x)) by lra. lia. }
    exists (n * 2 ^ (e - e'))%Z.
    rewrite inject_Z_mult, <- pow2_inject by lia.
    rewrite Hy, pow2_sub. field; repeat split; assumption.
Qed.

Lemma roundTo_idempotent (x : Q) : roundTo (roundTo x) = roundTo x.
Proof.
  apply roundTo_eq.
  destruct (Qlt_le_dec 0 x) as [Hpos | Hle]; [now apply roundTo_idempotent_pos |].
  destruct (Qeq_dec x 0) as [Hz | Hnz].
  - rewrite (roundTo_zero x Hz). reflexivity.
  - assert (Hneg : 0 < - x).
    { destruct (Qle_lt_or_eq _ _ Hle) as [H | H]; [lra | contradiction]. }
    pose proof (roundTo_idempotent_pos (- x) Hneg) as H.
    pose proof (roundTo_opp x) as Hopp.
    rewrite (roundTo_comp (roundTo (- x)) (- roundTo x) Hopp) in H.
    rewrite roundTo_opp in H. lra.
Qed.

End Precision.

End RoundingFacts.

(** ** Doubles *)

Section DoubleFacts.

Lemma Math_round_comp (x y : Q) : x == y -> Num.Math_round x = Num.Math_round y.
Proof. intros H. unfold Num.Math_round. now rewrite H. Qed.

Lemma Math_round_mono (x y : Q) : x <= y -> Num.Math_round x <= Num.Math_round y.
Proof.
  intros H. unfold Num.Math_round. rewrite <- Zle_Qle.
  apply Qfloor_resp_le. lra.
Qed.

Lemma ltb_comp (x y z : Q) : x == y -> Num.ltb x z = Num.ltb y z.
Proof.
  intros H. destruct (Num.ltb y z) eqn:Hy.
  - apply ltb_lt. apply ltb_lt in Hy. lra.
  - apply ltb_ge. apply ltb_ge in Hy. lra.
Qed.

Lemma toFixed1_comp (x y : Q) : x == y -> Num.toFixed1 x = Num.toFixed1 y.
Proof.
  intros H. unfold Num.toFixed1. rewrite (ltb_comp x y 0 H).
  destruct (Num.ltb y 0); now rewrite H.
Qed.

Lemma floor_half_nonneg (x : Q) : 0 <= x -> 0 <= inject_Z (Qfloor (x + (1 # 2))).
Proof.
  intros H. change 0 with (inject_Z 0). rewrite <- Zle_Qle.
  change 0%Z with (Qfloor 0). apply Qfloor_resp_le. lra.
Qed.

Lemma tenth_mono (a b : Q) : a <= b -> a / 10 <= b / 10.
Proof.
  intros H. unfold Qdiv. apply Qmult_le_compat_r; [exact H | discriminate].
Qed.

Lemma tenth_nonneg (a : Q) : 0 <= a -> 0 <= a / 10.
Proof.
  intros H. apply (tenth_mono 0 a) in H.
  assert (E : 0 / 10 == 0) by reflexivity. now rewrite E in H.
Qed.

Lemma toFixed1_mono (x y : Q) : x <= y -> Num.toFixed1 x <= Num.toFixed1 y.
Proof.
  intros H. unfold Num.toFixed1.
  destruct (Num.ltb x 0) eqn:Hx; destruct (Num.ltb y 0) eqn:Hy.
  - apply Qopp_le_compat, tenth_mono.
    rewrite <- Zle_Qle. apply Qfloor_resp_le. lra.
  - apply ltb_lt in Hx. apply ltb_ge in Hy.
    pose proof (tenth_nonneg _ (floor_half_nonneg (- x * 10) ltac:(lra))) as H1.
    pose proof (tenth_nonneg _ (floor_half_nonneg (y * 10) ltac:(lra))) as H2.
    lra.
  - apply ltb_ge in Hx. apply ltb_lt in Hy. lra.
  - apply tenth_mono. rewrite <- Zle_Qle. apply Qfloor_resp_le. lra.
Qed.

Lemma clamp_mono (x y : Q) :
  x <= y ->
  Num.Math_max 0 (Num.Math_min 100 x) <= Num.Math_max 0 (Num.Math_min 100 y).
Proof.
  intros H. unfold Num.Math_max, Num.Math_min.
  destruct (Num.ltb x 100) eqn:Hx; destruct (Num.ltb y 100) eqn:Hy;
    repeat match goal with
           | H : Num.ltb _ _ = true |- _ => apply ltb_lt in H
           | H : Num.ltb _ _ = false |- _ => apply ltb_ge in H
           end.
  - destruct (Num.ltb 0 x) eqn:H0x; destruct (Num.ltb 0 y) eqn:H0y;
      repeat match goal with
             | H : Num.ltb _ _ = true |- _ => apply ltb_lt in H
             | H : Num.ltb _ _ = false |- _ => apply ltb_ge in H
             end; lra.
  - change (Num.ltb 0 100) with true. cbv iota.
    destruct (Num.ltb 0 x) eqn:H0x;
      repeat match goal with
             | H : Num.ltb _ _ = true |- _ => apply ltb_lt in H
             | H : Num.ltb _ _ = false |- _ => apply ltb_ge in H
             end; lra.
  - lra.
  - change (Num.ltb 0 100) with true. cbv iota. lra.
Qed.

Lemma ofNat_mono (i j : nat) : (i <= j)%nat -> Num.ofNat i <= Num.ofNat j.
Proof. intros H. unfold Num.ofNat. rewrite <- Zle_Qle. lia. Qed.

Lemma ofNat_pred (n : nat) : (1 <= n)%nat -> Num.ofNat n - 1 == Num.ofNat (n - 1).
Proof.
  intros H. unfold Num.ofNat.
  replace (Z.of_nat n) with (Z.of_nat (n - 1) + 1)%Z by lia.
  rewrite inject_Z_plus. change (inject_Z 1) with 1. ring.
Qed.

Lemma fl_comp (x y : Q) : x == y -> Num.fl x = Num.fl y.
Proof. apply roundTo_comp. Qed.

Lemma fl_mono (x y : Q) : x <= y -> Num.fl x <= Num.fl y.
Proof. apply roundTo_mono. lia. Qed.

Lemma fl_idem (x : Q) : Num.fl (Num.fl x) = Num.fl x.
Proof. apply roundTo_idempotent. lia. Qed.

Lemma fl_0 : Num.fl 0 = 0.
Proof. reflexivity. Qed.

Lemma fl_1 : Num.fl 1 = 1.
Proof. vm_compute. reflexivity. Qed.

Lemma fl_100 : Num.fl 100 = 100.
Proof. vm_compute. reflexivity. Qed.

Lemma fl_unit (x : Q) : 0 <= x <= 1 -> 0 <= Num.fl x <= 1.
Proof.
  intros [H0 H1]. split.
  - rewrite <- fl_0. now apply fl_mono.
  - rewrite <- fl_1. now apply fl_mono.
Qed.

(** The unit roundoff of doubles, and a bound on half their smallest
    positive number. *)
Local Abbreviation u := (1 # 9007199254740992).
Local Abbreviation tiny := (1 # 1267650600228229401496703205376).

Lemma fl_error (x : Q) : Qabs (Num.fl x - x) <= Qabs x * u + tiny.
Proof.
  pose proof (roundTo_error 53 (-1074) x) as H.
  apply Qle_trans with (1 := H).
  assert (Hu : Num.pow2 (- (53)) == u) by reflexivity.
  assert (Ht : Num.pow2 (-1074 - 1) <= tiny).
  { apply Qle_trans with (Num.pow2 (-100)); [apply pow2_le; lia |].
    vm_compute. discriminate. }
  rewrite Hu. lra.
Qed.

(** A rounded value [fl x] against the exact value [y] that [x]
    approximates. *)
Lemma fl_close (x y E B : Q) :
  Qabs (x - y) <= E -> Qabs y <= B -> Qabs (Num.fl x - y) <= E + (B + E) * u + tiny.
Proof.
  intros Hxy Hy. pose proof (fl_error x) as Hx.
  assert (Hsize : Qabs x <= B + E).
  { apply Qabs_Qle_condition in Hxy, Hy. apply Qabs_Qle_condition. lra. }
  apply Qabs_Qle_condition in Hxy, Hx. apply Qabs_Qle_condition. lra.
Qed.

Lemma Qabs_mult_close (d x y E : Q) :
  Qabs (x - y) <= E -> Qabs (d * x - d * y) <= Qabs d * E.
Proof.
  intros H.
  setoid_replace (d * x - d * y) with (d * (x - y)) using relation Qeq by ring.
  rewrite Qabs_Qmult. rewrite !(Qmult_comm (Qabs d)).
  apply Qmult_le_compat_r; [exact H | apply Qabs_nonneg].
Qed.

Lemma Qabs_mult_unit (d w : Q) : 0 <= w <= 1 -> Qabs (d * w) <= Qabs d.
Proof.
  intros [H0 H1]. rewrite Qabs_Qmult, (Qabs_pos w) by exact H0.
  setoid_replace (Qabs d) with (Qabs d * 1) using relation Qeq at 2 by ring.
  rewrite !(Qmult_comm (Qabs d)).
  apply Qmult_le_compat_r; [exact H1 | apply Qabs_nonneg].
Qed.


(** Clamping to [0, 100] brings a number no farther from one in that
    range. *)
Lemma clamp_closer (x y E : Q) :
  0 <= y <= 100 -> Qabs (x - y) <= E ->
  Qabs (Num.Math_max 0 (Num.Math_min 100 x) - y) <= E.
Proof.
  intros [Hy0 Hy1] H. apply Qabs_Qle_condition in H. apply Qabs_Qle_condition.
  unfold Num.Math_max, Num.Math_min.
  destruct (Num.ltb x 100) eqn:H100.
  - apply ltb_lt in H100. destruct (Num.ltb 0 x) eqn:H0.
    + lra.
    + apply ltb_ge in H0. lra.
  - apply ltb_ge in H100. change (Num.ltb 0 100) with true. cbv iota. lra.
Qed.

End DoubleFacts.

(** ** Spline smoothing *)

Section SplineFacts.

Variable substeps : nat.
Variable tension : Q.

(** At [t = 0] the blend is the second control point. *)
Lemma getSplinePoint_at_0 (t : Q) (p0 p1 p2 p3 : Coord) :
  t == 0 -> coord_eq (geo.getSplinePoint t p0 p1 p2 p3 tension) p1.
Proof.
  intros Ht. unfold coord_eq, geo.getSplinePoint. cbn [fst snd].
  split; rewrite Ht; ring.
Qed.

(** At [t = 1] it is the third. *)
Lemma getSplinePoint_at_1 (t : Q) (p0 p1 p2 p3 : Coord) :
  t == 1 -> coord_eq (geo.getSplinePoint t p0 p1 p2 p3 tension) p2.
Proof.
  intros Ht. unfold coord_eq, geo.getSplinePoint. cbn [fst snd].
  split; rewrite Ht; ring.
Qed.

Lemma zero_over (n : nat) : inject_Z (Z.of_nat 0) / inject_Z (Z.of_nat n) == 0.
Proof. change (inject_Z (Z.of_nat 0)) with 0. unfold Qdiv. ring. Qed.

Lemma controlPoints_at (waypoints : list Coord) (k : nat) :
  (k < length waypoints)%nat ->
  geo.at_ (geo.controlPoints waypoints) (S k) = geo.at_ waypoints k.
Proof.
  intros Hk. unfold geo.controlPoints, geo.at_. cbn [app nth].
  now rewrite app_nth1.
Qed.

(** Segment [i] starts at control point [i]. *)
Lemma splineSegment_head (points : list Coord) (i : nat) :
  exists first rest,
    geo.splineSegment points substeps tension i = first :: rest
    /\ coord_eq first (geo.at_ points i).
Proof.
  unfold geo.splineSegment. cbn [seq map].
  eexists _, _. split; [reflexivity |].
  apply getSplinePoint_at_0, zero_over.
Qed.

(** The last element of a non-empty array is the one at [length - 1]. *)
Lemma at_last (l : list Coord) :
  (0 < length l)%nat -> last l = Some (geo.at_ l (length l - 1)).
Proof.
  intros Hlen. unfold geo.at_.
  rewrite last_lookup, nth_lookup.
  replace (Init.Nat.pred (length l)) with (length l - 1)%nat by lia.
  destruct (lookup_lt_is_Some_2 l (length l - 1)) as [x Hx]; [lia |].
  now rewrite Hx.
Qed.

Lemma createSplinePath_long (waypoints : list Coord) :
  (2 <= length waypoints)%nat ->
  exists first rest,
    geo.createSplinePath waypoints substeps tension
    = (first :: rest) ++ [geo.at_ waypoints (length waypoints - 1)]
    /\ coord_eq first (geo.at_ waypoints 0)
    /\ first :: rest
       = flat_map (geo.splineSegment (geo.controlPoints waypoints) substeps tension)
                  (seq 1 (length waypoints - 1)).
Proof.
  intros Hlen. unfold geo.createSplinePath.
  destruct (Nat.ltb_spec (length waypoints) 2) as [Hlt | _]; [lia |].
  fold (geo.controlPoints waypoints).
  assert (Hn : (length (geo.controlPoints waypoints) - 2 - 1 = length waypoints - 1)%nat).
  { unfold geo.controlPoints. rewrite length_app. cbn [length]. lia. }
  rewrite Hn.
  destruct (length waypoints - 1)%nat as [| m] eqn:Hm; [lia |].
  cbn [seq flat_map].
  destruct (splineSegment_head (geo.controlPoints waypoints) 1) as (first & rest & Hseg & Hfirst).
  rewrite Hseg. cbn [app length Nat.ltb Nat.leb].
  exists first, (rest ++ flat_map (geo.splineSegment (geo.controlPoints waypoints) substeps tension) (seq 2 m)).
  split; [reflexivity |]. split; [| reflexivity].
  rewrite (controlPoints_at waypoints 0) in Hfirst by lia. exact Hfirst.
Qed.

(** C8. Fewer than two waypoints are returned as they are.  Otherwise the
    smoothed path starts at the first waypoint, ends with the last
    waypoint itself, and every waypoint is one of its points. *)
Theorem createSplinePath_through_waypoints (waypoints : list Coord) :
  (0 < substeps)%nat ->
  ((length waypoints < 2)%nat ->
     geo.createSplinePath waypoints substeps tension = waypoints)
  /\ ((2 <= length waypoints)%nat ->
      (exists first, head (geo.createSplinePath waypoints substeps tension) = Some first
                     /\ coord_eq first (geo.at_ waypoints 0))
      /\ last (geo.createSplinePath waypoints substeps tension) = last waypoints
      /\ (forall w, In w waypoints ->
            exists p, In p (geo.createSplinePath waypoints substeps tension)
                      /\ coord_eq p w)).
Proof.
  intros _. split.
  - intros Hlt. unfold geo.createSplinePath.
    destruct (Nat.ltb_spec (length waypoints) 2); [reflexivity | lia].
  - intros Hlen.
    destruct (createSplinePath_long waypoints Hlen) as (first & rest & Hpath & Hfirst & Hsegs).
    rewrite Hpath. split; [| split].
    + exists first. split; [reflexivity | exact Hfirst].
    + rewrite last_snoc. symmetry. apply at_last. lia.
    + intros w Hw.
      destruct (In_nth waypoints w (0, 0) Hw) as (k & Hk & Hnth).
      destruct (Nat.eq_dec k (length waypoints - 1)%nat) as [-> | Hne].
      * exists w. split; [| split; reflexivity].
        apply in_or_app. right. left. exact Hnth.
      * destruct (splineSegment_head (geo.controlPoints waypoints) (S k))
          as (p & others & Hseg & Hp).
        exists p. split.
        -- apply in_or_app. left. rewrite Hsegs.
           apply in_flat_map. exists (S k). split.
           ++ apply in_seq. lia.
           ++ rewrite Hseg. left. reflexivity.
        -- rewrite controlPoints_at in Hp by exact Hk.
           unfold geo.at_ in Hp. rewrite Hnth in Hp. exact Hp.
Qed.

End SplineFacts.

(** ** The retrying fetch helper *)

Section FetchFacts.

Variable Json : Type.
Variable JSON_parse : string -> option Json.

(** Never more calls than [retries]. *)
Lemma fetchLoop_calls (network : nat -> api.FetchOutcome) (remaining i : nat)
    (delay : Z) (lastError : option Error) (sleeps : list Z) :
  (api.fetchCalls (api.fetchLoop Json JSON_parse network remaining i delay lastError sleeps)
   <= i + remaining)%nat.
Proof.
  revert i delay lastError sleeps.
  induction remaining as [| n IH]; intros i delay lastError sleeps; cbn [api.fetchLoop].
  - cbn. lia.
  - destruct (api.tryBlock Json JSON_parse (network i)); cbn [api.fetchCalls].
    + lia.
    + etransitivity; [apply IH | lia].
    + etransitivity; [apply IH | lia].
Qed.

Lemma fetchJson_at_most_retries (network : nat -> api.FetchOutcome) (retries : nat)
    (initialDelay : Z) :
  (api.fetchCalls (api.fetchJson Json JSON_parse network retries initialDelay) <= retries)%nat.
Proof. unfold api.fetchJson. apply (fetchLoop_calls network retries 0). Qed.

(** Two server errors, then a good answer: the parsed body, after sleeping
    one and then two seconds. *)
Lemma fetchJson_500_500_200 (network : nat -> api.FetchOutcome) (text : string)
    (body : Json) :
  network 0%nat = api.Responded 500 EmptyString ->
  network 1%nat = api.Responded 500 EmptyString ->
  network 2%nat = api.Responded 200 text ->
  text <> EmptyString ->
  JSON_parse text = Some body ->
  api.fetchJson Json JSON_parse network 3 1000
  = api.mkFetchRun (Returned (Some body)) 3 [1000; 2000]%Z.
Proof.
  intros H0 H1 H2 Hne Hparse.
  unfold api.fetchJson. cbn [api.fetchLoop].
  rewrite H0. cbn [api.tryBlock api.ok Z.leb Z.ltb Z.compare andb Pos.compare Pos.compare_cont].
  rewrite H1. cbn [api.tryBlock api.ok Z.leb Z.ltb Z.compare andb Pos.compare Pos.compare_cont].
  rewrite H2. cbn [api.tryBlock api.ok Z.leb Z.ltb Z.compare andb Pos.compare Pos.compare_cont].
  apply String.eqb_neq in Hne. rewrite Hne, Hparse. reflexivity.
Qed.

(** C1. A server that answers 404 is asked three times: the error thrown
    for the client-class status is caught by the loop's own handler, which
    sleeps and goes on.  The caller gets the generic error after 1 + 2 + 4
    seconds of waiting. *)
Theorem fetchJson_retries_404 (text : string) :
  api.fetchJson Json JSON_parse (fun _ => api.Responded 404 text) 3 1000
  = api.mkFetchRun (Thrown DataNotFetched) 3 [1000; 2000; 4000]%Z.
Proof. reflexivity. Qed.

(** The same happens to a body that does not parse. *)
Lemma fetchJson_retries_invalid_json (text : string) :
  text <> EmptyString ->
  JSON_parse text = None ->
  api.fetchJson Json JSON_parse (fun _ => api.Responded 200 text) 3 1000
  = api.mkFetchRun (Thrown DataNotFetched) 3 [1000; 2000; 4000]%Z.
Proof.
  intros Hne Hparse. apply String.eqb_neq in Hne.
  unfold api.fetchJson. cbn [api.fetchLoop api.tryBlock api.ok Z.leb Z.compare andb Pos.compare Pos.compare_cont].
  rewrite Hne, Hparse. reflexivity.
Qed.

End FetchFacts.

(** ** Route vetting *)

Section RoutingFacts.

Variable calculateDistance : LatLon -> LatLon -> Q.

Local Abbreviation reasonable := (api.isRouteReasonable calculateDistance).




(** A speed of zero is below every band. *)
Lemma minSpeed_pos (m : TravelMode) : 0 < api.minSpeed m.
Proof. destruct m; reflexivity. Qed.



End RoutingFacts.




(** ** Route arbitration *)

Section ArbitrationFacts.

Variable getSafeNavigationRoute :
  Location -> Location -> list api.Polygon -> TravelMode -> Outcome (option Route).
Variable createCirclePolygon : Coord -> Q -> api.Polygon.




End ArbitrationFacts.


(** ** The path predictor *)

Section PredictFacts.

Variables Math_cos Math_sin : Q -> Q.
Variable Math_PI : Q.
Variable tf : api.TensorLibrary.

Local Abbreviation predictSet := (api.predictSet Math_cos Math_sin Math_PI tf).
Local Abbreviation predictSets := (api.predictSets Math_cos Math_sin Math_PI tf).
Local Abbreviation predictAnimalPaths := (api.predictAnimalPaths Math_cos Math_sin Math_PI tf).

Lemma predictSets_In (sets : list api.SightingSet) (randoms : nat -> Q) (k0 : nat)
    (set : api.SightingSet) :
  In set sets -> exists k, In (predictSet set (randoms k)) (predictSets sets randoms k0).
Proof.
  revert k0. induction sets as [| s sets IH]; intros k0 Hin; [destruct Hin |].
  destruct Hin as [-> | Hin].
  - exists k0. left. reflexivity.
  - destruct (IH (if (length (api.sightings s) =? 1)%nat then S k0 else k0) Hin) as [k Hk].
    exists k. right. exact Hk.
Qed.

Lemma predictSets_origin (sets : list api.SightingSet) (randoms : nat -> Q) (k0 : nat)
    (g : api.PredictionGroup) :
  In g (predictSets sets randoms k0) ->
  exists set k, In set sets /\ g = predictSet set (randoms k).
Proof.
  revert k0. induction sets as [| s sets IH]; intros k0 Hin; [destruct Hin |].
  destruct Hin as [<- | Hin].
  - exists s, k0. split; [left |]; reflexivity.
  - destruct (IH _ Hin) as (set & k & Hset & Hg).
    exists set, k. split; [right |]; assumption.
Qed.

(** A set with sightings gives two predictions. *)
Lemma predictSet_two (set : api.SightingSet) (random : Q) :
  (1 <= length (api.sightings set))%nat ->
  length (api.predictions (predictSet set random)) = 2%nat.
Proof.
  intros Hlen. unfold api.predictSet.
  destruct (api.sightings set) as [| x l]; [cbn in Hlen; lia |].
  now destruct (length (x :: l) <? 2)%nat.
Qed.

Lemma predictSet_none (set : api.SightingSet) (random : Q) :
  api.sightings set = [] -> api.predictions (predictSet set random) = [].
Proof. intros H. unfold api.predictSet. now rewrite H. Qed.

(** *** The tensors, column by column *)

(** A number read as a double and stored as a single. *)
Local Abbreviation single := (fun x : Q => Num.fround (Num.fl x)).

Local Abbreviation subRow :=
  (fun a b : Coord => (api.t_sub tf (fst a) (fst b), api.t_sub tf (snd a) (snd b))).

Lemma deltasOf_cons (x y : Coord) (r : list Coord) :
  api.deltasOf tf (x :: y :: r) = subRow y x :: api.deltasOf tf (y :: r).
Proof. unfold api.deltasOf. cbn. now rewrite Nat.sub_0_r. Qed.

Lemma deltasOf_snoc (c : list Coord) (y x : Coord) :
  api.deltasOf tf (c ++ [y; x]) = api.deltasOf tf (c ++ [y]) ++ [subRow x y].
Proof.
  induction c as [| a c IH]; [reflexivity |].
  destruct c as [| b c]; [reflexivity |].
  cbn [app] in *. rewrite !deltasOf_cons, IH. reflexivity.
Qed.

(** Oldest first, the differences are those of each row and the next,
    in reverse. *)
Lemma deltasOf_rev (l : list Coord) :
  api.deltasOf tf (rev l) = rev (zip_with subRow l (drop 1 l)).
Proof.
  destruct l as [| x l]; [reflexivity |].
  revert x. induction l as [| y r IH]; intros x; [reflexivity |].
  specialize (IH y). cbn [drop zip_with rev] in *.
  rewrite <- app_assoc. cbn [app]. rewrite deltasOf_snoc. f_equal. exact IH.
Qed.

Lemma map_fst_zip_with (f g : Q -> Q -> Q) (l1 l2 : list Coord) :
  map fst (zip_with (fun a b : Coord => (f (fst a) (fst b), g (snd a) (snd b))) l1 l2)
  = zip_with f (map fst l1) (map fst l2).
Proof.
  revert l2. induction l1 as [| a l1 IH]; intros [| b l2]; cbn; try reflexivity.
  now rewrite IH.
Qed.

Lemma map_snd_zip_with (f g : Q -> Q -> Q) (l1 l2 : list Coord) :
  map snd (zip_with (fun a b : Coord => (f (fst a) (fst b), g (snd a) (snd b))) l1 l2)
  = zip_with g (map snd l1) (map snd l2).
Proof.
  revert l2. induction l1 as [| a l1 IH]; intros [| b l2]; cbn; try reflexivity.
  now rewrite IH.
Qed.

Lemma map_drop1 {A B : Type} (f : A -> B) (l : list A) :
  map f (drop 1 l) = drop 1 (map f l).
Proof. destruct l; reflexivity. Qed.

(** The average the tensors compute, one column at a time. *)
Lemma avgDeltaOf_columns (sightings : list Sighting) :
  api.avgDeltaOf tf sightings
  = (api.t_mean tf (rev (zip_with (api.t_sub tf)
                           (map single (map s_lat sightings))
                           (drop 1 (map single (map s_lat sightings))))),
     api.t_mean tf (rev (zip_with (api.t_sub tf)
                           (map single (map s_lon sightings))
                           (drop 1 (map single (map s_lon sightings)))))).
Proof.
  unfold api.avgDeltaOf, api.tensor2d, api.meanRows.
  rewrite <- map_rev, rev_involutive || rewrite map_rev.
  rewrite deltasOf_rev, !map_rev.
  rewrite map_fst_zip_with, map_snd_zip_with, !map_drop1, !map_map.
  reflexivity.
Qed.

Lemma meanDisplacement_columns (sightings : list Sighting) :
  api.meanDisplacement sightings
  = (api.mean (zip_with Qminus (map s_lat sightings) (drop 1 (map s_lat sightings))),
     api.mean (zip_with Qminus (map s_lon sightings) (drop 1 (map s_lon sightings)))).
Proof.
  unfold api.meanDisplacement, api.displacements.
  rewrite (map_fst_zip_with Qminus Qminus), (map_snd_zip_with Qminus Qminus).
  rewrite !map_drop1, !map_map. reflexivity.
Qed.

(** *** Sums and means *)

Lemma sumQ_app (l1 l2 : list Q) : api.sumQ (l1 ++ l2) == api.sumQ l1 + api.sumQ l2.
Proof.
  unfold api.sumQ. induction l1 as [| a l1 IH]; cbn [app fold_right].
  - ring.
  - rewrite IH. ring.
Qed.

Lemma sumQ_rev (l : list Q) : api.sumQ (rev l) == api.sumQ l.
Proof.
  induction l as [| a l IH]; [reflexivity |].
  cbn [rev]. rewrite sumQ_app, IH. unfold api.sumQ. cbn [fold_right]. ring.
Qed.

Lemma mean_rev (l : list Q) : api.mean (rev l) == api.mean l.
Proof. unfold api.mean. rewrite sumQ_rev, length_rev. reflexivity. Qed.

Lemma length_pos_Q (l : list Q) : l <> [] -> 0 < inject_Z (Z.of_nat (length l)).
Proof.
  intros H. destruct l as [| a l]; [contradiction |].
  change 0 with (inject_Z 0). rewrite <- Zlt_Qlt. cbn [length]. lia.
Qed.

Lemma inject_Z_S (n : nat) : inject_Z (Z.of_nat (S n)) == inject_Z (Z.of_nat n) + 1.
Proof. rewrite Nat2Z.inj_succ. unfold Z.succ. rewrite inject_Z_plus. reflexivity. Qed.

Lemma sumQ_close (E : Q) (l l' : list Q) :
  Forall2 (fun a b => Qabs (a - b) <= E) l l' ->
  Qabs (api.sumQ l - api.sumQ l') <= inject_Z (Z.of_nat (length l)) * E.
Proof.
  induction 1 as [| a b l l' Hab _ IH].
  - cbn. setoid_replace (0 - 0) with 0 using relation Qeq by ring.
    setoid_replace (0 * E) with 0 using relation Qeq by ring. discriminate.
  - cbn [length]. rewrite inject_Z_S. unfold api.sumQ in *. cbn [fold_right].
    apply Qabs_Qle_condition in Hab, IH. apply Qabs_Qle_condition. lra.
Qed.

Lemma sumQ_bound (B : Q) (l : list Q) :
  Forall (fun a => Qabs a <= B) l ->
  Qabs (api.sumQ l) <= inject_Z (Z.of_nat (length l)) * B.
Proof.
  induction 1 as [| a l Ha _ IH].
  - cbn. setoid_replace (0 * B) with 0 using relation Qeq by ring. discriminate.
  - cbn [length]. rewrite inject_Z_S. unfold api.sumQ in *. cbn [fold_right].
    apply Qabs_Qle_condition in Ha, IH. apply Qabs_Qle_condition. lra.
Qed.

Lemma Qabs_div_le (s n E : Q) : 0 < n -> Qabs s <= n * E -> Qabs (s / n) <= E.
Proof.
  intros Hn Hs. apply Qabs_Qle_condition in Hs. apply Qabs_Qle_condition.
  split.
  - apply Qle_shift_div_l; [exact Hn | lra].
  - apply Qle_shift_div_r; [exact Hn | lra].
Qed.

Lemma mean_close (E : Q) (l l' : list Q) :
  l <> [] -> Forall2 (fun a b => Qabs (a - b) <= E) l l' ->
  Qabs (api.mean l - api.mean l') <= E.
Proof.
  intros Hl H. pose proof (length_pos_Q l Hl) as Hn.
  unfold api.mean. rewrite <- (Forall2_length _ _ _ H).
  setoid_replace (api.sumQ l / inject_Z (Z.of_nat (length l))
                  - api.sumQ l' / inject_Z (Z.of_nat (length l)))
    with ((api.sumQ l - api.sumQ l') / inject_Z (Z.of_nat (length l)))
    using relation Qeq by (field; lra).
  apply Qabs_div_le; [exact Hn | apply sumQ_close, H].
Qed.

Lemma mean_bound (B : Q) (l : list Q) :
  l <> [] -> Forall (fun a => Qabs a <= B) l -> Qabs (api.mean l) <= B.
Proof.
  intros Hl H. unfold api.mean.
  apply Qabs_div_le; [apply length_pos_Q, Hl | apply sumQ_bound, H].
Qed.

(** *** How far the tensors are from the exact extrapolation *)

Section Accuracy.

(** The operations of the library are accurate to [eps], relatively, and
    to [eta], absolutely, the mean on tensors of [N] rows at most; the
    coordinates are at most [M] in size. *)
Variables eps eta M : Q.
Variable N : nat.
Hypothesis eps_range : Num.pow2 (-23) <= eps <= 1 # 16.
Hypothesis eta_range : Num.pow2 (-149) <= eta.
Hypothesis M_nonneg : 0 <= M.
Hypothesis sub_accurate :
  forall a b, Qabs (api.t_sub tf a b - (a - b)) <= eps * Qabs (a - b) + eta.
Hypothesis add_accurate :
  forall a b, Qabs (api.t_add tf a b - (a + b)) <= eps * Qabs (a + b) + eta.
Hypothesis mean_accurate :
  forall l B, l <> [] -> (length l <= N)%nat -> Forall (fun x => Qabs x <= B) l ->
              Qabs (api.t_mean tf l - api.mean l) <= eps * B + eta.

Local Abbreviation T := (eps * M + eta).

Lemma eps_pos : 0 < eps.
Proof. apply Qlt_le_trans with (Num.pow2 (-23)); [apply pow2_pos | apply eps_range]. Qed.

Lemma eta_pos : 0 < eta.
Proof. apply Qlt_le_trans with (Num.pow2 (-149)); [apply pow2_pos | exact eta_range]. Qed.

Lemma T_nonneg : 0 <= T.
Proof.
  pose proof eps_pos. pose proof eta_pos.
  assert (0 <= eps * M) by (apply Qmult_le_0_compat; lra). lra.
Qed.

(** One rounded operation: [r] is the result, [v] its exact value on the
    operands it got, [v'] the value on exact operands. *)
Lemma approx_step (r v v' beta c K : Q) :
  1 <= c -> 0 <= K ->
  Qabs (r - v) <= eps * beta + eta ->
  beta <= c * M + K * T ->
  Qabs (v - v') <= K * T ->
  Qabs (r - v') <= (c + K * (17 # 16)) * T.
Proof.
  intros Hc HK Hr Hbeta Hv.
  pose proof eps_pos as He. pose proof eta_pos as Hh. pose proof T_nonneg as HT.
  destruct eps_range as [_ He16].
  assert (H1 : eps * beta <= eps * (c * M + K * T)).
  { rewrite (Qmult_comm eps beta), (Qmult_comm eps (c * M + K * T)).
    apply Qmult_le_compat_r; [exact Hbeta | lra]. }
  assert (H2 : eps * (K * T) <= (1 # 16) * (K * T)).
  { apply Qmult_le_compat_r; [exact He16 |]. apply Qmult_le_0_compat; assumption. }
  assert (H3 : eps * M <= c * (eps * M)).
  { assert (0 <= (c - 1) * (eps * M)).
    { apply Qmult_le_0_compat; [lra |]. apply Qmult_le_0_compat; lra. }
    lra. }
  apply Qabs_Qle_condition in Hr, Hv. apply Qabs_Qle_condition.
  set (em := eps * M) in *. set (kt := K * (em + eta)) in *.
  assert (E1 : eps * (c * M + kt) == c * em + eps * kt) by (unfold em; ring).
  assert (E2 : (c + K * (17 # 16)) * (em + eta) == c * em + c * eta + (17 # 16) * kt)
    by (unfold kt; ring).
  rewrite E2. rewrite E1 in H1.
  assert (H4 : eta <= c * eta).
  { assert (0 <= (c - 1) * eta) by (apply Qmult_le_0_compat; lra). lra. }
  lra.
Qed.

Lemma single_close (x : Q) : Qabs x <= M -> Qabs (single x - x) <= T.
Proof.
  intros Hx. cbv beta.
  pose proof (roundTo_error 53 (-1074) x) as H1.
  pose proof (roundTo_error 24 (-149) (Num.fl x)) as H2.
  change (Num.roundTo 53 (-1074) x) with (Num.fl x) in H1.
  change (Num.roundTo 24 (-149) (Num.fl x)) with (Num.fround (Num.fl x)) in H2.
  assert (E53 : Num.pow2 (- (53)) == 1 # 9007199254740992) by reflexivity.
  assert (E24 : Num.pow2 (- (24)) == 1 # 16777216) by reflexivity.
  assert (E23 : Num.pow2 (-23) == 1 # 8388608) by reflexivity.
  assert (Hq : Num.pow2 (-1074 - 1) <= Num.pow2 (-151)) by (apply pow2_le; lia).
  assert (E150 : Num.pow2 (-149 - 1) == 2 * Num.pow2 (-151)).
  { change (-149 - 1)%Z with (-151 + 1)%Z. rewrite pow2_add. change (Num.pow2 1) with 2.
    ring. }
  assert (E149 : Num.pow2 (-149) == 4 * Num.pow2 (-151)).
  { change (-149)%Z with (-151 + 2)%Z. rewrite pow2_add. change (Num.pow2 2) with 4.
    ring. }
  pose proof (pow2_pos (-151)) as Hqpos.
  rewrite E53 in H1. rewrite E24, E150 in H2.
  rewrite E149 in eta_range. rewrite E23 in eps_range.
  destruct eps_range as [Heps _].
  assert (HM : (1 # 8388608) * M <= eps * M).
  { apply Qmult_le_compat_r; [exact Heps | exact M_nonneg]. }
  assert (Hsize : Qabs (Num.fl x)
                  <= Qabs x + Qabs x * (1 # 9007199254740992) + Num.pow2 (-1074 - 1)).
  { pose proof (Qabs_triangle_reverse (Num.fl x) x) as Hr. lra. }
  pose proof (Qabs_nonneg x) as Ha.
  apply Qabs_Qle_condition in H1, H2. apply Qabs_Qle_condition.
  set (a := Qabs x) in *. set (b := Qabs (Num.fl x)) in *.
  set (q := Num.pow2 (-151)) in *. set (t := Num.pow2 (-1074 - 1)) in *.
  split; lra.
Qed.

Lemma sub_close (x1 x2 : Q) :
  Qabs x1 <= M -> Qabs x2 <= M ->
  Qabs (api.t_sub tf (single x1) (single x2) - (x1 - x2)) <= (33 # 8) * T.
Proof.
  intros H1 H2.
  pose proof (single_close x1 H1) as F1. pose proof (single_close x2 H2) as F2.
  cbv beta in *.
  pose proof (approx_step (api.t_sub tf (Num.fround (Num.fl x1)) (Num.fround (Num.fl x2)))
                (Num.fround (Num.fl x1) - Num.fround (Num.fl x2)) (x1 - x2)
                (Qabs (Num.fround (Num.fl x1) - Num.fround (Num.fl x2))) 2 2) as H.
  setoid_replace ((2 + 2 * (17 # 16)) * T) with ((33 # 8) * T) using relation Qeq in H
    by ring.
  apply Qabs_Qle_condition in H1, H2, F1, F2.
  apply H; [lra | lra | apply sub_accurate | |].
  - apply Qabs_Qle_condition. lra.
  - apply Qabs_Qle_condition. lra.
Qed.

Lemma diffs_close (xs : list Q) :
  Forall (fun x => Qabs x <= M) xs ->
  Forall2 (fun a b => Qabs (a - b) <= (33 # 8) * T)
          (zip_with (api.t_sub tf) (map single xs) (drop 1 (map single xs)))
          (zip_with Qminus xs (drop 1 xs)).
Proof.
  intros H. destruct xs as [| x xs]; [constructor |].
  cbn [map drop]. revert x H. induction xs as [| y xs IH]; intros x H.
  - constructor.
  - cbn [map zip_with]. inversion H as [| ? ? Hx Hrest]; subst.
    inversion Hrest as [| ? ? Hy _]; subst.
    constructor; [apply (sub_close x y); assumption | apply IH, Hrest].
Qed.

Lemma diffs_bound (xs : list Q) :
  Forall (fun x => Qabs x <= M) xs ->
  Forall (fun d => Qabs d <= 2 * M) (zip_with Qminus xs (drop 1 xs)).
Proof.
  intros H. destruct xs as [| x xs]; [constructor |].
  cbn [drop]. revert x H. induction xs as [| y xs IH]; intros x H.
  - constructor.
  - cbn [zip_with]. inversion H as [| ? ? Hx Hrest]; subst.
    inversion Hrest as [| ? ? Hy _]; subst.
    constructor; [| apply IH, Hrest].
    apply Qabs_Qle_condition in Hx, Hy. apply Qabs_Qle_condition. lra.
Qed.

Lemma Forall2_bound (E B : Q) (l l' : list Q) :
  Forall2 (fun a b => Qabs (a - b) <= E) l l' ->
  Forall (fun d => Qabs d <= B) l' ->
  Forall (fun a => Qabs a <= B + E) l.
Proof.
  induction 1 as [| a b l l' Hab _ IH]; intros Hb; [constructor |].
  inversion Hb as [| ? ? Hb1 Hb2]; subst.
  constructor; [| apply IH, Hb2].
  apply Qabs_Qle_condition in Hab, Hb1. apply Qabs_Qle_condition. lra.
Qed.

(** One column: the exact values [x0 :: rest], most recent first. *)
Lemma column_close (x0 : Q) (rest : list Q) :
  rest <> [] -> (length rest <= N)%nat -> Forall (fun x => Qabs x <= M) (x0 :: rest) ->
  let xs := x0 :: rest in
  let ys := map single xs in
  let a := api.t_mean tf (rev (zip_with (api.t_sub tf) ys (drop 1 ys))) in
  let d := api.mean (zip_with Qminus xs (drop 1 xs)) in
  Qabs (api.t_add tf (single x0) a - (x0 + d)) <= 11 * T
  /\ Qabs (api.t_add tf (api.t_add tf (single x0) a) a - (x0 + 2 * d)) <= 24 * T.
Proof.
  intros Hrest HN Hall xs ys a d.
  pose proof T_nonneg as HT.
  pose proof (diffs_close xs Hall) as Hclose. fold ys in Hclose.
  pose proof (diffs_bound xs Hall) as Hbound.
  set (deltas := zip_with (api.t_sub tf) ys (drop 1 ys)) in *.
  set (ds := zip_with Qminus xs (drop 1 xs)) in *.
  assert (Hne : deltas <> []).
  { unfold deltas, ys, xs. destruct rest; [contradiction | discriminate]. }
  assert (Hds : ds <> []).
  { unfold ds, xs. destruct rest; [contradiction | discriminate]. }
  assert (Hd : Qabs d <= 2 * M) by (apply mean_bound; assumption).
  assert (Hlen : length ds = length rest).
  { unfold ds, xs. change (drop 1 (x0 :: rest)) with rest. clear. revert x0.
    induction rest as [| y r IH]; intros x0; [reflexivity |].
    change (S (length (zip_with Qminus (y :: r) r)) = S (length r)).
    f_equal. apply IH. }
  assert (Hx0 : Qabs x0 <= M) by (inversion Hall; assumption).
  pose proof (single_close x0 Hx0) as Hy0. cbv beta in Hy0 |- *.
  (* the mean *)
  assert (Ha : Qabs (a - d) <= (817 # 128) * T).
  { pose proof (approx_step a (api.mean (rev deltas)) d (2 * M + (33 # 8) * T)
                  2 (33 # 8)) as H.
    setoid_replace ((2 + (33 # 8) * (17 # 16)) * T) with ((817 # 128) * T)
      using relation Qeq in H by ring.
    apply H; [lra | lra | | lra |].
    - apply mean_accurate.
      + intros E. apply (f_equal (@rev Q)) in E. rewrite rev_involutive in E.
        exact (Hne E).
      + rewrite length_rev. rewrite <- (Forall2_length _ _ _ Hclose) in Hlen.
        rewrite Hlen. exact HN.
      + apply Forall_rev. apply (Forall2_bound _ _ _ _ Hclose Hbound).
    - rewrite mean_rev. apply mean_close; assumption. }
  (* the first point *)
  assert (H1 : Qabs (api.t_add tf (Num.fround (Num.fl x0)) a - (x0 + d)) <= (22209 # 2048) * T).
  { pose proof (approx_step (api.t_add tf (Num.fround (Num.fl x0)) a)
                  (Num.fround (Num.fl x0) + a) (x0 + d)
                  (Qabs (Num.fround (Num.fl x0) + a)) 3 (945 # 128)) as H.
    setoid_replace ((3 + (945 # 128) * (17 # 16)) * T) with ((22209 # 2048) * T)
      using relation Qeq in H by ring.
    apply Qabs_Qle_condition in Ha, Hd, Hx0, Hy0.
    apply H; [lra | lra | apply add_accurate | |].
    - apply Qabs_Qle_condition. lra.
    - apply Qabs_Qle_condition. lra. }
  split; [apply Qle_trans with (1 := H1); lra |].
  (* the second point *)
  pose proof (approx_step (api.t_add tf (api.t_add tf (Num.fround (Num.fl x0)) a) a)
                (api.t_add tf (Num.fround (Num.fl x0)) a + a) (x0 + 2 * d)
                (Qabs (api.t_add tf (Num.fround (Num.fl x0)) a + a)) 5 (35281 # 2048)) as H.
  setoid_replace ((5 + (35281 # 2048) * (17 # 16)) * T) with ((763617 # 32768) * T)
    using relation Qeq in H by ring.
  apply Qle_trans with ((763617 # 32768) * T); [| lra].
  apply Qabs_Qle_condition in Ha, Hd, Hx0, Hy0, H1.
  apply H; [lra | lra | apply add_accurate | |].
  - apply Qabs_Qle_condition. lra.
  - apply Qabs_Qle_condition. lra.
Qed.

(** C9 (amended). When the tensor library is loaded: a species with two
    sightings or more gets two waypoints, computed in single precision,
    that approximate [last + d] and [last + 2d], where [d] is the mean
    displacement between consecutive sightings, older to newer: with
    operations accurate to [eps] and [eta], the mean on [N] rows at most,
    with [N + 1] sightings at most and coordinates of size at most [M],
    each coordinate of the first is within [11 (eps M + eta)] of
    [last + d], and each coordinate of the second within
    [24 (eps M + eta)] of [last + 2d].  A species with exactly one
    sighting gets two steps of 0.01 degrees from it in one random
    direction, computed in doubles.  Every group returned comes from a
    species with a sighting and holds two waypoints.  Without the library
    nothing is returned. *)
Theorem predictAnimalPaths_extrapolates (sets : list api.SightingSet)
    (randoms : nat -> Q) :
  (forall set lastSighting older,
      In set sets -> api.sightings set = lastSighting :: older ->
      (1 <= length older <= N)%nat ->
      Forall (fun s => Qabs (s_lat s) <= M /\ Qabs (s_lon s) <= M) (api.sightings set) ->
      exists pred1 pred2,
        In (api.mkGroup (api.scientificName set) [pred1; pred2])
           (predictAnimalPaths true sets randoms)
        /\ Qabs (lat pred1
                 - (s_lat lastSighting + fst (api.meanDisplacement (api.sightings set))))
           <= 11 * (eps * M + eta)
        /\ Qabs (lon pred1
                 - (s_lon lastSighting + snd (api.meanDisplacement (api.sightings set))))
           <= 11 * (eps * M + eta)
        /\ Qabs (lat pred2
                 - (s_lat lastSighting + 2 * fst (api.meanDisplacement (api.sightings set))))
           <= 24 * (eps * M + eta)
        /\ Qabs (lon pred2
                 - (s_lon lastSighting + 2 * snd (api.meanDisplacement (api.sightings set))))
           <= 24 * (eps * M + eta))
  /\ (forall set only,
        In set sets -> api.sightings set = [only] ->
        exists k,
          let randomAngle := Num.fl (Num.fl (randoms k * 2) * Math_PI) in
          let stepLat := Num.fl (Num.fl 0.01 * Math_cos randomAngle) in
          let stepLon := Num.fl (Num.fl 0.01 * Math_sin randomAngle) in
          In (api.mkGroup (api.scientificName set)
                [mkLatLon (Num.fl (Num.fl (s_lat only) + stepLat))
                          (Num.fl (Num.fl (s_lon only) + stepLon));
                 mkLatLon (Num.fl (Num.fl (Num.fl (s_lat only) + stepLat) + stepLat))
                          (Num.fl (Num.fl (Num.fl (s_lon only) + stepLon) + stepLon))])
             (predictAnimalPaths true sets randoms))
  /\ (forall g, In g (predictAnimalPaths true sets randoms) ->
        length (api.predictions g) = 2%nat
        /\ exists set, In set sets /\ api.scientificName set = api.g_scientificName g
                       /\ (1 <= length (api.sightings set))%nat)
  /\ predictAnimalPaths false sets randoms = [].
Proof.
  split; [| split; [| split]].
  - intros set lastSighting older Hin Hs Hlen Hsize.
    destruct (predictSets_In sets randoms 0 set Hin) as [k Hk].
    unfold api.predictSet in Hk. rewrite Hs in Hk.
    destruct Hlen as [Hlen HN].
    destruct (Nat.ltb_spec (length (lastSighting :: older)) 2) as [Hlt | _];
      [cbn in Hlt; lia |].
    rewrite <- Hs in Hk. rewrite avgDeltaOf_columns in Hk.
    cbn [fst snd api.tensor1d] in Hk.
    eexists _, _. split.
    { unfold api.predictAnimalPaths. cbn [negb].
      apply filter_In. split; [exact Hk | reflexivity]. }
    cbn [lat lon]. rewrite meanDisplacement_columns. cbn [fst snd].
    assert (Hrest : forall f : Sighting -> Q, map f older <> []).
    { intros f. destruct older; [cbn in Hlen; lia | discriminate]. }
    assert (Hlat : Forall (fun x => Qabs x <= M) (s_lat lastSighting :: map s_lat older)).
    { rewrite Hs in Hsize. change (Forall (fun x => Qabs x <= M)
                                     (map s_lat (lastSighting :: older))).
      apply Forall_map. eapply Forall_impl; [exact Hsize |]. intros s [H _]. exact H. }
    assert (Hlon : Forall (fun x => Qabs x <= M) (s_lon lastSighting :: map s_lon older)).
    { rewrite Hs in Hsize. change (Forall (fun x => Qabs x <= M)
                                     (map s_lon (lastSighting :: older))).
      apply Forall_map. eapply Forall_impl; [exact Hsize |]. intros s [_ H]. exact H. }
    rewrite Hs. cbn [map].
    assert (HNf : forall f : Sighting -> Q, (length (map f older) <= N)%nat).
    { intros f. rewrite length_map. exact HN. }
    destruct (column_close (s_lat lastSighting) (map s_lat older) (Hrest s_lat) (HNf s_lat)
                Hlat) as [Hlat1 Hlat2].
    destruct (column_close (s_lon lastSighting) (map s_lon older) (Hrest s_lon) (HNf s_lon)
                Hlon) as [Hlon1 Hlon2].
    cbn [map] in Hlat1, Hlat2, Hlon1, Hlon2.
    split; [exact Hlat1 |]. split; [exact Hlon1 |]. split; [exact Hlat2 | exact Hlon2].
  - intros set only Hin Hs.
    destruct (predictSets_In sets randoms 0 set Hin) as [k Hk].
    exists k. unfold api.predictSet in Hk. rewrite Hs in Hk.
    cbn [length Nat.ltb Nat.leb lat lon] in Hk.
    unfold api.predictAnimalPaths. cbn [negb].
    apply filter_In. split; [exact Hk | reflexivity].
  - intros g Hg. unfold api.predictAnimalPaths in Hg. cbn [negb] in Hg.
    apply filter_In in Hg. destruct Hg as [Hg Hkeep].
    destruct (predictSets_origin sets randoms 0 g Hg) as (set & k & Hset & ->).
    destruct (api.sightings set) as [| x l] eqn:Hs.
    + rewrite predictSet_none in Hkeep by exact Hs. discriminate.
    + assert (Hlen : (1 <= length (api.sightings set))%nat) by (rewrite Hs; cbn; lia).
      split; [now apply predictSet_two |].
      exists set. split; [exact Hset |]. split; [| exact Hlen].
      unfold api.predictSet. rewrite Hs.
      now destruct (length (x :: l) <? 2)%nat.
  - reflexivity.
Qed.

End Accuracy.

End PredictFacts.

(** ** Nearest point on the path *)

Section SearchFacts.

Variable calculateDistance : LatLon -> LatLon -> Q.

(** The loop answers with the index it was given or with one it visited. *)
Lemma searchLoop_lower (userLocation : LatLon) (pts : list Coord) (i closest : nat)
    (minDistance : option Q) (increasingCount : nat) :
  (Nat.min i closest
   <= fst (geo.searchLoop calculateDistance userLocation pts i closest minDistance
             increasingCount))%nat.
Proof.
  revert i closest minDistance increasingCount.
  induction pts as [| p rest IH]; intros i closest minDistance increasingCount;
    cbn [geo.searchLoop fst]; [lia |].
  destruct (Num.lt_min _ minDistance);
    destruct (geo.INCREASING_THRESHOLD <? _)%nat; cbn [fst]; try lia;
    (etransitivity; [| apply IH]; lia).
Qed.

(** On a path of two points or more the index found is at most twenty
    behind the index the search started from. *)
Lemma getPathDataFromLocation_lower (userLocation : LatLon) (routePath : list Coord)
    (searchStartIndex : nat) :
  (2 <= length routePath)%nat ->
  (searchStartIndex - 20
   <= geo.closestPointIndex
        (geo.getPathDataFromLocation calculateDistance userLocation routePath
           searchStartIndex))%nat.
Proof.
  intros Hlen. unfold geo.getPathDataFromLocation.
  destruct (Nat.ltb_spec (length routePath) 2) as [Hlt | _]; [lia |].
  pose proof (searchLoop_lower userLocation
                (drop (Nat.max 0 (searchStartIndex - 20)) routePath)
                (Nat.max 0 (searchStartIndex - 20)) searchStartIndex None 0) as Hlow.
  destruct (geo.searchLoop _ _ _ _ _ _ _) as [closest minDistance].
  cbn [fst geo.closestPointIndex] in *. lia.
Qed.

(** A shorter path always gives index 0. *)
Lemma getPathDataFromLocation_short (userLocation : LatLon) (routePath : list Coord)
    (searchStartIndex : nat) :
  (length routePath < 2)%nat ->
  geo.closestPointIndex
    (geo.getPathDataFromLocation calculateDistance userLocation routePath searchStartIndex)
  = 0%nat.
Proof.
  intros Hlen. unfold geo.getPathDataFromLocation.
  destruct (Nat.ltb_spec (length routePath) 2) as [_ | Hge]; [reflexivity | lia].
Qed.

End SearchFacts.

(** ** The position handler *)

Section HandlerFacts.

Variable calculateDistance : LatLon -> LatLon -> Q.

Local Abbreviation onPosition := (hook.onPosition calculateDistance).
Local Abbreviation onPositionEnd := (hook.onPositionEnd calculateDistance).
Local Abbreviation onPositionResume := (hook.onPositionResume calculateDistance).
Local Abbreviation trackProgress := (hook.trackProgress calculateDistance).
Local Abbreviation animalAlertLoop := (hook.animalAlertLoop calculateDistance).
Local Abbreviation qualifiesForAlert := (hook.qualifiesForAlert calculateDistance).
Local Abbreviation animalAlert := (hook.animalAlert calculateDistance).

(** What the steps before the alert loop leave alone. *)
Local Abbreviation keeps s' s :=
  (hook.navigationAlertRef s' = hook.navigationAlertRef s
   /\ hook.animalsNearRouteRef s' = hook.animalsNearRouteRef s
   /\ hook.shownAnimalAlertsRef s' = hook.shownAnimalAlertsRef s
   /\ hook.alertsRaised s' = hook.alertsRaised s
   /\ hook.safeRouteRef s' = hook.safeRouteRef s
   /\ hook.emergencyRouteRef s' = hook.emergencyRouteRef s
   /\ hook.closestPathIndexRef s' = hook.closestPathIndexRef s
   /\ hook.closestPathIndex s' = hook.closestPathIndex s
   /\ hook.isApproachingStartRef s' = hook.isApproachingStartRef s
   /\ hook.initialRouteSnapshotRef s' = hook.initialRouteSnapshotRef s).

(** The events at which the handler of the fix [position] runs to its
    end: the fix itself when no weather check is due, the answer of the
    weather service otherwise. *)
Local Abbreviation ends e position s :=
  ((e = hook.PositionFix position /\ hook.weatherCheckDue position s = false)
   \/ e = hook.WeatherAnswered position).

Local Ltac by_cases :=
  repeat match goal with
         | |- context [if ?b then _ else _] => destruct b
         | |- context [match ?o with Some _ => _ | None => _ end] => destruct o
         end;
  repeat split; reflexivity.

Lemma onPositionBegin_keeps (position : hook.Position) (s : hook.Session) :
  keeps (hook.onPositionBegin position s) s.
Proof.
  unfold hook.onPositionBegin, hook.weatherCheckDue, hook.clearNavigationAlert.
  by_cases.
Qed.

Lemma applyWeather_keeps (answer : option WeatherData) (s : hook.Session) :
  keeps (hook.applyWeather answer s) s.
Proof.
  unfold hook.applyWeather, hook.triggerWeatherAlert, hook.clearWeatherAlert.
  by_cases.
Qed.

Lemma preamble_keeps (position : hook.Position) (s : hook.Session) :
  keeps (hook.preamble position s) s.
Proof.
  unfold hook.preamble, hook.weatherStep, hook.applyWeather, hook.weatherCheckDue,
    hook.triggerWeatherAlert, hook.clearWeatherAlert, hook.clearNavigationAlert.
  by_cases.
Qed.

(** A handler that runs to its end at [e] does so from a state with the
    refs of the state [e] found. *)
Lemma handle_ends (e : hook.Event) (position : hook.Position) (s : hook.Session) :
  ends e position s ->
  exists s1, hook.handle calculateDistance e s = onPositionEnd position s1 /\ keeps s1 s.
Proof.
  intros [[-> Hdue] | ->]; cbn [hook.handle].
  - rewrite Hdue. eexists. split; [reflexivity | apply onPositionBegin_keeps].
  - eexists. split; [reflexivity | apply applyWeather_keeps].
Qed.

(** The handler with nothing else in between ends in the same way. *)
Lemma onPosition_ends (position : hook.Position) (s : hook.Session) :
  onPosition position s = onPositionEnd position (hook.preamble position s).
Proof. reflexivity. Qed.

(** Without a weather check due, it is the handling of the fix. *)
Lemma handle_PositionFix (position : hook.Position) (s : hook.Session) :
  hook.weatherCheckDue position s = false ->
  hook.handle calculateDistance (hook.PositionFix position) s = onPosition position s.
Proof.
  intros Hdue. cbn [hook.handle]. rewrite Hdue.
  unfold hook.onPosition, hook.onPositionEnd, hook.preamble, hook.onPositionBegin,
    hook.weatherStep.
  destruct (hook.isSignalLost (hook.navigationAlertRef s)).
  - change (hook.weatherCheckDue position
              (hook.setLiveLocation
                 (Some (mkLocation (hook.latitude position) (hook.longitude position)
                                   "Live Location"))
                 (hook.clearNavigationAlert s)))
      with (hook.weatherCheckDue position s).
    rewrite Hdue. reflexivity.
  - change (hook.weatherCheckDue position
              (hook.setLiveLocation
                 (Some (mkLocation (hook.latitude position) (hook.longitude position)
                                   "Live Location")) s))
      with (hook.weatherCheckDue position s).
    rewrite Hdue. reflexivity.
Qed.

(** With one due, the fix and the answer that follows at once are the
    handler with nothing in between. *)
Lemma handle_WeatherAnswered (position : hook.Position) (s : hook.Session) :
  hook.weatherCheckDue position s = true ->
  hook.handle calculateDistance (hook.WeatherAnswered position)
    (hook.handle calculateDistance (hook.PositionFix position) s)
  = onPosition position s.
Proof.
  intros Hdue. cbn [hook.handle]. rewrite Hdue.
  unfold hook.onPosition, hook.onPositionResume, hook.onPositionEnd, hook.preamble,
    hook.onPositionBegin, hook.weatherStep.
  destruct (hook.isSignalLost (hook.navigationAlertRef s)).
  - change (hook.weatherCheckDue position
              (hook.setLiveLocation
                 (Some (mkLocation (hook.latitude position) (hook.longitude position)
                                   "Live Location"))
                 (hook.clearNavigationAlert s)))
      with (hook.weatherCheckDue position s).
    rewrite Hdue. reflexivity.
  - change (hook.weatherCheckDue position
              (hook.setLiveLocation
                 (Some (mkLocation (hook.latitude position) (hook.longitude position)
                                   "Live Location")) s))
      with (hook.weatherCheckDue position s).
    rewrite Hdue. reflexivity.
Qed.

(** The alert loop, in one step: with no alert showing, the first animal
    that qualifies is alerted and marked; otherwise nothing happens. *)
Lemma animalAlertLoop_first (currentLiveLocation : LatLon)
    (nearbyAnimals : list AnimalPrediction) (s : hook.Session) :
  animalAlertLoop currentLiveLocation nearbyAnimals s
  = match hook.navigationAlertRef s,
          List.find (qualifiesForAlert currentLiveLocation (hook.shownAnimalAlertsRef s))
                    nearbyAnimals with
    | None, Some animal =>
        hook.put_shownAnimalAlertsRef
          ({[animal_id animal]} ∪ hook.shownAnimalAlertsRef s)
          (hook.triggerNavigationAlert (animalAlert currentLiveLocation animal) s)
    | _, _ => s
    end.
Proof.
  induction nearbyAnimals as [| animal rest IH]; cbn [hook.animalAlertLoop List.find].
  - now destruct (hook.navigationAlertRef s).
  - destruct (qualifiesForAlert _ _ animal).
    + destruct (hook.navigationAlertRef s); [exact IH | reflexivity].
    + exact IH.
Qed.

(** What the alert loop leaves alone. *)
Lemma animalAlertLoop_keeps (currentLiveLocation : LatLon)
    (nearbyAnimals : list AnimalPrediction) (s : hook.Session) :
  let s' := animalAlertLoop currentLiveLocation nearbyAnimals s in
  hook.safeRouteRef s' = hook.safeRouteRef s
  /\ hook.emergencyRouteRef s' = hook.emergencyRouteRef s
  /\ hook.closestPathIndexRef s' = hook.closestPathIndexRef s
  /\ hook.closestPathIndex s' = hook.closestPathIndex s
  /\ hook.isApproachingStartRef s' = hook.isApproachingStartRef s
  /\ hook.initialRouteSnapshotRef s' = hook.initialRouteSnapshotRef s.
Proof.
  cbv zeta. rewrite animalAlertLoop_first. by_cases.
Qed.

(** The last steps raise at most the navigation-begun alert and mark no
    animal. *)
Lemma trackProgress_alerts (currentLiveLocation : LatLon) (s : hook.Session) :
  hook.shownAnimalAlertsRef (trackProgress currentLiveLocation s)
  = hook.shownAnimalAlertsRef s
  /\ (hook.alertsRaised (trackProgress currentLiveLocation s) = hook.alertsRaised s
      \/ hook.alertsRaised (trackProgress currentLiveLocation s)
         = hook.mkAlert None hook.NavigationBegun :: hook.alertsRaised s).
Proof.
  unfold hook.trackProgress.
  destruct (hook.activeRouteOf s) as [activeRoute |]; [| split; [| left]; reflexivity].
  destruct (hook.isNowApproachingOf _ _ _ _);
    destruct (hook.isApproachingStartRef s); cbn;
    (split; [reflexivity |]); (left; reflexivity) || (right; reflexivity).
Qed.

(** What the last steps compute, when there is an active route. *)
Lemma trackProgress_result (currentLiveLocation : LatLon) (s : hook.Session)
    (activeRoute : Route) :
  hook.activeRouteOf s = Some activeRoute ->
  let s' := trackProgress currentLiveLocation s in
  let nearest := hook.newClosestPointIndexOf calculateDistance currentLiveLocation activeRoute s in
  hook.isApproachingStartRef s'
  = hook.isNowApproachingOf calculateDistance currentLiveLocation activeRoute s
  /\ if hook.isNowApproachingOf calculateDistance currentLiveLocation activeRoute s
     then hook.closestPathIndexRef s' = hook.closestPathIndexRef s
          /\ hook.closestPathIndex s' = hook.closestPathIndex s
          /\ hook.routeMessage s'
             = Some (hook.ProceedToStart
                       (Num.toFixed1 (calculateDistance currentLiveLocation
                                        (latlon_of (start activeRoute)))))
          /\ hook.navigationStats s'
             = Some (match hook.initialRouteSnapshotRef s with
                     | Some snapshot =>
                         mkStats (hook.snap_distanceKm snapshot)
                                 (hook.snap_durationMinutes snapshot) 0
                     | None => mkStats (distanceKm activeRoute) (durationMinutes activeRoute) 0
                     end)
     else hook.closestPathIndexRef s' = nearest
          /\ hook.closestPathIndex s' = nearest
          /\ hook.navigationStats s' = Some (hook.statsOf activeRoute nearest).
Proof.
  intros Hactive. cbv zeta. unfold hook.trackProgress. rewrite Hactive.
  destruct (hook.isNowApproachingOf _ _ _ _);
    destruct (hook.isApproachingStartRef s) eqn:Hwas; cbn; rewrite ?Hwas;
    repeat split; reflexivity.
Qed.

(** The same from the alert loop on, started in a state [s1] that has
    the refs of [s]. *)
Lemma onPositionEnd_result (position : hook.Position) (s1 s : hook.Session)
    (activeRoute : Route) :
  keeps s1 s ->
  hook.activeRouteOf s = Some activeRoute ->
  let currentLiveLocation := mkLatLon (hook.latitude position) (hook.longitude position) in
  let s' := onPositionEnd position s1 in
  let nearest := hook.newClosestPointIndexOf calculateDistance currentLiveLocation activeRoute s in
  hook.isApproachingStartRef s'
  = hook.isNowApproachingOf calculateDistance currentLiveLocation activeRoute s
  /\ if hook.isNowApproachingOf calculateDistance currentLiveLocation activeRoute s
     then hook.closestPathIndexRef s' = hook.closestPathIndexRef s
          /\ hook.closestPathIndex s' = hook.closestPathIndex s
          /\ hook.routeMessage s'
             = Some (hook.ProceedToStart
                       (Num.toFixed1 (calculateDistance currentLiveLocation
                                        (latlon_of (start activeRoute)))))
          /\ hook.navigationStats s'
             = Some (match hook.initialRouteSnapshotRef s with
                     | Some snapshot =>
                         mkStats (hook.snap_distanceKm snapshot)
                                 (hook.snap_durationMinutes snapshot) 0
                     | None => mkStats (distanceKm activeRoute) (durationMinutes activeRoute) 0
                     end)
     else hook.closestPathIndexRef s' = nearest
          /\ hook.closestPathIndex s' = nearest
          /\ hook.navigationStats s' = Some (hook.statsOf activeRoute nearest).
Proof.
  intros (_ & _ & _ & _ & H1 & H2 & H3 & H4 & H5 & H6) Hactive. cbv zeta.
  destruct (animalAlertLoop_keeps (mkLatLon (hook.latitude position) (hook.longitude position))
              (hook.animalsNearRouteRef s1) s1) as (K1 & K2 & K3 & K4 & K5 & K6).
  cbv zeta in *. unfold hook.onPositionEnd.
  set (s2 := hook.animalAlertLoop _ _ _ _) in *.
  assert (Hactive2 : hook.activeRouteOf s2 = Some activeRoute).
  { unfold hook.activeRouteOf in *. now rewrite K1, K2, H1, H2. }
  pose proof (trackProgress_result (mkLatLon (hook.latitude position) (hook.longitude position))
                s2 activeRoute Hactive2) as Hres.
  cbv zeta in Hres.
  unfold hook.isNowApproachingOf, hook.newClosestPointIndexOf in *.
  rewrite K2, K3, K4, K6, H2, H3, H4, H6 in Hres. exact Hres.
Qed.

Lemma onPositionEnd_idle (position : hook.Position) (s1 s : hook.Session) :
  keeps s1 s ->
  hook.activeRouteOf s = None ->
  hook.closestPathIndexRef (onPositionEnd position s1) = hook.closestPathIndexRef s.
Proof.
  intros (_ & _ & _ & _ & H1 & H2 & H3 & _) Hidle.
  destruct (animalAlertLoop_keeps (mkLatLon (hook.latitude position) (hook.longitude position))
              (hook.animalsNearRouteRef s1) s1) as (K1 & K2 & K3 & _).
  cbv zeta in *. unfold hook.onPositionEnd.
  set (s2 := hook.animalAlertLoop _ _ _ _) in *.
  unfold hook.trackProgress.
  assert (Hidle2 : hook.activeRouteOf s2 = None).
  { unfold hook.activeRouteOf in *. now rewrite K1, K2, H1, H2. }
  rewrite Hidle2, K3. exact H3.
Qed.

(** The same for the handler with nothing in between. *)
Lemma onPosition_result (position : hook.Position) (s : hook.Session)
    (activeRoute : Route) :
  hook.activeRouteOf s = Some activeRoute ->
  let currentLiveLocation := mkLatLon (hook.latitude position) (hook.longitude position) in
  let s' := onPosition position s in
  let nearest := hook.newClosestPointIndexOf calculateDistance currentLiveLocation activeRoute s in
  hook.isApproachingStartRef s'
  = hook.isNowApproachingOf calculateDistance currentLiveLocation activeRoute s
  /\ if hook.isNowApproachingOf calculateDistance currentLiveLocation activeRoute s
     then hook.closestPathIndexRef s' = hook.closestPathIndexRef s
          /\ hook.closestPathIndex s' = hook.closestPathIndex s
          /\ hook.routeMessage s'
             = Some (hook.ProceedToStart
                       (Num.toFixed1 (calculateDistance currentLiveLocation
                                        (latlon_of (start activeRoute)))))
          /\ hook.navigationStats s'
             = Some (match hook.initialRouteSnapshotRef s with
                     | Some snapshot =>
                         mkStats (hook.snap_distanceKm snapshot)
                                 (hook.snap_durationMinutes snapshot) 0
                     | None => mkStats (distanceKm activeRoute) (durationMinutes activeRoute) 0
                     end)
     else hook.closestPathIndexRef s' = nearest
          /\ hook.closestPathIndex s' = nearest
          /\ hook.navigationStats s' = Some (hook.statsOf activeRoute nearest).
Proof.
  intros Hactive. rewrite onPosition_ends.
  exact (onPositionEnd_result position (hook.preamble position s) s activeRoute
           (preamble_keeps position s) Hactive).
Qed.

(** The approaching-start test, spelled out. *)
Lemma isNowApproachingOf_true (currentLiveLocation : LatLon) (activeRoute : Route)
    (s : hook.Session) :
  hook.isNowApproachingOf calculateDistance currentLiveLocation activeRoute s = true
  <-> hook.newClosestPointIndexOf calculateDistance currentLiveLocation activeRoute s = 0%nat
      /\ 0.5 < calculateDistance currentLiveLocation (latlon_of (start activeRoute))
      /\ hook.emergencyRouteRef s = None.
Proof.
  unfold hook.isNowApproachingOf.
  destruct (hook.emergencyRouteRef s).
  - split; [discriminate | intros (_ & _ & H); discriminate].
  - rewrite andb_true_iff, Nat.eqb_eq, gtb_gt.
    unfold hook.APPROACHING_START_THRESHOLD_KM. tauto.
Qed.

(** C5 (amended). When the handler of a fix runs to its end, outside the
    approaching-start state the matched index is set to the vertex the
    nearest-point search returns, which on a route of two points or more
    lies at most twenty vertices behind the index it had, and so can be
    behind it; while approaching the start, and without an active route,
    the index is left alone.  Nothing else of a session moves it, except
    that an emergency reroute, the start and the stop set it to zero. *)
Theorem matched_index_regress_bounded (e : hook.Event) (position : hook.Position)
    (s : hook.Session) :
  let currentLiveLocation := mkLatLon (hook.latitude position) (hook.longitude position) in
  let s' := hook.handle calculateDistance e s in
  ((e = hook.PositionFix position /\ hook.weatherCheckDue position s = false)
   \/ e = hook.WeatherAnswered position ->
   match hook.activeRouteOf s with
   | None => hook.closestPathIndexRef s' = hook.closestPathIndexRef s
   | Some activeRoute =>
       let nearest :=
         geo.closestPointIndex
           (geo.getPathDataFromLocation calculateDistance currentLiveLocation
              (path activeRoute) (hook.closestPathIndexRef s)) in
       let distanceToStart :=
         calculateDistance currentLiveLocation (latlon_of (start activeRoute)) in
       (nearest = 0%nat /\ 0.5 < distanceToStart /\ hook.emergencyRouteRef s = None ->
        hook.isApproachingStartRef s' = true
        /\ hook.closestPathIndexRef s' = hook.closestPathIndexRef s)
       /\ (~ (nearest = 0%nat /\ 0.5 < distanceToStart /\ hook.emergencyRouteRef s = None) ->
           hook.isApproachingStartRef s' = false
           /\ hook.closestPathIndexRef s' = nearest)
       /\ ((2 <= length (path activeRoute))%nat ->
           (hook.closestPathIndexRef s - 20 <= nearest)%nat)
   end)
  /\ (e = hook.PositionFix position -> hook.weatherCheckDue position s = true ->
      hook.closestPathIndexRef s' = hook.closestPathIndexRef s)
  /\ (e = hook.PositionError \/ e = hook.Rendered \/ e = hook.AlertDismissed
      \/ (exists animals, e = hook.AnimalsUpdated animals) ->
      hook.closestPathIndexRef s' = hook.closestPathIndexRef s)
  /\ (forall route place,
        e = hook.EmergencyRerouted route place -> hook.closestPathIndexRef s' = 0%nat)
  /\ (forall route,
        hook.closestPathIndexRef (hook.startNavigation route s) = 0%nat
        /\ hook.closestPathIndexRef (hook.stopNavigation s) = 0%nat).
Proof.
  cbv zeta. split; [| split; [| split; [| split]]].
  - intros Hends. destruct (handle_ends e position s Hends) as (s1 & -> & Hkeeps).
    destruct (hook.activeRouteOf s) as [activeRoute |] eqn:Hactive.
    + destruct (onPositionEnd_result position s1 s activeRoute Hkeeps Hactive)
        as [Hflag Hres].
      cbv zeta in Hflag, Hres.
      pose proof (isNowApproachingOf_true
                    (mkLatLon (hook.latitude position) (hook.longitude position))
                    activeRoute s) as Hiff.
      unfold hook.newClosestPointIndexOf in *.
      split; [| split].
      * intros Hcond. apply Hiff in Hcond. rewrite Hcond in Hflag, Hres.
        split; [exact Hflag | apply Hres].
      * intros Hnot.
        destruct (hook.isNowApproachingOf _ _ _ _) eqn:Happroaching.
        -- exfalso. apply Hnot, Hiff. reflexivity.
        -- split; [exact Hflag | apply Hres].
      * intros Hlen. now apply getPathDataFromLocation_lower.
    + now apply onPositionEnd_idle.
  - intros -> Hdue. cbn [hook.handle]. rewrite Hdue.
    apply (onPositionBegin_keeps position s).
  - intros [-> | [-> | [-> | [animals ->]]]]; reflexivity.
  - intros route place ->. reflexivity.
  - intros route. split; reflexivity.
Qed.

(** The snapshot taken at the start stays as it is. *)
Lemma onPositionEnd_keeps_snapshot (position : hook.Position) (s : hook.Session) :
  hook.initialRouteSnapshotRef (onPositionEnd position s) = hook.initialRouteSnapshotRef s.
Proof.
  destruct (animalAlertLoop_keeps (mkLatLon (hook.latitude position) (hook.longitude position))
              (hook.animalsNearRouteRef s) s) as (_ & _ & _ & _ & _ & K6).
  cbv zeta in K6. unfold hook.onPositionEnd.
  set (s2 := hook.animalAlertLoop _ _ _ _) in *.
  rewrite <- K6. unfold hook.trackProgress.
  destruct (hook.activeRouteOf s2); [| reflexivity].
  destruct (hook.isNowApproachingOf _ _ _ _); destruct (hook.isApproachingStartRef s2);
    reflexivity.
Qed.

Lemma handle_keeps_snapshot (e : hook.Event) (s : hook.Session) :
  hook.initialRouteSnapshotRef (hook.handle calculateDistance e s)
  = hook.initialRouteSnapshotRef s.
Proof.
  destruct e as [position | position | | | | animals | route place]; try reflexivity;
    cbn [hook.handle].
  - destruct (hook.weatherCheckDue position s).
    + apply (onPositionBegin_keeps position s).
    + rewrite onPositionEnd_keeps_snapshot. apply (onPositionBegin_keeps position s).
  - unfold hook.onPositionResume. rewrite onPositionEnd_keeps_snapshot.
    apply (applyWeather_keeps (hook.weather position) s).
Qed.

Lemma startNavigation_snapshot (route : Route) (s : hook.Session) :
  hook.initialRouteSnapshotRef (hook.startNavigation route s)
  = Some (hook.mkSnapshot (start route) (end_ route) (mode route)
            (distanceKm route) (durationMinutes route)).
Proof. reflexivity. Qed.

Lemma run_keeps_snapshot (events : list hook.Event) (s : hook.Session) :
  hook.initialRouteSnapshotRef (hook.run calculateDistance events s)
  = hook.initialRouteSnapshotRef s.
Proof.
  unfold hook.run. revert s.
  induction events as [| e events IH]; intros s; cbn [fold_left]; [reflexivity |].
  rewrite IH. apply handle_keeps_snapshot.
Qed.

(** C6. With an active route and the session's snapshot, a fix leaves the
    session approaching the start exactly when the nearest path point is
    vertex 0, the start is more than 0.5 km away and no emergency route is
    set; the stats are then the snapshot's totals with no progress, the
    message tells the distance to the start, and the matched index stays.
    The snapshot holds the totals of the route the session started with,
    whatever happened since. *)
Theorem onPosition_approaching_start (position : hook.Position) (s : hook.Session)
    (activeRoute : Route) (snapshot : hook.Snapshot) :
  hook.activeRouteOf s = Some activeRoute ->
  hook.initialRouteSnapshotRef s = Some snapshot ->
  let currentLiveLocation := mkLatLon (hook.latitude position) (hook.longitude position) in
  let nearest :=
    geo.closestPointIndex
      (geo.getPathDataFromLocation calculateDistance currentLiveLocation
         (path activeRoute) (hook.closestPathIndexRef s)) in
  let distanceToStart := calculateDistance currentLiveLocation (latlon_of (start activeRoute)) in
  let s' := onPosition position s in
  (hook.isApproachingStartRef s' = true
   <-> nearest = 0%nat /\ 0.5 < distanceToStart /\ hook.emergencyRouteRef s = None)
  /\ (hook.isApproachingStartRef s' = true ->
      hook.navigationStats s'
      = Some (mkStats (hook.snap_distanceKm snapshot) (hook.snap_durationMinutes snapshot) 0)
      /\ hook.routeMessage s' = Some (hook.ProceedToStart (Num.toFixed1 distanceToStart))
      /\ hook.closestPathIndexRef s' = hook.closestPathIndexRef s
      /\ hook.closestPathIndex s' = hook.closestPathIndex s)
  /\ (forall route s0 events,
        s = hook.run calculateDistance events (hook.startNavigation route s0) ->
        hook.snap_distanceKm snapshot = distanceKm route
        /\ hook.snap_durationMinutes snapshot = durationMinutes route).
Proof.
  intros Hactive Hsnapshot. cbv zeta.
  destruct (onPosition_result position s activeRoute Hactive) as [Hflag Hres].
  cbv zeta in Hflag, Hres. split; [| split].
  - rewrite Hflag. apply isNowApproachingOf_true.
  - intros Happroaching. rewrite Happroaching in Hflag. rewrite <- Hflag in Hres.
    rewrite Hsnapshot in Hres. destruct Hres as (H1 & H2 & H3 & H4).
    repeat split; assumption.
  - intros route s0 events ->. rewrite run_keeps_snapshot in Hsnapshot.
    rewrite startNavigation_snapshot in Hsnapshot.
    assert (Heq : snapshot = hook.mkSnapshot (start route) (end_ route) (mode route)
                               (distanceKm route) (durationMinutes route))
      by congruence.
    rewrite Heq. split; reflexivity.
Qed.

(** The percentage is clamped. *)
Lemma clamp_percent (x : Q) :
  0 <= Num.Math_max 0 (Num.Math_min 100 x) /\ Num.Math_max 0 (Num.Math_min 100 x) <= 100.
Proof.
  unfold Num.Math_max, Num.Math_min.
  destruct (Num.ltb x 100) eqn:H100.
  - apply ltb_lt in H100. destruct (Num.ltb 0 x) eqn:H0.
    + apply ltb_lt in H0. split; lra.
    + split; lra.
  - change (Num.ltb 0 100) with true. cbv iota. split; lra.
Qed.

Local Abbreviation u := (1 # 9007199254740992).
Local Abbreviation tiny := (1 # 1267650600228229401496703205376).

(** The stats against the exact formulas, for an index inside the path:
    [r] is the ratio in doubles, [q] the exact one. *)
Lemma statsOf_close (total q r : Q) :
  0 <= q <= 1 -> Qabs (r - q) <= u + tiny -> 0 <= r <= 1 ->
  Qabs (Num.fl (Num.toFixed1 (Num.fl (Num.fl total * Num.fl (1 - r)))) - total * (1 - q))
  <= (1 # 20) + (Qabs total + 1) * Num.pow2 (-50)
  /\ Qabs (Num.Math_round (Num.fl (Num.fl total * Num.fl (1 - r))) - total * (1 - q))
     <= (1 # 2) + (Qabs total + 1) * Num.pow2 (-50)
  /\ Qabs (Num.Math_max 0 (Num.Math_min 100 (Num.Math_round (Num.fl (r * 100)))) - q * 100)
     <= (1 # 2) + Num.pow2 (-45).
Proof.
  intros Hq Hr Hr01.
  assert (E50 : Num.pow2 (-50) == 1 # 1125899906842624) by reflexivity.
  assert (E45 : Num.pow2 (-45) == 1 # 35184372088832) by reflexivity.
  rewrite E50, E45.
  pose proof (Qabs_nonneg total) as Ha.
  set (w := Num.fl (1 - r)).
  assert (Hw01 : 0 <= w <= 1) by (apply fl_unit; lra).
  assert (Hw : Qabs (w - (1 - q)) <= (u + tiny) + (1 + (u + tiny)) * u + tiny).
  { apply fl_close.
    - apply Qabs_Qle_condition in Hr. apply Qabs_Qle_condition. lra.
    - apply Qabs_Qle_condition. lra. }
  set (e1 := (u + tiny) + (1 + (u + tiny)) * u + tiny) in *.
  (* the total, read as a double *)
  pose proof (fl_error total) as Htotal.
  assert (Hsize : Qabs (Num.fl total) <= Qabs total + (Qabs total * u + tiny)).
  { pose proof (Qabs_triangle_reverse (Num.fl total) total). lra. }
  pose proof (Qabs_mult_close (Num.fl total) w (1 - q) e1 Hw) as Hprod.
  assert (Hread : Qabs (Num.fl total * (1 - q) - total * (1 - q)) <= Qabs total * u + tiny).
  { setoid_replace (Num.fl total * (1 - q) - total * (1 - q))
      with ((1 - q) * (Num.fl total - total)) using relation Qeq by ring.
    rewrite Qabs_Qmult, (Qabs_pos (1 - q)) by lra.
    apply Qle_trans with (1 * Qabs (Num.fl total - total)); [| lra].
    apply Qmult_le_compat_r; [lra | apply Qabs_nonneg]. }
  assert (Hy : Qabs (total * (1 - q)) <= Qabs total) by (apply Qabs_mult_unit; lra).
  set (E0 := (Qabs total + (Qabs total * u + tiny)) * e1 + (Qabs total * u + tiny)).
  assert (Hx : Qabs (Num.fl total * w - total * (1 - q)) <= E0).
  { assert (Qabs (Num.fl total) * e1 <= (Qabs total + (Qabs total * u + tiny)) * e1).
    { apply Qmult_le_compat_r; [exact Hsize |]. unfold e1. lra. }
    apply Qabs_Qle_condition in Hprod, Hread. apply Qabs_Qle_condition.
    unfold E0. lra. }
  pose proof (fl_close (Num.fl total * w) (total * (1 - q)) E0 (Qabs total) Hx Hy) as Hm.
  set (m := Num.fl (Num.fl total * w)) in *.
  set (y := total * (1 - q)) in *.
  set (E := E0 + (Qabs total + E0) * u + tiny) in *.
  split; [| split].
  - pose proof (toFixed1_near m) as Ht.
    assert (Hty : Qabs (Num.toFixed1 m - y) <= (1 # 20) + E).
    { apply Qabs_Qle_condition in Ht, Hm. apply Qabs_Qle_condition. lra. }
    pose proof (fl_close (Num.toFixed1 m) y ((1 # 20) + E) (Qabs total) Hty Hy) as Hk.
    apply Qle_trans with (1 := Hk).
    unfold E, E0, e1. lra.
  - pose proof (Math_round_near m) as [Hlow Hhigh].
    apply Qabs_Qle_condition in Hm. apply Qabs_Qle_condition.
    unfold E, E0, e1 in Hm. split; lra.
  - apply clamp_closer; [lra |].
    assert (Hx100 : Qabs (r * 100 - q * 100) <= 100 * (u + tiny)).
    { apply Qabs_Qle_condition in Hr. apply Qabs_Qle_condition. lra. }
    assert (Hy100 : Qabs (q * 100) <= 100) by (apply Qabs_Qle_condition; lra).
    pose proof (fl_close (r * 100) (q * 100) (100 * (u + tiny)) 100 Hx100 Hy100) as Hp.
    pose proof (Math_round_near (Num.fl (r * 100))) as [Hlow Hhigh].
    apply Qabs_Qle_condition in Hp. apply Qabs_Qle_condition.
    split; lra.
Qed.

(** C7 (amended). When the handler of a fix runs to its end outside the
    approaching-start state, the stats it emits are computed in doubles:
    with [ratio] the double nearest to [matchedIndex / (pathLength - 1)]
    (0 for a path of fewer than two points) and the route's totals read as
    doubles, the remaining distance is the double nearest to the
    one-decimal rounding of [totalDistance * (1 - ratio)], the ETA is
    [totalDuration * (1 - ratio)] rounded to whole minutes, and the percent
    is [round (ratio * 100)] clamped to [0, 100], each product and
    difference being rounded to the nearest double.  For a matched index
    inside the path they are within 0.05 km, half a minute and half a
    percent of the exact values, up to the error of the doubles. *)
Theorem onPosition_stats (e : hook.Event) (position : hook.Position) (s : hook.Session)
    (activeRoute : Route) :
  (e = hook.PositionFix position /\ hook.weatherCheckDue position s = false)
  \/ e = hook.WeatherAnswered position ->
  hook.activeRouteOf s = Some activeRoute ->
  let currentLiveLocation := mkLatLon (hook.latitude position) (hook.longitude position) in
  let matchedIndex :=
    geo.closestPointIndex
      (geo.getPathDataFromLocation calculateDistance currentLiveLocation
         (path activeRoute) (hook.closestPathIndexRef s)) in
  let distanceToStart := calculateDistance currentLiveLocation (latlon_of (start activeRoute)) in
  let exactRatio :=
    if (1 <? length (path activeRoute))%nat
    then Num.ofNat matchedIndex / (Num.ofNat (length (path activeRoute)) - 1)
    else 0 in
  let ratio :=
    if (1 <? length (path activeRoute))%nat
    then Num.fl (Num.ofNat matchedIndex / (Num.ofNat (length (path activeRoute)) - 1))
    else 0 in
  let s' := hook.handle calculateDistance e s in
  ~ (matchedIndex = 0%nat /\ 0.5 < distanceToStart /\ hook.emergencyRouteRef s = None) ->
  exists stats,
    hook.navigationStats s' = Some stats
    /\ hook.closestPathIndexRef s' = matchedIndex
    /\ remainingKm stats
       = Num.fl (Num.toFixed1
                   (Num.fl (Num.fl (distanceKm activeRoute) * Num.fl (1 - ratio))))
    /\ etaMinutes stats
       = Num.Math_round (Num.fl (Num.fl (durationMinutes activeRoute) * Num.fl (1 - ratio)))
    /\ progressPercent stats
       = Num.Math_max 0 (Num.Math_min 100 (Num.Math_round (Num.fl (ratio * 100))))
    /\ 0 <= progressPercent stats <= 100
    /\ ((matchedIndex < length (path activeRoute))%nat ->
        Qabs (remainingKm stats - distanceKm activeRoute * (1 - exactRatio))
        <= (1 # 20) + (Qabs (distanceKm activeRoute) + 1) * Num.pow2 (-50)
        /\ Qabs (etaMinutes stats - durationMinutes activeRoute * (1 - exactRatio))
           <= (1 # 2) + (Qabs (durationMinutes activeRoute) + 1) * Num.pow2 (-50)
        /\ Qabs (progressPercent stats - exactRatio * 100) <= (1 # 2) + Num.pow2 (-45)).
Proof.
  intros Hends Hactive. cbv zeta. intros Hnot.
  destruct (handle_ends e position s Hends) as (s1 & -> & Hkeeps).
  destruct (onPositionEnd_result position s1 s activeRoute Hkeeps Hactive) as [_ Hres].
  cbv zeta in Hres.
  destruct (hook.isNowApproachingOf _ _ _ _) eqn:Happroaching.
  { exfalso. apply Hnot. now apply isNowApproachingOf_true. }
  destruct Hres as (Hindex & _ & Hstats).
  eexists. split; [exact Hstats |]. split; [exact Hindex |].
  unfold hook.statsOf, hook.progressRatioOf, hook.newClosestPointIndexOf.
  cbn [remainingKm etaMinutes progressPercent].
  set (i := geo.closestPointIndex _).
  split; [reflexivity |]. split; [reflexivity |]. split; [reflexivity |].
  split; [apply clamp_percent |].
  intros Hinside.
  assert (Hratio : exists q r,
             (if (1 <? length (path activeRoute))%nat
              then Num.ofNat i / (Num.ofNat (length (path activeRoute)) - 1) else 0) = q
             /\ (if (1 <? length (path activeRoute))%nat
                 then Num.fl (Num.ofNat i / (Num.ofNat (length (path activeRoute)) - 1))
                 else 0) = r
             /\ 0 <= q <= 1
             /\ Qabs (r - q) <= (1 # 9007199254740992)
                                + (1 # 1267650600228229401496703205376)
             /\ 0 <= r <= 1).
  { destruct (Nat.ltb_spec 1 (length (path activeRoute))) as [Hlen | Hshort].
    - eexists _, _. split; [reflexivity |]. split; [reflexivity |].
      assert (Hd : 0 < Num.ofNat (length (path activeRoute)) - 1).
      { rewrite ofNat_pred by lia. change 0 with (Num.ofNat 0).
        unfold Num.ofNat. rewrite <- Zlt_Qlt. lia. }
      assert (Hq : 0 <= Num.ofNat i / (Num.ofNat (length (path activeRoute)) - 1) <= 1).
      { split.
        - apply Qle_shift_div_l; [exact Hd |].
          setoid_replace (0 * (Num.ofNat (length (path activeRoute)) - 1)) with 0
            using relation Qeq by ring.
          change 0 with (Num.ofNat 0). apply ofNat_mono. lia.
        - apply Qle_shift_div_r; [exact Hd |].
          rewrite ofNat_pred by lia.
          setoid_replace (1 * Num.ofNat (length (path activeRoute) - 1))
            with (Num.ofNat (length (path activeRoute) - 1)) using relation Qeq by ring.
          apply ofNat_mono. lia. }
      split; [exact Hq |]. split; [| apply fl_unit, Hq].
      pose proof (fl_close (Num.ofNat i / (Num.ofNat (length (path activeRoute)) - 1))
                    (Num.ofNat i / (Num.ofNat (length (path activeRoute)) - 1)) 0 1) as H.
      apply Qle_trans with (0 + (1 + 0) * (1 # 9007199254740992)
                            + (1 # 1267650600228229401496703205376)).
      + apply H; apply Qabs_Qle_condition; lra.
      + lra.
    - exists 0, 0. split; [reflexivity |]. split; [reflexivity |].
      split; [lra |]. split; [| lra].
      apply Qabs_Qle_condition. lra. }
  destruct Hratio as (q & r & -> & -> & Hq & Hr & Hr01).
  destruct (statsOf_close (distanceKm activeRoute) q r Hq Hr Hr01) as (H1 & _ & H3).
  destruct (statsOf_close (durationMinutes activeRoute) q r Hq Hr Hr01) as (_ & H2 & _).
  split; [exact H1 |]. split; [exact H2 | exact H3].
Qed.

(** *** Hazard alerts *)

Lemma alertsFor_app (hazardId : string) (l1 l2 : list hook.NavigationAlert) :
  hook.alertsFor hazardId (l1 ++ l2)
  = hook.alertsFor hazardId l1 ++ hook.alertsFor hazardId l2.
Proof. unfold hook.alertsFor. apply List.filter_app. Qed.

Lemma hazardAlerts_app (l1 l2 : list hook.NavigationAlert) :
  hook.hazardAlerts (l1 ++ l2) = hook.hazardAlerts l1 ++ hook.hazardAlerts l2.
Proof. unfold hook.hazardAlerts. apply List.filter_app. Qed.

Lemma marked_after (hazardId : string) (shown : gset string) :
  hazardId ∈ ({[hazardId]} ∪ shown : gset string).
Proof. apply elem_of_union_l, elem_of_singleton. reflexivity. Qed.

(** What passing the loop's test means. *)
Lemma qualifiesForAlert_true (currentLiveLocation : LatLon) (shown : gset string)
    (animal : AnimalPrediction) :
  qualifiesForAlert currentLiveLocation shown animal = true
  <-> calculateDistance currentLiveLocation (current animal) <= 2
      /\ animal_id animal ∉ shown.
Proof.
  unfold hook.qualifiesForAlert, hook.ANIMAL_ALERT_THRESHOLD_KM.
  rewrite andb_true_iff, leb_le, negb_true_iff, bool_decide_eq_false. tauto.
Qed.

(** The alerts of a handler from the alert loop on: the first qualifying
    animal's, if the ref holds no alert, and perhaps the navigation-begun
    alert on top. *)
Lemma onPositionEnd_alerts (position : hook.Position) (s : hook.Session) :
  exists begun,
    (begun = [] \/ begun = [hook.mkAlert None hook.NavigationBegun])
    /\ match hook.navigationAlertRef s,
             List.find (qualifiesForAlert
                          (mkLatLon (hook.latitude position) (hook.longitude position))
                          (hook.shownAnimalAlertsRef s))
                       (hook.animalsNearRouteRef s) with
       | None, Some animal =>
           hook.alertsRaised (onPositionEnd position s)
           = begun ++ (animalAlert (mkLatLon (hook.latitude position) (hook.longitude position))
                                   animal :: hook.alertsRaised s)
           /\ hook.shownAnimalAlertsRef (onPositionEnd position s)
              = {[animal_id animal]} ∪ hook.shownAnimalAlertsRef s
       | _, _ =>
           hook.alertsRaised (onPositionEnd position s) = begun ++ hook.alertsRaised s
           /\ hook.shownAnimalAlertsRef (onPositionEnd position s)
              = hook.shownAnimalAlertsRef s
       end.
Proof.
  unfold hook.onPositionEnd. rewrite animalAlertLoop_first.
  set (loc := mkLatLon (hook.latitude position) (hook.longitude position)).
  destruct (hook.navigationAlertRef s) as [showing |];
    [| destruct (List.find _ _) as [animal |]].
  - destruct (trackProgress_alerts loc s) as [Hshown [Hsame | Hbegun]].
    + exists []. rewrite Hshown, Hsame. auto.
    + exists [hook.mkAlert None hook.NavigationBegun]. rewrite Hshown, Hbegun. auto.
  - match goal with
    | |- context [trackProgress loc ?s2] =>
        destruct (trackProgress_alerts loc s2) as [Hshown [Hsame | Hbegun]]
    end.
    + exists []. rewrite Hshown, Hsame. auto.
    + exists [hook.mkAlert None hook.NavigationBegun]. rewrite Hshown, Hbegun. auto.
  - destruct (trackProgress_alerts loc s) as [Hshown [Hsame | Hbegun]].
    + exists []. rewrite Hshown, Hsame. auto.
    + exists [hook.mkAlert None hook.NavigationBegun]. rewrite Hshown, Hbegun. auto.
Qed.

(** The same for a handler that runs to its end at [e], in terms of the
    state [e] found. *)
Lemma handle_ends_alerts (e : hook.Event) (position : hook.Position) (s : hook.Session) :
  ends e position s ->
  exists begun,
    (begun = [] \/ begun = [hook.mkAlert None hook.NavigationBegun])
    /\ match hook.navigationAlertRef s,
             List.find (qualifiesForAlert
                          (mkLatLon (hook.latitude position) (hook.longitude position))
                          (hook.shownAnimalAlertsRef s))
                       (hook.animalsNearRouteRef s) with
       | None, Some animal =>
           hook.alertsRaised (hook.handle calculateDistance e s)
           = begun ++ (animalAlert (mkLatLon (hook.latitude position) (hook.longitude position))
                                   animal :: hook.alertsRaised s)
           /\ hook.shownAnimalAlertsRef (hook.handle calculateDistance e s)
              = {[animal_id animal]} ∪ hook.shownAnimalAlertsRef s
       | _, _ =>
           hook.alertsRaised (hook.handle calculateDistance e s) = begun ++ hook.alertsRaised s
           /\ hook.shownAnimalAlertsRef (hook.handle calculateDistance e s)
              = hook.shownAnimalAlertsRef s
       end.
Proof.
  intros Hends. destruct (handle_ends e position s Hends) as (s1 & -> & Hkeeps).
  destruct Hkeeps as (H1 & H2 & H3 & H4 & _).
  destruct (onPositionEnd_alerts position s1) as (begun & Hbegun & Hcase).
  rewrite H1, H2, H3, H4 in Hcase. exists begun. split; [exact Hbegun | exact Hcase].
Qed.

(** What one such event adds. *)
Lemma handle_ends_adds (e : hook.Event) (position : hook.Position) (s : hook.Session) :
  ends e position s ->
  exists added,
    hook.alertsRaised (hook.handle calculateDistance e s) = added ++ hook.alertsRaised s
    /\ hook.shownAnimalAlertsRef s ⊆ hook.shownAnimalAlertsRef (hook.handle calculateDistance e s)
    /\ (length (hook.hazardAlerts added) <= 1)%nat
    /\ (forall alert animal,
          In alert added -> hook.animal alert = Some animal ->
          hook.navigationAlertRef s = None
          /\ List.find (qualifiesForAlert
                          (mkLatLon (hook.latitude position) (hook.longitude position))
                          (hook.shownAnimalAlertsRef s))
                       (hook.animalsNearRouteRef s) = Some animal
          /\ In animal (hook.animalsNearRouteRef s)
          /\ calculateDistance (mkLatLon (hook.latitude position) (hook.longitude position))
                               (current animal) <= 2
          /\ (animal_id animal ∉ hook.shownAnimalAlertsRef s)
          /\ (animal_id animal ∈ hook.shownAnimalAlertsRef (hook.handle calculateDistance e s))).
Proof.
  intros Hends.
  destruct (handle_ends_alerts e position s Hends) as (begun & Hbegun & Hcase).
  destruct (hook.navigationAlertRef s) as [showing |];
    [| destruct (List.find _ _) as [animal |] eqn:Hfind].
  - destruct Hcase as [Hlog Hshown]. exists begun. split; [exact Hlog |].
    split; [now rewrite Hshown |].
    destruct Hbegun as [Hb | Hb]; rewrite Hb; (split; [cbn; lia |]);
      intros alert animal Hin Hsome; cbn in Hin; [tauto |].
    destruct Hin as [<- | []]. discriminate.
  - destruct Hcase as [Hlog Hshown].
    exists (begun ++ [animalAlert (mkLatLon (hook.latitude position) (hook.longitude position))
                        animal]).
    split; [now rewrite Hlog, <- app_assoc |].
    split; [rewrite Hshown; apply union_subseteq_r |]. split.
    + rewrite hazardAlerts_app. destruct Hbegun as [Hb | Hb]; rewrite Hb; cbn; lia.
    + intros alert an Hin Hsome. apply in_app_or in Hin.
      destruct Hin as [Hin | [<- | []]].
      * destruct Hbegun as [Hb | Hb]; rewrite Hb in Hin; cbn in Hin; [tauto |].
        destruct Hin as [<- | []]. discriminate.
      * cbn in Hsome. injection Hsome as <-.
        pose proof (find_some _ _ Hfind) as [Hmember Hq].
        apply qualifiesForAlert_true in Hq. destruct Hq as [Hnear Hfresh].
        rewrite Hshown. repeat split; try assumption. apply marked_after.
  - destruct Hcase as [Hlog Hshown]. exists begun. split; [exact Hlog |].
    split; [now rewrite Hshown |].
    destruct Hbegun as [Hb | Hb]; rewrite Hb; (split; [cbn; lia |]);
      intros alert animal Hin Hsome; cbn in Hin; [tauto |].
    destruct Hin as [<- | []]. discriminate.
Qed.

(** What any event adds. *)
Lemma handle_adds (e : hook.Event) (s : hook.Session) :
  exists added,
    hook.alertsRaised (hook.handle calculateDistance e s) = added ++ hook.alertsRaised s
    /\ hook.shownAnimalAlertsRef s ⊆ hook.shownAnimalAlertsRef (hook.handle calculateDistance e s)
    /\ (length (hook.hazardAlerts added) <= 1)%nat
    /\ (forall alert animal,
          In alert added -> hook.animal alert = Some animal ->
          (animal_id animal ∉ hook.shownAnimalAlertsRef s)
          /\ (animal_id animal ∈ hook.shownAnimalAlertsRef (hook.handle calculateDistance e s))).
Proof.
  assert (Hends : forall position, ends e position s ->
            exists added,
              hook.alertsRaised (hook.handle calculateDistance e s)
              = added ++ hook.alertsRaised s
              /\ hook.shownAnimalAlertsRef s
                 ⊆ hook.shownAnimalAlertsRef (hook.handle calculateDistance e s)
              /\ (length (hook.hazardAlerts added) <= 1)%nat
              /\ (forall alert animal,
                    In alert added -> hook.animal alert = Some animal ->
                    (animal_id animal ∉ hook.shownAnimalAlertsRef s)
                    /\ (animal_id animal
                        ∈ hook.shownAnimalAlertsRef (hook.handle calculateDistance e s)))).
  { intros position H.
    destruct (handle_ends_adds e position s H) as (added & H1 & H2 & H3 & H4).
    exists added. split; [exact H1 |]. split; [exact H2 |]. split; [exact H3 |].
    intros alert animal Hin Hsome. destruct (H4 alert animal Hin Hsome) as (_ & _ & _ & _ & K).
    exact K. }
  destruct e as [position | position | | | | animals | route place].
  - destruct (hook.weatherCheckDue position s) eqn:Hdue.
    + cbn [hook.handle]. rewrite Hdue.
      destruct (onPositionBegin_keeps position s) as (_ & _ & H3 & H4 & _).
      exists []. split; [exact H4 |]. split; [now rewrite H3 |]. split; [cbn; lia |].
      intros alert animal [].
    + apply (Hends position). left. split; [reflexivity | exact Hdue].
  - apply (Hends position). right. reflexivity.
  - exists [hook.mkAlert None hook.SignalLost]. split; [reflexivity |].
    split; [reflexivity |]. split; [cbn; lia |].
    intros alert animal [<- | []]. discriminate.
  - exists []. split; [reflexivity |]. split; [reflexivity |]. split; [cbn; lia |].
    intros alert animal [].
  - exists []. split; [reflexivity |]. split; [reflexivity |]. split; [cbn; lia |].
    intros alert animal [].
  - exists []. split; [reflexivity |]. split; [reflexivity |]. split; [cbn; lia |].
    intros alert animal [].
  - exists [hook.mkAlert None (hook.Rerouting place)]. split; [reflexivity |].
    split; [reflexivity |]. split; [cbn; lia |].
    intros alert animal [<- | []]. discriminate.
Qed.

Lemma alertsFor_le_hazardAlerts (hazardId : string) (l : list hook.NavigationAlert) :
  (length (hook.alertsFor hazardId l) <= length (hook.hazardAlerts l))%nat.
Proof.
  unfold hook.alertsFor, hook.hazardAlerts.
  induction l as [| [[an |] m] l IH]; cbn [List.filter hook.animal length]; [lia | | exact IH].
  destruct (String.eqb (animal_id an) hazardId); cbn [length]; lia.
Qed.

Lemma alertsFor_nonempty (hazardId : string) (l : list hook.NavigationAlert) :
  hook.alertsFor hazardId l <> [] ->
  exists alert an,
    In alert l /\ hook.animal alert = Some an /\ animal_id an = hazardId.
Proof.
  intros Hne. destruct (hook.alertsFor hazardId l) as [| alert rest] eqn:Hfor; [tauto |].
  assert (Hin : In alert (hook.alertsFor hazardId l)) by (rewrite Hfor; left; reflexivity).
  apply filter_In in Hin. destruct Hin as [Hin Hkeep].
  destruct (hook.animal alert) as [an |] eqn:Han; [| discriminate].
  exists alert, an. repeat split; [exact Hin | exact Han | now apply String.eqb_eq].
Qed.

(** Since some point of the past: each hazard was alerted at most once,
    and every alerted hazard is marked. *)
Lemma handle_alert_invariant (e : hook.Event) (s : hook.Session)
    (base new : list hook.NavigationAlert) :
  hook.alertsRaised s = new ++ base ->
  (forall hazardId,
      (length (hook.alertsFor hazardId new) <= 1)%nat
      /\ (hook.alertsFor hazardId new <> [] -> hazardId ∈ hook.shownAnimalAlertsRef s)) ->
  exists new',
    hook.alertsRaised (hook.handle calculateDistance e s) = new' ++ base
    /\ (forall hazardId,
          (length (hook.alertsFor hazardId new') <= 1)%nat
          /\ (hook.alertsFor hazardId new' <> [] ->
              hazardId ∈ hook.shownAnimalAlertsRef (hook.handle calculateDistance e s))).
Proof.
  intros Hlog Hinv.
  destruct (handle_adds e s) as (added & Hadded & Hsub & Hone & Hfresh).
  exists (added ++ new). split; [now rewrite Hadded, Hlog, app_assoc |].
  intros hazardId. destruct (Hinv hazardId) as [Hle Hmarked].
  rewrite alertsFor_app, length_app.
  pose proof (alertsFor_le_hazardAlerts hazardId added) as Hle'.
  destruct (hook.alertsFor hazardId added) as [| alert rest] eqn:Hfor.
  - cbn [length app]. split; [lia |]. intros Hne. apply Hsub, Hmarked, Hne.
  - destruct (alertsFor_nonempty hazardId added) as (al & an & Hin & Han & Hid);
      [rewrite Hfor; discriminate |].
    destruct (Hfresh al an Hin Han) as [Hnotin Hin']. rewrite Hid in Hnotin, Hin'.
    destruct (hook.alertsFor hazardId new) as [| x xs] eqn:Hold.
    + cbn [length] in *. split; [lia | intros _; exact Hin'].
    + exfalso. apply Hnotin, Hmarked. discriminate.
Qed.

Lemma run_alert_invariant (events : list hook.Event) (s : hook.Session)
    (base new : list hook.NavigationAlert) :
  hook.alertsRaised s = new ++ base ->
  (forall hazardId,
      (length (hook.alertsFor hazardId new) <= 1)%nat
      /\ (hook.alertsFor hazardId new <> [] -> hazardId ∈ hook.shownAnimalAlertsRef s)) ->
  exists new',
    hook.alertsRaised (hook.run calculateDistance events s) = new' ++ base
    /\ (forall hazardId,
          (length (hook.alertsFor hazardId new') <= 1)%nat
          /\ (hook.alertsFor hazardId new' <> [] ->
              hazardId ∈ hook.shownAnimalAlertsRef (hook.run calculateDistance events s))).
Proof.
  unfold hook.run. revert s new.
  induction events as [| e events IH]; intros s new Hlog Hinv; cbn [fold_left].
  - exists new. split; assumption.
  - destruct (handle_alert_invariant e s base new Hlog Hinv) as (new1 & Hlog1 & Hinv1).
    apply (IH _ new1 Hlog1 Hinv1).
Qed.

(** From the start of a session on, whatever fixes, weather answers,
    errors, renders, dismissals, updates and reroutes follow, no hazard is
    alerted twice. *)
Lemma hazard_alerted_at_most_once (route : Route) (s : hook.Session)
    (events : list hook.Event) :
  exists new,
    hook.alertsRaised (hook.run calculateDistance events (hook.startNavigation route s))
    = new ++ hook.alertsRaised s
    /\ forall hazardId, (length (hook.alertsFor hazardId new) <= 1)%nat.
Proof.
  destruct (run_alert_invariant events (hook.startNavigation route s)
              (hook.alertsRaised s) []) as (new & Hlog & Hinv).
  - reflexivity.
  - intros hazardId. cbn. split; [lia | tauto].
  - exists new. split; [exact Hlog |]. intros hazardId. apply Hinv.
Qed.

(** When a handler ends within 2 km of a hazard not yet alerted, first
    of the list to qualify, with no alert in the ref, and the next one ends
    within 2 km of it too, the two raise exactly one alert for it, with or
    without a render in between. *)
Lemma two_fixes_one_alert (s : hook.Session) (e1 e2 : hook.Event)
    (first second : hook.Position) (hazard : AnimalPrediction)
    (between : list hook.Event) :
  ends e1 first s ->
  ends e2 second (hook.run calculateDistance (e1 :: between) s) ->
  hook.navigationAlertRef s = None ->
  List.find (qualifiesForAlert
               (mkLatLon (hook.latitude first) (hook.longitude first))
               (hook.shownAnimalAlertsRef s))
            (hook.animalsNearRouteRef s) = Some hazard ->
  between = [] \/ between = [hook.Rendered] ->
  exists new,
    hook.alertsRaised (hook.run calculateDistance (e1 :: between ++ [e2]) s)
    = new ++ hook.alertsRaised s
    /\ length (hook.alertsFor (animal_id hazard) new) = 1%nat.
Proof.
  intros Hends1 Hends2 Hquiet Hfind Hbetween.
  destruct (handle_ends_alerts e1 first s Hends1) as (begun & Hbegun & Hcase).
  rewrite Hquiet, Hfind in Hcase. destruct Hcase as [Hlog1 Hshown1].
  unfold hook.run in *. cbn [fold_left] in *.
  set (s1 := hook.handle calculateDistance e1 s) in *.
  assert (Hmid : hook.alertsRaised (fold_left (fun s e => hook.handle calculateDistance e s)
                                              between s1)
                 = hook.alertsRaised s1
                 /\ hook.shownAnimalAlertsRef
                      (fold_left (fun s e => hook.handle calculateDistance e s) between s1)
                    = hook.shownAnimalAlertsRef s1).
  { destruct Hbetween as [-> | ->]; split; reflexivity. }
  destruct Hmid as (Hlog' & Hshown').
  rewrite fold_left_app. cbn [fold_left].
  set (s1' := fold_left _ between s1) in *.
  destruct (handle_adds e2 s1') as (added & Hadded & _ & _ & Hfresh).
  exists (added ++ begun
            ++ [animalAlert (mkLatLon (hook.latitude first) (hook.longitude first)) hazard]).
  split.
  - rewrite Hadded, Hlog', Hlog1, <- !app_assoc. reflexivity.
  - rewrite !alertsFor_app.
    assert (Hnone : hook.alertsFor (animal_id hazard) added = []).
    { destruct (hook.alertsFor (animal_id hazard) added) as [| x xs] eqn:Hfor;
        [reflexivity | exfalso].
      destruct (alertsFor_nonempty (animal_id hazard) added) as (al & an & Hin & Han & Hid);
        [rewrite Hfor; discriminate |].
      destruct (Hfresh al an Hin Han) as [Hnotin _].
      apply Hnotin. rewrite Hid, Hshown', Hshown1. apply marked_after. }
    rewrite Hnone. cbn [app].
    destruct Hbegun as [Hb | Hb]; rewrite Hb; cbn; now rewrite String.eqb_refl.
Qed.

(** The alert on show after the last steps. *)
Lemma trackProgress_showing (currentLiveLocation : LatLon) (s : hook.Session) :
  hook.navigationAlert (trackProgress currentLiveLocation s) = hook.navigationAlert s
  \/ hook.navigationAlert (trackProgress currentLiveLocation s)
     = Some (hook.mkAlert None hook.NavigationBegun).
Proof.
  unfold hook.trackProgress.
  destruct (hook.activeRouteOf s) as [activeRoute |]; [| left; reflexivity].
  destruct (hook.isNowApproachingOf _ _ _ _);
    destruct (hook.isApproachingStartRef s); cbn;
    (left; reflexivity) || (right; reflexivity).
Qed.

(** C4. The handler tests the ref that mirrors the alert on show, and
    the ref follows the alert only when the component has rendered.  So a
    fix handled before that render, while an alert is on show, raises the
    alert of the first hazard of the list that is within 2 km and not yet
    alerted, and the alert on show gives way to it (or to the
    navigation-begun alert raised after it), against the handler's own
    comment: an alert is triggered if there isn't one already active. *)
Theorem hazard_alert_over_showing_alert (position : hook.Position) (s : hook.Session)
    (showing : hook.NavigationAlert) (hazard : AnimalPrediction) :
  hook.weatherCheckDue position s = false ->
  hook.navigationAlert s = Some showing ->
  hook.navigationAlertRef s = None ->
  List.find (qualifiesForAlert
               (mkLatLon (hook.latitude position) (hook.longitude position))
               (hook.shownAnimalAlertsRef s))
            (hook.animalsNearRouteRef s) = Some hazard ->
  let currentLiveLocation := mkLatLon (hook.latitude position) (hook.longitude position) in
  let s' := hook.handle calculateDistance (hook.PositionFix position) s in
  hook.hazardAlerts (hook.alertsRaised s')
  = animalAlert currentLiveLocation hazard :: hook.hazardAlerts (hook.alertsRaised s)
  /\ (hook.navigationAlert s' = Some (animalAlert currentLiveLocation hazard)
      \/ hook.navigationAlert s' = Some (hook.mkAlert None hook.NavigationBegun)).
Proof.
  intros Hdue Hshowing Hstale Hfind. cbv zeta. split.
  - destruct (handle_ends_alerts (hook.PositionFix position) position s)
      as (begun & Hbegun & Hcase); [left; split; [reflexivity | exact Hdue] |].
    rewrite Hstale, Hfind in Hcase. destruct Hcase as [-> _].
    rewrite hazardAlerts_app. destruct Hbegun as [-> | ->]; reflexivity.
  - cbn [hook.handle]. rewrite Hdue. unfold hook.onPositionEnd.
    destruct (onPositionBegin_keeps position s) as (H1 & H2 & H3 & _).
    rewrite animalAlertLoop_first, H1, H2, H3, Hstale, Hfind.
    match goal with
    | |- context [trackProgress ?loc ?s2] =>
        destruct (trackProgress_showing loc s2) as [Hsame | Hbegun]
    end.
    + left. rewrite Hsame. reflexivity.
    + right. exact Hbegun.
Qed.

End HandlerFacts.

(** ** The theorems at work on sample inputs *)

(** Three waypoints, two samples per segment: the path ends with the last
    waypoint and starts at the first. *)
Lemma createSplinePath_through_waypoints_witness :
  (0 < 2)%nat
  /\ last (geo.createSplinePath [(0, 0); (1, 1); (2, 0)] 2 (1 # 2)) = Some (2, 0)
  /\ exists first, head (geo.createSplinePath [(0, 0); (1, 1); (2, 0)] 2 (1 # 2)) = Some first
                   /\ coord_eq first (0, 0).
Proof.
  split; [lia |].
  destruct (createSplinePath_through_waypoints 2 (1 # 2) [(0, 0); (1, 1); (2, 0)])
    as [_ Hlong]; [lia |].
  destruct Hlong as (Hfirst & Hlast & _); [simpl; lia |].
  split; [exact Hlast | exact Hfirst].
Defined.

(** The stand-in tensor library is as accurate as single precision. *)
Lemma sample_tf_accurate :
  (forall a b, Qabs (api.t_sub sample.tf a b - (a - b))
               <= Num.pow2 (-23) * Qabs (a - b) + Num.pow2 (-149))
  /\ (forall a b, Qabs (api.t_add sample.tf a b - (a + b))
                  <= Num.pow2 (-23) * Qabs (a + b) + Num.pow2 (-149))
  /\ (forall l B, l <> [] -> Forall (fun x => Qabs x <= B) l ->
                  Qabs (api.t_mean sample.tf l - api.mean l)
                  <= Num.pow2 (-23) * B + Num.pow2 (-149)).
Proof.
  assert (Herr : forall x B, Qabs x <= B ->
                   Qabs (Num.fround x - x) <= Num.pow2 (-23) * B + Num.pow2 (-149)).
  { intros x B HB. apply Qle_trans with (1 := roundTo_error 24 (-149) x).
    pose proof (Qabs_nonneg x) as Hx.
    assert (H1 : Qabs x * Num.pow2 (- (24)) <= Num.pow2 (-23) * B).
    { rewrite (Qmult_comm (Num.pow2 (-23))).
      apply Qle_trans with (B * Num.pow2 (- (24))).
      - apply Qmult_le_compat_r; [exact HB | apply Qlt_le_weak, pow2_pos].
      - rewrite !(Qmult_comm B).
        apply Qmult_le_compat_r; [apply pow2_le; lia | lra]. }
    assert (H2 : Num.pow2 (-149 - 1) <= Num.pow2 (-149)) by (apply pow2_le; lia).
    lra. }
  split; [| split].
  - intros a b. apply Herr, Qle_refl.
  - intros a b. apply Herr, Qle_refl.
  - intros l B Hl Hall. apply Herr. now apply mean_bound.
Qed.

(** The tiger moved by (1, 2) and then by (2, 4): the mean step is
    (1.5, 3), and the two waypoints are (4.5, 9) and (6, 12) up to the
    error of single precision. *)
Lemma predictAnimalPaths_extrapolates_witness :
  exists pred1 pred2,
    In (api.mkGroup "Panthera tigris" [pred1; pred2])
       (api.predictAnimalPaths sample.Math_cos sample.Math_sin sample.Math_PI sample.tf true
          [sample.tigerSightings; sample.bearSighting; sample.noSighting] sample.randoms)
    /\ Qabs (lat pred1 - (9 # 2)) <= 1 # 100000 /\ Qabs (lon pred1 - 9) <= 1 # 100000
    /\ Qabs (lat pred2 - 6) <= 1 # 50000 /\ Qabs (lon pred2 - 12) <= 1 # 50000.
Proof.
  destruct sample_tf_accurate as (Hsub & Hadd & Hmean).
  destruct (predictAnimalPaths_extrapolates sample.Math_cos sample.Math_sin sample.Math_PI
              sample.tf (Num.pow2 (-23)) (Num.pow2 (-149)) 6 2
              ltac:(split; [apply Qle_refl | vm_compute; discriminate])
              ltac:(apply Qle_refl) ltac:(discriminate) Hsub Hadd
              (fun l B Hl _ => Hmean l B Hl)
              [sample.tigerSightings; sample.bearSighting; sample.noSighting] sample.randoms)
    as [Hmany _].
  destruct (Hmany sample.tigerSightings (mkSighting 3 6 None)
              [mkSighting 2 4 None; mkSighting 0 0 None])
    as (pred1 & pred2 & Hin & H1 & H2 & H3 & H4);
    [left; reflexivity | reflexivity | simpl; lia | |].
  { repeat constructor; cbn; discriminate. }
  exists pred1, pred2. split; [exact Hin |].
  assert (Hlat : fst (api.meanDisplacement (api.sightings sample.tigerSightings)) == 3 # 2)
    by (vm_compute; reflexivity).
  assert (Hlon : snd (api.meanDisplacement (api.sightings sample.tigerSightings)) == 3)
    by (vm_compute; reflexivity).
  assert (Heps : Num.pow2 (-23) == 1 # 8388608) by reflexivity.
  assert (Heta : Num.pow2 (-149) <= 1 # 1099511627776) by (vm_compute; discriminate).
  cbn [s_lat s_lon] in H1, H2, H3, H4.
  rewrite Heps in H1, H2, H3, H4.
  apply Qabs_Qle_condition in H1, H2, H3, H4.
  repeat split; apply Qabs_Qle_condition; lra.
Defined.

(** C9, as stated, fails: of an animal seen twice at latitude 11.43 the
    first waypoint has latitude 11.430000305175781, the single nearest to
    11.43, and not the latitude of the last sighting moved by the mean
    displacement, which is zero. *)
Lemma predictAnimalPaths_single_precision :
  exists pred1 pred2,
    api.predictAnimalPaths sample.Math_cos sample.Math_sin sample.Math_PI sample.tf true
      [sample.restingTiger] sample.randoms
    = [api.mkGroup "Panthera tigris" [pred1; pred2]]
    /\ fst (api.meanDisplacement (api.sightings sample.restingTiger)) == 0
    /\ lat pred1 == 1498153 # 131072
    /\ ~ lat pred1 == 11.43
                      + fst (api.meanDisplacement (api.sightings sample.restingTiger)).
Proof.
  eexists _, _. split; [vm_compute; reflexivity |].
  split; [vm_compute; reflexivity |]. split; [vm_compute; reflexivity |].
  vm_compute. discriminate.
Qed.

(** The first fix of a session raises the elephant's alert; the next
    fix, a second later and before the component has rendered, raises the
    gaur's alert while the elephant's is on show. *)
Lemma hazard_alert_over_showing_alert_witness :
  hook.navigationAlert sample.alerted
  = Some (hook.animalAlert sample.gridDistance (mkLatLon 0 (1 # 100)) sample.elephant)
  /\ hook.hazardAlerts
       (hook.alertsRaised
          (hook.handle sample.gridDistance (hook.PositionFix sample.nextFix) sample.alerted))
     = [hook.animalAlert sample.gridDistance (mkLatLon 0 (1 # 100)) sample.gaur;
        hook.animalAlert sample.gridDistance (mkLatLon 0 (1 # 100)) sample.elephant].
Proof.
  assert (Hshowing :
            hook.navigationAlert sample.alerted
            = Some (hook.animalAlert sample.gridDistance (mkLatLon 0 (1 # 100))
                      sample.elephant))
    by (vm_compute; reflexivity).
  split; [exact Hshowing |].
  destruct (hazard_alert_over_showing_alert sample.gridDistance sample.nextFix sample.alerted
              (hook.animalAlert sample.gridDistance (mkLatLon 0 (1 # 100)) sample.elephant)
              sample.gaur)
    as [Hraised _].
  - vm_compute. reflexivity.
  - exact Hshowing.
  - vm_compute. reflexivity.
  - vm_compute. reflexivity.
  - cbv zeta in Hraised. rewrite Hraised. vm_compute. reflexivity.
Defined.

(** C5, as stated, fails: on the trail, a fix at the last vertex and then
    one at the second vertex take the matched index from 3 back to 1, with
    no reset in between. *)
Lemma matched_index_moves_back :
  hook.closestPathIndexRef
    (hook.run sample.gridDistance [hook.PositionFix (sample.fixAt 3)] sample.onTrail)
  = 3%nat
  /\ hook.closestPathIndexRef
       (hook.run sample.gridDistance
          [hook.PositionFix (sample.fixAt 3); hook.PositionFix (sample.fixAt 1)]
          sample.onTrail)
     = 1%nat.
Proof. split; vm_compute; reflexivity. Qed.

(** On the long trail, with the matched index at 30, a fix at the sixth
    vertex sets it to 10: the search starts twenty vertices back and finds
    nothing nearer from there on. *)
Lemma matched_index_regress_bounded_witness :
  hook.closestPathIndexRef sample.farAlong = 30%nat
  /\ hook.closestPathIndexRef
       (hook.handle sample.gridDistance (hook.PositionFix (sample.fixAt 5)) sample.farAlong)
     = 10%nat.
Proof.
  split; [vm_compute; reflexivity |].
  destruct (matched_index_regress_bounded sample.gridDistance
              (hook.PositionFix (sample.fixAt 5)) (sample.fixAt 5) sample.farAlong)
    as [Hends _].
  cbv zeta in Hends.
  assert (Hactive : hook.activeRouteOf sample.farAlong = Some sample.longTrail)
    by (vm_compute; reflexivity).
  rewrite Hactive in Hends.
  destruct Hends as (_ & Hset & _); [left; split; reflexivity |].
  destruct Hset as [_ Hindex].
  - intros (Hzero & _). vm_compute in Hzero. discriminate.
  - rewrite Hindex. vm_compute. reflexivity.
Defined.

(** A fix one degree north of the trailhead: the session is approaching
    the start and shows the trail's totals. *)
Lemma onPosition_approaching_start_witness :
  hook.isApproachingStartRef
    (hook.onPosition sample.gridDistance (hook.mkPosition 1 0 0 None) sample.onTrail) = true
  /\ hook.navigationStats
       (hook.onPosition sample.gridDistance (hook.mkPosition 1 0 0 None) sample.onTrail)
     = Some (mkStats 10 30 0).
Proof.
  destruct (onPosition_approaching_start sample.gridDistance (hook.mkPosition 1 0 0 None)
              sample.onTrail sample.trail
              (hook.mkSnapshot (start sample.trail) (end_ sample.trail) walk 10 30))
    as (Hiff & Hthen & _); [reflexivity | reflexivity |].
  assert (Happroaching :
            hook.isApproachingStartRef
              (hook.onPosition sample.gridDistance (hook.mkPosition 1 0 0 None) sample.onTrail)
            = true).
  { apply Hiff. vm_compute. repeat split. }
  split; [exact Happroaching | apply (Hthen Happroaching)].
Defined.

(** A fix at the second of the trail's four vertices, a third of the
    way: 6.7 km remain, as a double, and 33 %. *)
Lemma onPosition_stats_witness :
  exists stats,
    hook.navigationStats
      (hook.handle sample.gridDistance (hook.PositionFix (sample.fixAt 1)) sample.onTrail)
    = Some stats
    /\ remainingKm stats = Num.fl (67 # 10)
    /\ etaMinutes stats == 20
    /\ progressPercent stats == 33
    /\ Qabs (remainingKm stats - 10 * (1 - (1 # 3))) <= (1 # 20) + 11 * Num.pow2 (-50).
Proof.
  destruct (onPosition_stats sample.gridDistance (hook.PositionFix (sample.fixAt 1))
              (sample.fixAt 1) sample.onTrail sample.trail)
    as (stats & Hstats & _ & Hremaining & Heta & Hpercent & _ & Hclose);
    [left; split; reflexivity | reflexivity | |].
  - vm_compute. intros (Hzero & _). discriminate.
  - exists stats. split; [exact Hstats |].
    split; [rewrite Hremaining; vm_compute; reflexivity |].
    split; [rewrite Heta; vm_compute; reflexivity |].
    split; [rewrite Hpercent; vm_compute; reflexivity |].
    destruct Hclose as (Hkm & _); [vm_compute; lia |].
    apply Qle_trans with (1 := Hkm). vm_compute. discriminate.
Defined.

(** C7, as stated, fails.  At that fix the remaining distance is
    10 * (1 - 1/3) km, and the stats say 6.7.  On the long trail, matched
    at vertex 29 of 201, the ratio times 100 is 14.5 and rounds to 15, and
    the stats say 14 %: in doubles the product is just below 14.5. *)
Lemma onPosition_stats_rounded :
  (exists stats,
      hook.navigationStats
        (hook.handle sample.gridDistance (hook.PositionFix (sample.fixAt 1)) sample.onTrail)
      = Some stats
      /\ hook.isApproachingStartRef
           (hook.handle sample.gridDistance (hook.PositionFix (sample.fixAt 1)) sample.onTrail)
         = false
      /\ hook.closestPathIndexRef
           (hook.handle sample.gridDistance (hook.PositionFix (sample.fixAt 1)) sample.onTrail)
         = 1%nat
      /\ length (path sample.trail) = 4%nat
      /\ remainingKm stats = Num.fl (67 # 10)
      /\ ~ remainingKm stats == distanceKm sample.trail * (1 - (1 # 3)))
  /\ (exists stats,
        hook.navigationStats
          (hook.handle sample.gridDistance (hook.PositionFix (sample.fixAt 29))
             sample.onLongTrail)
        = Some stats
        /\ hook.closestPathIndexRef
             (hook.handle sample.gridDistance (hook.PositionFix (sample.fixAt 29))
                sample.onLongTrail)
           = 29%nat
        /\ length (path sample.longTrail) = 201%nat
        /\ progressPercent stats == 14
        /\ Num.Math_max 0 (Num.Math_min 100 (Num.Math_round ((29 # 200) * 100))) == 15).
Proof.
  split.
  - eexists. split; [vm_compute; reflexivity |].
    repeat split; try (vm_compute; reflexivity).
    vm_compute. discriminate.
  - eexists. split; [vm_compute; reflexivity |].
    repeat split; vm_compute; reflexivity.
Qed.

(** * More of the geometry service *)

Section MoreSplineFacts.

Variable substeps : nat.
Variable tension : Q.

Lemma length_flat_map_blocks {A B : Type} (f : A -> list B) (k : nat) (l : list A) :
  (forall x, length (f x) = k) -> length (flat_map f l) = (length l * k)%nat.
Proof.
  intros Hk. induction l as [| x l IH]; [reflexivity |].
  cbn [flat_map length]. rewrite length_app, Hk, IH. lia.
Qed.

(** X1. Two waypoints or more give [substeps + 1] samples for each of the
    [n - 1] segments and the last waypoint once more. *)
Theorem createSplinePath_length (waypoints : list Coord) :
  (2 <= length waypoints)%nat ->
  length (geo.createSplinePath waypoints substeps tension)
  = ((length waypoints - 1) * (substeps + 1) + 1)%nat.
Proof.
  intros Hlen.
  destruct (createSplinePath_long substeps tension waypoints Hlen)
    as (first & rest & Hpath & _ & Hsegs).
  rewrite Hpath, length_app, Hsegs.
  rewrite (length_flat_map_blocks _ (substeps + 1)).
  - rewrite length_seq. cbn [length]. lia.
  - intros i. unfold geo.splineSegment. rewrite length_map, length_seq. lia.
Qed.

End MoreSplineFacts.

Lemma createSplinePath_length_witness :
  length (geo.createSplinePath [(0, 0); (1, 1); (2, 0)] 150 (1 # 2)) = 303%nat.
Proof.
  rewrite (createSplinePath_length 150 (1 # 2) [(0, 0); (1, 1); (2, 0)]);
    [reflexivity | simpl; lia].
Defined.

Section SphereFacts.

Variables Math_cos Math_sin Math_asin Math_sqrt : Q -> Q.
Variable Math_atan2 : Q -> Q -> Q.
Variable Math_PI : Q.

Local Abbreviation createCirclePolygon :=
  (geoService.createCirclePolygon Math_cos Math_sin Math_asin Math_atan2 Math_PI).
Local Abbreviation circleVertex :=
  (geoService.circleVertex Math_cos Math_sin Math_asin Math_atan2 Math_PI).


(** X3. The distance is symmetric, and zero from a point to itself, for
    any cosine that is even and 1 at 0 and any square root and arc sine
    that are 0 at 0. *)
Theorem calculateDistance_symmetric (a b : LatLon) :
  Proper (Qeq ==> Qeq) Math_cos ->
  Proper (Qeq ==> Qeq) Math_sqrt ->
  Proper (Qeq ==> Qeq) Math_asin ->
  (forall x, Math_cos (- x) == Math_cos x) ->
  Math_cos 0 == 1 -> Math_sqrt 0 == 0 -> Math_asin 0 == 0 ->
  geoService.calculateDistance Math_cos Math_asin Math_sqrt Math_PI a b
  == geoService.calculateDistance Math_cos Math_asin Math_sqrt Math_PI b a
  /\ geoService.calculateDistance Math_cos Math_asin Math_sqrt Math_PI a a == 0.
Proof.
  intros Hcos Hsqrt Hasin Heven Hcos0 Hsqrt0 Hasin0.
  unfold geoService.calculateDistance. cbv zeta. split.
  - assert (Hlat : (lat b - lat a) * Math_PI / 180 == - ((lat a - lat b) * Math_PI / 180))
      by field.
    assert (Hlon : (lon b - lon a) * Math_PI / 180 == - ((lon a - lon b) * Math_PI / 180))
      by field.
    rewrite Hlat, Hlon, !Heven.
    apply Qmult_comp; [reflexivity |]. apply Hasin, Hsqrt. field.
  - assert (Hlat : (lat a - lat a) * Math_PI / 180 == 0) by field.
    assert (Hlon : (lon a - lon a) * Math_PI / 180 == 0) by field.
    rewrite Hlat, Hlon, Hcos0.
    assert (Hzero : 0.5 - 1 / 2
                    + Math_cos (lat a * Math_PI / 180) * Math_cos (lat a * Math_PI / 180)
                      * (1 - 1) / 2 == 0) by field.
    rewrite Hzero, Hsqrt0, Hasin0. ring.
Qed.

End SphereFacts.

Section FlatFacts.

Variable calculateDistance : LatLon -> LatLon -> Q.

Local Abbreviation calculatePolylineDistance :=
  (geoService.calculatePolylineDistance calculateDistance).
Local Abbreviation findClosestSafePlace :=
  (geoService.findClosestSafePlace calculateDistance).

(** The distance between two vertices. *)
Local Abbreviation leg p q :=
  (calculateDistance (mkLatLon (fst p) (snd p)) (mkLatLon (fst q) (snd q))).

Lemma fold_left_add (f : nat -> Q) (l : list nat) (acc : Q) :
  fold_left (fun total i => total + f i) l acc
  == acc + fold_left (fun total i => total + f i) l 0.
Proof.
  revert acc. induction l as [| i l IH]; intros acc; cbn [fold_left].
  - ring.
  - rewrite (IH (acc + f i)), (IH (0 + f i)). ring.
Qed.

Lemma fold_left_shift (f : nat -> Q) (a n : nat) (acc : Q) :
  fold_left (fun total i => total + f i) (seq (S a) n) acc
  = fold_left (fun total i => total + f (S i)) (seq a n) acc.
Proof.
  revert a acc. induction n as [| n IH]; intros a acc; [reflexivity |].
  cbn [seq fold_left]. apply IH.
Qed.

(** The total, leg by leg. *)
Lemma calculatePolylineDistance_cons (p q : Coord) (rest : list Coord) :
  calculatePolylineDistance (p :: q :: rest)
  == leg p q + calculatePolylineDistance (q :: rest).
Proof.
  unfold geoService.calculatePolylineDistance.
  cbn [length Nat.sub]. rewrite !Nat.sub_0_r.
  cbn [seq fold_left].
  rewrite fold_left_add.
  rewrite (fold_left_shift
             (fun i => calculateDistance
                         (mkLatLon (fst (geo.at_ (p :: q :: rest) i))
                                   (snd (geo.at_ (p :: q :: rest) i)))
                         (mkLatLon (fst (geo.at_ (p :: q :: rest) (i + 1)))
                                   (snd (geo.at_ (p :: q :: rest) (i + 1)))))).
  cbn [geo.at_ nth Nat.add]. unfold geo.at_. ring.
Qed.

(** X4. A path of fewer than two vertices has length 0.  With a distance
    that is never negative and obeys the triangle inequality, the length
    of a path is at least the distance between its two ends. *)
Theorem calculatePolylineDistance_lower_bound :
  (forall a b, 0 <= calculateDistance a b) ->
  (forall a b c, calculateDistance a c <= calculateDistance a b + calculateDistance b c) ->
  calculatePolylineDistance [] = 0
  /\ (forall p, calculatePolylineDistance [p] = 0)
  /\ (forall path, 0 <= calculatePolylineDistance path)
  /\ (forall first path final,
        last (first :: path) = Some final -> path <> [] ->
        leg first final <= calculatePolylineDistance (first :: path)).
Proof.
  intros Hnonneg Htriangle. split; [reflexivity |]. split; [reflexivity |].
  assert (Hpos : forall path, 0 <= calculatePolylineDistance path).
  { intros path. induction path as [| p path IH]; [discriminate |].
    destruct path as [| q rest]; [discriminate |].
    rewrite calculatePolylineDistance_cons.
    rewrite <- (Qplus_0_r 0). apply Qplus_le_compat; [apply Hnonneg | exact IH]. }
  split; [exact Hpos |].
  intros first path. revert first.
  induction path as [| q rest IH]; intros first final Hlast Hne; [congruence |].
  rewrite calculatePolylineDistance_cons.
  destruct rest as [| r rest'].
  - cbn in Hlast. injection Hlast as <-.
    rewrite <- (Qplus_0_r (leg first q)) at 1. apply Qplus_le_r, Hpos.
  - assert (Hlast' : last (q :: r :: rest') = Some final) by exact Hlast.
    specialize (IH q final Hlast' ltac:(discriminate)).
    eapply Qle_trans; [apply (Htriangle _ (mkLatLon (fst q) (snd q))) |].
    apply Qplus_le_r, IH.
Qed.

(** The state of the search after some places. *)
Lemma closerPlace_fold (userLocation : LatLon) (places : list geoService.SafePlace)
    (best : geoService.SafePlace) (seen : list geoService.SafePlace) :
  In best seen ->
  (forall q, In q seen ->
     calculateDistance userLocation (geoService.latlon_of_place best)
     <= calculateDistance userLocation (geoService.latlon_of_place q)) ->
  exists p,
    fold_left (geoService.closerPlace calculateDistance userLocation) places
      (Some best,
       Some (calculateDistance userLocation (geoService.latlon_of_place best)))
    = (Some p, Some (calculateDistance userLocation (geoService.latlon_of_place p)))
    /\ In p (seen ++ places)
    /\ forall q, In q (seen ++ places) ->
         calculateDistance userLocation (geoService.latlon_of_place p)
         <= calculateDistance userLocation (geoService.latlon_of_place q).
Proof.
  revert best seen. induction places as [| place places IH]; intros best seen Hin Hmin.
  - exists best. rewrite app_nil_r. repeat split; assumption.
  - cbn [fold_left]. unfold geoService.closerPlace at 2. cbn [snd Num.lt_min].
    destruct (Num.ltb _ _) eqn:Hlt.
    + apply ltb_lt in Hlt.
      destruct (IH place (seen ++ [place])) as (p & Hfold & Hp & Hpmin).
      * apply in_or_app. right. left. reflexivity.
      * intros q Hq. apply in_app_or in Hq. destruct Hq as [Hq | [<- | []]].
        -- specialize (Hmin q Hq). lra.
        -- apply Qle_refl.
      * exists p. rewrite <- app_assoc in Hp, Hpmin. repeat split; assumption.
    + apply ltb_ge in Hlt.
      destruct (IH best (seen ++ [place])) as (p & Hfold & Hp & Hpmin).
      * apply in_or_app. left. exact Hin.
      * intros q Hq. apply in_app_or in Hq. destruct Hq as [Hq | [<- | []]].
        -- apply Hmin, Hq.
        -- exact Hlt.
      * exists p. rewrite <- app_assoc in Hp, Hpmin. repeat split; assumption.
Qed.

(** X5. No place, no answer; otherwise the answer is one of the places
    and none of them is nearer to the user. *)
Theorem findClosestSafePlace_nearest (userLocation : LatLon)
    (places : list geoService.SafePlace) :
  (places = [] -> findClosestSafePlace userLocation places = None)
  /\ (places <> [] ->
      exists p,
        findClosestSafePlace userLocation places = Some p
        /\ In p places
        /\ forall q, In q places ->
             calculateDistance userLocation (geoService.latlon_of_place p)
             <= calculateDistance userLocation (geoService.latlon_of_place q)).
Proof.
  split.
  - intros ->. reflexivity.
  - intros Hne. destruct places as [| place places]; [congruence |].
    unfold geoService.findClosestSafePlace. cbn [length Nat.eqb fold_left].
    unfold geoService.closerPlace at 2. cbn [snd Num.lt_min].
    destruct (closerPlace_fold userLocation places place [place]) as (p & Hfold & Hp & Hmin).
    + left. reflexivity.
    + intros q [<- | []]. apply Qle_refl.
    + exists p. rewrite Hfold. repeat split; assumption.
Qed.

End FlatFacts.

Section WindowFacts.

Variable calculateDistance : LatLon -> LatLon -> Q.
Variable userLocation : LatLon.
Variable routePath : list Coord.

(** The distance from the user to vertex [j]. *)
Local Abbreviation toVertex j :=
  (calculateDistance userLocation
     (mkLatLon (fst (geo.at_ routePath j)) (snd (geo.at_ routePath j)))).

Lemma drop_cons_at (i : nat) (p : Coord) (rest : list Coord) :
  drop i routePath = p :: rest ->
  (i < length routePath)%nat /\ geo.at_ routePath i = p /\ drop (S i) routePath = rest.
Proof.
  intros Hdrop.
  assert (Hi : (i < length routePath)%nat).
  { destruct (Nat.lt_ge_cases i (length routePath)) as [Hlt | Hge]; [exact Hlt |].
    rewrite drop_ge in Hdrop by exact Hge. discriminate. }
  split; [exact Hi |].
  assert (Hlookup : routePath !! i = Some p).
  { rewrite <- (Nat.add_0_r i), <- lookup_drop, Hdrop. reflexivity. }
  split.
  - unfold geo.at_. rewrite nth_lookup, Hlookup. reflexivity.
  - replace (S i) with (i + 1)%nat by lia.
    rewrite <- drop_drop, Hdrop. reflexivity.
Qed.

(** The loop, once a first vertex has been taken as the nearest so far. *)
Lemma searchLoop_window (from : nat) (pts : list Coord) (i closest increasingCount : nat) :
  drop i routePath = pts ->
  (i <= length routePath)%nat ->
  (from <= closest)%nat -> (closest < i)%nat ->
  increasingCount = (i - 1 - closest)%nat ->
  (increasingCount <= 30)%nat ->
  (forall j, (from <= j)%nat -> (j < closest)%nat -> toVertex closest < toVertex j) ->
  (forall j, (closest < j)%nat -> (j < i)%nat -> toVertex closest <= toVertex j) ->
  exists c,
    geo.searchLoop calculateDistance userLocation pts i closest
      (Some (toVertex closest)) increasingCount
    = (c, Some (toVertex c))
    /\ (from <= c)%nat /\ (c < length routePath)%nat
    /\ (forall j, (from <= j)%nat -> (j < c)%nat -> toVertex c < toVertex j)
    /\ (forall j, (c < j)%nat -> (j <= c + 31)%nat -> (j < length routePath)%nat ->
                  toVertex c <= toVertex j).
Proof.
  revert i closest increasingCount.
  induction pts as [| p rest IH];
    intros i closest increasingCount Hdrop Hi Hfrom Hclosest Hcount Hsmall Hbefore Hafter.
  - exists closest. cbn [geo.searchLoop].
    assert (i = length routePath) as ->.
    { destruct (Nat.lt_ge_cases i (length routePath)) as [Hlt | Hge]; [| lia].
      apply (f_equal length) in Hdrop. rewrite length_drop in Hdrop. cbn in Hdrop. lia. }
    repeat split; try assumption; try lia.
    intros j Hj _ Hlen. apply Hafter; assumption.
  - destruct (drop_cons_at i p rest Hdrop) as (Hlt & Hat & Hrest).
    cbn [geo.searchLoop Num.lt_min]. rewrite <- Hat.
    destruct (Num.ltb (toVertex i) (toVertex closest)) eqn:Hcmp.
    + apply ltb_lt in Hcmp.
      change (geo.INCREASING_THRESHOLD <? 0)%nat with false. cbv iota.
      assert (Hbefore' : forall j, (from <= j)%nat -> (j < i)%nat ->
                                   toVertex i < toVertex j).
      { intros j Hj1 Hj2.
        destruct (Nat.lt_trichotomy j closest) as [Hjc | [-> | Hjc]].
        - eapply Qlt_trans; [exact Hcmp | apply Hbefore; assumption].
        - exact Hcmp.
        - eapply Qlt_le_trans; [exact Hcmp | apply Hafter; assumption]. }
      assert (Hafter' : forall j, (i < j)%nat -> (j < S i)%nat ->
                                  toVertex i <= toVertex j) by (intros; lia).
      apply (IH (S i) i 0%nat); try assumption; lia.
    + apply ltb_ge in Hcmp.
      assert (Hafter' : forall j, (closest < j)%nat -> (j < S i)%nat ->
                                  toVertex closest <= toVertex j).
      { intros j Hj1 Hj2.
        destruct (Nat.eq_dec j i) as [-> | Hne]; [exact Hcmp | apply Hafter; lia]. }
      destruct (geo.INCREASING_THRESHOLD <? S increasingCount)%nat eqn:Hstop.
      * apply Nat.ltb_lt in Hstop. unfold geo.INCREASING_THRESHOLD in Hstop.
        exists closest. repeat split; try assumption; try lia.
        intros j Hj1 Hj2 Hj3. apply Hafter'; lia.
      * apply Nat.ltb_ge in Hstop. unfold geo.INCREASING_THRESHOLD in Hstop.
        apply (IH (S i) closest (S increasingCount)); try assumption; lia.
Qed.

(** What the search finds when it starts inside the path. *)
Lemma getPathDataFromLocation_found (searchStartIndex : nat) :
  (2 <= length routePath)%nat ->
  (searchStartIndex - 20 < length routePath)%nat ->
  exists c,
    geo.getPathDataFromLocation calculateDistance userLocation routePath searchStartIndex
    = geo.mkPathData ((lat userLocation, lon userLocation) :: drop c routePath)
                     (Some (toVertex c)) c
    /\ (searchStartIndex - 20 <= c)%nat /\ (c < length routePath)%nat
    /\ (forall j, (searchStartIndex - 20 <= j)%nat -> (j < c)%nat ->
                  toVertex c < toVertex j)
    /\ (forall j, (c < j)%nat -> (j <= c + 31)%nat -> (j < length routePath)%nat ->
                  toVertex c <= toVertex j).
Proof.
  intros Hlen Hstart. unfold geo.getPathDataFromLocation.
  destruct (Nat.ltb_spec (length routePath) 2) as [Hshort | _]; [lia |].
  rewrite Nat.max_0_l.
  destruct (drop (searchStartIndex - 20) routePath) as [| p rest] eqn:Hdrop.
  { apply (f_equal length) in Hdrop. rewrite length_drop in Hdrop. cbn in Hdrop. lia. }
  destruct (drop_cons_at _ p rest Hdrop) as (Hlt & Hat & Hrest).
  cbn [geo.searchLoop Num.lt_min].
  change (geo.INCREASING_THRESHOLD <? 0)%nat with false. cbv iota.
  rewrite <- Hat.
  destruct (searchLoop_window (searchStartIndex - 20) rest
              (S (searchStartIndex - 20)) (searchStartIndex - 20) 0)
    as (c & Hloop & Hc1 & Hc2 & Hbefore & Hafter);
    try assumption; try lia.
  exists c. rewrite Hloop. repeat split; assumption.
Qed.

(** X6. On a path of two vertices or more, searched from a cursor whose
    back buffer starts inside the path: the index found lies in the path,
    not before the start of the search; the distance reported is the
    distance to that vertex; the remaining path is the user's location
    followed by the path from that vertex on; every vertex of the search
    before it is strictly farther, and none of the next 31 is nearer. *)
Theorem getPathDataFromLocation_window (searchStartIndex : nat) :
  (2 <= length routePath)%nat ->
  (searchStartIndex - 20 < length routePath)%nat ->
  exists c,
    geo.getPathDataFromLocation calculateDistance userLocation routePath searchStartIndex
    = geo.mkPathData ((lat userLocation, lon userLocation) :: drop c routePath)
                     (Some (toVertex c)) c
    /\ (searchStartIndex - 20 <= c)%nat /\ (c < length routePath)%nat
    /\ (forall j, (searchStartIndex - 20 <= j)%nat -> (j < c)%nat ->
                  toVertex c < toVertex j)
    /\ (forall j, (c < j)%nat -> (j <= c + 31)%nat -> (j < length routePath)%nat ->
                  toVertex c <= toVertex j).
Proof. exact (getPathDataFromLocation_found searchStartIndex). Qed.

(** X7. The edges of the search: a path of fewer than two vertices gives
    no remaining path, an infinite distance and index 0; a cursor more
    than twenty vertices past the end of the path is returned as it is,
    with an infinite distance and the user's location alone. *)
Theorem getPathDataFromLocation_edges (searchStartIndex : nat) :
  ((length routePath < 2)%nat ->
   geo.getPathDataFromLocation calculateDistance userLocation routePath searchStartIndex
   = geo.mkPathData [] None 0)
  /\ ((2 <= length routePath)%nat ->
      (length routePath <= searchStartIndex - 20)%nat ->
      geo.getPathDataFromLocation calculateDistance userLocation routePath searchStartIndex
      = geo.mkPathData [(lat userLocation, lon userLocation)] None searchStartIndex).
Proof.
  unfold geo.getPathDataFromLocation. split.
  - intros Hshort. destruct (Nat.ltb_spec (length routePath) 2); [reflexivity | lia].
  - intros Hlen Hpast. destruct (Nat.ltb_spec (length routePath) 2); [lia |].
    rewrite Nat.max_0_l, drop_ge by exact Hpast. cbn [geo.searchLoop].
    rewrite drop_ge by lia. reflexivity.
Qed.

End WindowFacts.

(** ** The polyline decoder *)

Section PolylineFacts.

Local Open Scope Z_scope.

Lemma readValue_rest (codes : list Z) (shift result : Z) :
  (length (snd (geoService.readValue codes shift result)) <= length codes - 1)%nat.
Proof.
  revert shift result. induction codes as [| c rest IH]; intros shift result;
    cbn [geoService.readValue snd length]; [lia |].
  destruct (32 <=? c - 63); cbn [snd]; [| lia].
  etransitivity; [apply IH | lia].
Qed.

(** Fuel beyond the number of characters is never used. *)
Lemma decodeLoop_fuel (fuel1 fuel2 : nat) (codes : list Z) (lat lng : Z) (factor : Q) :
  (length codes <= fuel1)%nat -> (length codes <= fuel2)%nat ->
  geoService.decodeLoop fuel1 codes lat lng factor
  = geoService.decodeLoop fuel2 codes lat lng factor.
Proof.
  revert fuel2 codes lat lng.
  induction fuel1 as [| fuel1 IH]; intros fuel2 codes lat lng H1 H2.
  - destruct codes; [| cbn in H1; lia]. now destruct fuel2.
  - destruct fuel2 as [| fuel2]; [destruct codes; [reflexivity | cbn in H2; lia] |].
    cbn [geoService.decodeLoop]. destruct codes as [| c cs]; [reflexivity |].
    pose proof (readValue_rest (c :: cs) 0 0) as Hr1.
    destruct (geoService.readValue (c :: cs) 0 0) as [result rest].
    pose proof (readValue_rest rest 0 0) as Hr2.
    destruct (geoService.readValue rest 0 0) as [result' rest'].
    cbn [snd length] in *. f_equal. apply IH; lia.
Qed.

Lemma decodeLoop_count (fuel : nat) (codes : list Z) (lat lng : Z) (factor : Q) :
  (2 * length (geoService.decodeLoop fuel codes lat lng factor) <= length codes + 1)%nat.
Proof.
  revert codes lat lng. induction fuel as [| fuel IH]; intros codes lat lng;
    cbn [geoService.decodeLoop]; [cbn; lia |].
  destruct codes as [| c cs]; [cbn; lia |].
  pose proof (readValue_rest (c :: cs) 0 0) as Hr1.
  destruct (geoService.readValue (c :: cs) 0 0) as [result rest].
  pose proof (readValue_rest rest 0 0) as Hr2.
  destruct (geoService.readValue rest 0 0) as [result' rest'].
  cbn [snd length] in *.
  specialize (IH rest' (lat + geoService.unzigzag result)
                 (lng + geoService.unzigzag result')).
  destruct rest as [| r rs].
  - destruct rest'; [| cbn in Hr2; lia].
    destruct fuel; cbn [geoService.decodeLoop length]; lia.
  - cbn [length] in *. lia.
Qed.

(** X8. Decoding stops: the number of rounds allowed by the length of the
    string is enough, more would change nothing; an empty string gives no
    point, and [n] characters give at most [(n + 1) / 2] points. *)
Theorem decodePolyline_bounded (encoded : string) (precision : nat) :
  (forall fuel, (String.length encoded <= fuel)%nat ->
     geoService.decodeLoop fuel (map geoService.charCode (list_ascii_of_string encoded)) 0 0
       (inject_Z (10 ^ Z.of_nat precision))
     = geoService.decodePolyline encoded precision)
  /\ geoService.decodePolyline EmptyString precision = []
  /\ (2 * length (geoService.decodePolyline encoded precision)
      <= String.length encoded + 1)%nat.
Proof.
  assert (Hlen : length (map geoService.charCode (list_ascii_of_string encoded))
                 = String.length encoded).
  { rewrite length_map. induction encoded as [| a s IH]; cbn; [reflexivity | now rewrite IH]. }
  split; [| split].
  - intros fuel Hfuel. unfold geoService.decodePolyline.
    apply decodeLoop_fuel; rewrite Hlen; lia.
  - reflexivity.
  - unfold geoService.decodePolyline. rewrite <- Hlen at 2. apply decodeLoop_count.
Qed.

Lemma toInt32_small (z : Z) : - 2 ^ 31 <= z < 2 ^ 31 -> geoService.toInt32 z = z.
Proof.
  intros Hz. unfold geoService.toInt32. rewrite Z.mod_small; lia.
Qed.

(** Five low bits and the rest make the number. *)
Lemma low_high (u : Z) : Z.lor (Z.land u 31) (Z.shiftl (Z.shiftr u 5) 5) = u.
Proof.
  apply Z.bits_inj'. intros n Hn.
  rewrite Z.lor_spec, Z.land_spec.
  change 31 with (Z.ones 5).
  destruct (Z.lt_ge_cases n 5) as [Hlow | Hhigh].
  - rewrite Z.ones_spec_low by lia.
    rewrite Z.shiftl_spec_low by lia. now rewrite andb_true_r, orb_false_r.
  - rewrite Z.ones_spec_high by lia.
    rewrite Z.shiftl_spec by lia. rewrite Z.shiftr_spec by lia.
    rewrite andb_false_r. cbn [orb]. f_equal. lia.
Qed.

Lemma land_31_range (u : Z) : 0 <= Z.land u 31 < 32.
Proof.
  change 31 with (Z.ones 5). rewrite Z.land_ones by lia.
  apply Z.mod_pos_bound. lia.
Qed.

Lemma continuation_chunk (u : Z) :
  Z.land (Z.lor 32 (Z.land u 31)) 31 = Z.land u 31
  /\ 32 <= Z.lor 32 (Z.land u 31) < 64.
Proof.
  pose proof (land_31_range u) as Hr.
  assert (Hadd : Z.lor 32 (Z.land u 31) = 32 + Z.land u 31).
  { symmetry. rewrite Z.add_comm. change 32 with (Z.shiftl 1 5).
    rewrite <- Z.lor_comm.
    apply Z.add_nocarry_lor. apply Z.bits_inj'. intros n Hn.
    rewrite Z.land_spec, Z.bits_0.
    destruct (Z.lt_ge_cases n 5) as [Hlow | Hhigh].
    - rewrite Z.shiftl_spec_low by lia. apply andb_false_r.
    - rewrite (Z.land_spec u). change 31 with (Z.ones 5).
      rewrite Z.ones_spec_high by lia. now rewrite andb_false_r. }
  rewrite Hadd. split; [| lia].
  change 31 with (Z.ones 5). rewrite !Z.land_ones by lia.
  change (2 ^ 5) with 32. rewrite Z.add_comm, <- Z.add_mod_idemp_r by lia.
  change (32 mod 32) with 0. rewrite Z.add_0_r. apply Z.mod_mod. lia.
Qed.

(** Reading back the chunks of a value. *)
Lemma readValue_encodeChunks (chunks : nat) (u shift acc : Z) (rest : list Z) :
  0 <= u < 2 ^ (5 * Z.of_nat (S chunks)) ->
  0 <= shift -> shift + 5 * Z.of_nat (S chunks) <= 30 ->
  geoService.readValue (geoService.encodeChunks (S chunks) u ++ rest) shift acc
  = (Z.lor acc (Z.shiftl u shift), rest).
Proof.
  revert u shift acc. induction chunks as [| chunks IH]; intros u shift acc Hu Hshift Hfit.
  - cbn [geoService.encodeChunks].
    change (2 ^ (5 * Z.of_nat 1)) with 32 in Hu.
    destruct (Z.ltb_spec u 32) as [_ | Hge]; [| lia].
    cbn [app geoService.readValue]. replace (u + 63 - 63) with u by lia.
    destruct (Z.leb_spec 32 u) as [Hbig | _]; [lia |].
    rewrite Z.mod_small by lia.
    assert (Hland : Z.land u 31 = u).
    { change 31 with (Z.ones 5). rewrite Z.land_ones by lia. apply Z.mod_small. lia. }
    rewrite Hland, toInt32_small; [reflexivity |].
    rewrite Z.shiftl_mul_pow2 by lia.
    assert (2 ^ shift <= 2 ^ 25) by (apply Z.pow_le_mono_r; lia).
    assert (0 < 2 ^ shift) by (apply Z.pow_pos_nonneg; lia). nia.
  - remember (S chunks) as n eqn:Hn.
    cbn [geoService.encodeChunks].
    destruct (Z.ltb_spec u 32) as [Hsmall | Hge].
    + cbn [app geoService.readValue]. replace (u + 63 - 63) with u by lia.
      destruct (Z.leb_spec 32 u) as [Hbig | _]; [lia |].
      rewrite Z.mod_small by lia.
      assert (Hland : Z.land u 31 = u).
      { change 31 with (Z.ones 5). rewrite Z.land_ones by lia. apply Z.mod_small. lia. }
      rewrite Hland, toInt32_small; [reflexivity |].
      rewrite Z.shiftl_mul_pow2 by lia.
      assert (2 ^ shift <= 2 ^ 25) by (apply Z.pow_le_mono_r; lia).
      assert (0 < 2 ^ shift) by (apply Z.pow_pos_nonneg; lia). nia.
    + cbn [app geoService.readValue].
      replace (Z.lor 32 (Z.land u 31) + 63 - 63) with (Z.lor 32 (Z.land u 31)) by lia.
      destruct (continuation_chunk u) as [Hlow Hrange].
      destruct (Z.leb_spec 32 (Z.lor 32 (Z.land u 31))) as [_ | Hlt]; [| lia].
      rewrite Hlow, Z.mod_small by lia.
      pose proof (land_31_range u) as Hr.
      rewrite toInt32_small.
      2:{ rewrite Z.shiftl_mul_pow2 by lia.
          assert (2 ^ shift <= 2 ^ 25) by (apply Z.pow_le_mono_r; lia).
          assert (0 < 2 ^ shift) by (apply Z.pow_pos_nonneg; lia). nia. }
      subst n. rewrite IH.
      * f_equal. rewrite <- Z.lor_assoc. f_equal.
        replace (shift + 5) with (5 + shift) by lia.
        rewrite <- (Z.shiftl_shiftl _ 5 shift) by lia.
        rewrite <- Z.shiftl_lor, low_high. reflexivity.
      * rewrite Z.shiftr_div_pow2 by lia. split; [apply Z.div_pos; lia |].
        apply Z.div_lt_upper_bound; [lia |].
        rewrite <- Z.pow_add_r by lia.
        replace (5 + 5 * Z.of_nat (S chunks)) with (5 * Z.of_nat (S (S chunks))) by lia.
        apply Hu.
      * lia.
      * lia.
Qed.

Lemma zigzag_range (v : Z) : Z.abs v < 2 ^ 29 -> 0 <= geoService.zigzag v < 2 ^ 30.
Proof.
  intros Hv. unfold geoService.zigzag.
  destruct (Z.ltb_spec v 0).
  - rewrite Z.shiftl_mul_pow2 by lia. unfold Z.lnot. lia.
  - rewrite Z.shiftl_mul_pow2 by lia. lia.
Qed.

Lemma land_1 (x : Z) : Z.land x 1 = x mod 2.
Proof. apply (Z.land_ones x 1). lia. Qed.

Lemma unzigzag_zigzag (v : Z) : geoService.unzigzag (geoService.zigzag v) = v.
Proof.
  unfold geoService.unzigzag, geoService.zigzag.
  destruct (Z.ltb_spec v 0).
  - rewrite land_1, Z.shiftl_mul_pow2, Z.shiftr_div_pow2 by lia.
    change (2 ^ 1) with 2. unfold Z.lnot.
    replace (Z.pred (- (v * 2))) with (1 + (- v - 1) * 2) by lia.
    rewrite Z.mod_add, Z.div_add by lia.
    change (1 mod 2 =? 0) with false. cbv iota. change (1 / 2) with 0. lia.
  - rewrite land_1, Z.shiftl_mul_pow2, Z.shiftr_div_pow2 by lia.
    change (2 ^ 1) with 2.
    rewrite Z.mod_mul by lia. cbn [Z.eqb]. apply Z.div_mul. lia.
Qed.

Lemma readValue_encodeValue (v : Z) (rest : list Z) :
  Z.abs v < 2 ^ 29 ->
  geoService.readValue (geoService.encodeValue v ++ rest) 0 0
  = (geoService.zigzag v, rest).
Proof.
  intros Hv. unfold geoService.encodeValue.
  rewrite readValue_encodeChunks.
  - rewrite Z.shiftl_0_r. reflexivity.
  - change (2 ^ (5 * Z.of_nat 6)) with (2 ^ 30). now apply zigzag_range.
  - lia.
  - cbn. lia.
Qed.

Lemma zigzag_nonneg (v : Z) : 0 <= geoService.zigzag v.
Proof.
  unfold geoService.zigzag. destruct (Z.ltb_spec v 0);
    rewrite Z.shiftl_mul_pow2 by lia; change (2 ^ 1) with 2; unfold Z.lnot; lia.
Qed.

(** Every chunk is a printable character. *)
Lemma encodeChunks_printable (chunks : nat) (u : Z) :
  0 <= u -> Forall (fun c => 63 <= c < 127) (geoService.encodeChunks chunks u).
Proof.
  revert u. induction chunks as [| chunks IH]; intros u Hu;
    cbn [geoService.encodeChunks]; [constructor |].
  destruct (Z.ltb_spec u 32).
  - constructor; [lia | constructor].
  - constructor.
    + destruct (continuation_chunk u) as [_ Hrange]. lia.
    + apply IH. rewrite Z.shiftr_div_pow2 by lia. apply Z.div_pos; lia.
Qed.

Lemma encodeValue_cons (v : Z) : exists c cs, geoService.encodeValue v = c :: cs.
Proof.
  unfold geoService.encodeValue. cbn [geoService.encodeChunks].
  destruct (geoService.zigzag v <? 32); eauto.
Qed.

Lemma encodePoints_printable (points : list (Z * Z)) (lat lng : Z) :
  Forall (fun c => 63 <= c < 127) (geoService.encodePoints points lat lng).
Proof.
  revert lat lng. induction points as [| [lat' lng'] rest IH]; intros lat lng;
    cbn [geoService.encodePoints]; [constructor |].
  rewrite !Forall_app. repeat split.
  - apply encodeChunks_printable, zigzag_nonneg.
  - apply encodeChunks_printable, zigzag_nonneg.
  - apply IH.
Qed.

Lemma decodeLoop_step (fuel : nat) (codes : list Z) (lat lng : Z) (factor : Q) :
  codes <> [] ->
  geoService.decodeLoop (S fuel) codes lat lng factor
  = (let '(result, rest) := geoService.readValue codes 0 0 in
     let '(result', rest') := geoService.readValue rest 0 0 in
     (inject_Z (lat + geoService.unzigzag result) / factor,
      inject_Z (lng + geoService.unzigzag result') / factor)%Q
     :: geoService.decodeLoop fuel rest' (lat + geoService.unzigzag result)
          (lng + geoService.unzigzag result') factor).
Proof.
  intros Hne. destruct codes as [| c cs]; [congruence |].
  cbn [geoService.decodeLoop].
  destruct (geoService.readValue (c :: cs) 0 0) as [result rest].
  destruct (geoService.readValue rest 0 0) as [result' rest']. reflexivity.
Qed.

Lemma decodeLoop_encodePoints (points : list (Z * Z)) (lat lng : Z) (fuel : nat)
    (factor : Q) :
  geoService.encodable points lat lng ->
  (length (geoService.encodePoints points lat lng) <= fuel)%nat ->
  geoService.decodeLoop fuel (geoService.encodePoints points lat lng) lat lng factor
  = map (fun p => (inject_Z (fst p) / factor, inject_Z (snd p) / factor)%Q) points.
Proof.
  revert lat lng fuel. induction points as [| [lat' lng'] rest IH];
    intros lat lng fuel Hok Hfuel.
  - destruct fuel; reflexivity.
  - cbn [geoService.encodable] in Hok. destruct Hok as (Hlat & Hlng & Hrest).
    cbn [geoService.encodePoints] in *.
    destruct (encodeValue_cons (lat' - lat)) as (c & cs & Hc).
    destruct (encodeValue_cons (lng' - lng)) as (c' & cs' & Hc').
    destruct fuel as [| fuel].
    { rewrite Hc in Hfuel. cbn in Hfuel. lia. }
    rewrite decodeLoop_step by (rewrite Hc; discriminate).
    rewrite readValue_encodeValue by exact Hlat.
    rewrite readValue_encodeValue by exact Hlng.
    rewrite !unzigzag_zigzag.
    replace (lat + (lat' - lat)) with lat' by lia.
    replace (lng + (lng' - lng)) with lng' by lia.
    cbn [map fst snd]. f_equal. apply IH; [exact Hrest |].
    rewrite !length_app, Hc, Hc' in Hfuel. cbn [length] in Hfuel. lia.
Qed.

Lemma length_string_of_list_ascii (l : list ascii) :
  String.length (string_of_list_ascii l) = length l.
Proof. induction l as [| a l IH]; cbn; [reflexivity | now rewrite IH]. Qed.

Lemma charCode_ascii (c : Z) :
  63 <= c < 127 -> geoService.charCode (ascii_of_nat (Z.to_nat c)) = c.
Proof.
  intros Hc. unfold geoService.charCode.
  rewrite nat_ascii_embedding by lia. lia.
Qed.

(** Decoding what the encoder wrote. *)
Lemma decodePolyline_inverts (points : list (Z * Z)) (precision : nat) :
  geoService.encodable points 0 0 ->
  geoService.decodePolyline (geoService.encodePolyline points) precision
  = map (fun p => (inject_Z (fst p) / inject_Z (10 ^ Z.of_nat precision),
                   inject_Z (snd p) / inject_Z (10 ^ Z.of_nat precision))%Q) points.
Proof.
  intros Hok. unfold geoService.decodePolyline, geoService.encodePolyline.
  rewrite list_ascii_of_string_of_list_ascii, length_string_of_list_ascii, length_map.
  assert (Hcodes : map geoService.charCode
                     (map (fun c => ascii_of_nat (Z.to_nat c))
                          (geoService.encodePoints points 0 0))
                   = geoService.encodePoints points 0 0).
  { pose proof (encodePoints_printable points 0 0) as Hprint.
    induction Hprint as [| c cs Hc _ IH]; [reflexivity |].
    cbn [map]. rewrite charCode_ascii by exact Hc. now rewrite IH. }
  rewrite Hcodes. apply decodeLoop_encodePoints; [exact Hok | lia].
Qed.

(** X9. Decoding inverts the polyline encoding: integer points whose
    steps stay below [2 ^ 29], written as a polyline string, decode to the
    same points divided by [10 ^ precision]. *)
Theorem decodePolyline_encodePolyline (points : list (Z * Z)) (precision : nat) :
  geoService.encodable points 0 0 ->
  geoService.decodePolyline (geoService.encodePolyline points) precision
  = map (fun p => (inject_Z (fst p) / inject_Z (10 ^ Z.of_nat precision),
                   inject_Z (snd p) / inject_Z (10 ^ Z.of_nat precision))%Q) points.
Proof. exact (decodePolyline_inverts points precision). Qed.

End PolylineFacts.

(** Two points of a well-known example, at precision 5. *)
Lemma decodePolyline_encodePolyline_witness :
  geoService.decodePolyline (geoService.encodePolyline [(3850000, -12020000); (4070000, -12095000)]%Z) 5
  = [(inject_Z 3850000 / inject_Z (10 ^ 5), inject_Z (-12020000) / inject_Z (10 ^ 5));
     (inject_Z 4070000 / inject_Z (10 ^ 5), inject_Z (-12095000) / inject_Z (10 ^ 5))].
Proof.
  apply (decodePolyline_encodePolyline [(3850000, -12020000); (4070000, -12095000)]%Z 5).
  cbn. lia.
Defined.

(** * More of the service layer *)

Section MoreFetchFacts.

Variable Json : Type.
Variable JSON_parse : string -> option Json.

Local Open Scope Z_scope.

(** The delays slept before the [n]-th call. *)
Local Abbreviation delaysBefore initialDelay n :=
  (map (fun k => initialDelay * 2 ^ Z.of_nat k) (seq 0 n)).

Lemma delaysBefore_snoc (initialDelay : Z) (n : nat) :
  delaysBefore initialDelay n ++ [initialDelay * 2 ^ Z.of_nat n]
  = delaysBefore initialDelay (S n).
Proof. rewrite seq_S, map_app. reflexivity. Qed.

Lemma fetchLoop_schedule (network : nat -> api.FetchOutcome) (initialDelay : Z)
    (remaining i : nat) (lastError : option Error) :
  let run := api.fetchLoop Json JSON_parse network remaining i
               (initialDelay * 2 ^ Z.of_nat i) lastError (delaysBefore initialDelay i) in
  api.slept run = delaysBefore initialDelay (length (api.slept run))
  /\ match api.outcome run with
     | Returned _ =>
         api.fetchCalls run = S (length (api.slept run))
         /\ (api.fetchCalls run <= i + remaining)%nat
     | Thrown error =>
         error = DataNotFetched
         /\ api.fetchCalls run = (i + remaining)%nat
         /\ length (api.slept run) = (i + remaining)%nat
     end.
Proof.
  revert i lastError. induction remaining as [| remaining IH]; intros i lastError;
    cbn [api.fetchLoop].
  - cbv zeta. cbn [api.slept api.outcome api.fetchCalls].
    rewrite length_map, length_seq. repeat split; lia.
  - assert (Hnext : forall e,
               api.fetchLoop Json JSON_parse network remaining (S i)
                 (initialDelay * 2 ^ Z.of_nat i * 2) (Some e)
                 (delaysBefore initialDelay i ++ [initialDelay * 2 ^ Z.of_nat i])
               = api.fetchLoop Json JSON_parse network remaining (S i)
                   (initialDelay * 2 ^ Z.of_nat (S i)) (Some e)
                   (delaysBefore initialDelay (S i))).
    { intros e. rewrite delaysBefore_snoc. f_equal.
      rewrite Nat2Z.inj_succ, Z.pow_succ_r by lia. lia. }
    destruct (api.tryBlock Json JSON_parse (network i)) as [value | e | e].
    + cbv zeta. cbn [api.slept api.outcome api.fetchCalls].
      rewrite length_map, length_seq. repeat split; lia.
    + rewrite Hnext. specialize (IH (S i) (Some e)). cbv zeta in *.
      destruct IH as [Hs Ho]. split; [exact Hs |].
      destruct (api.outcome _); [destruct Ho; split; lia | destruct Ho as (? & ? & ?)].
      repeat split; [assumption | lia | lia].
    + rewrite Hnext. specialize (IH (S i) (Some e)). cbv zeta in *.
      destruct IH as [Hs Ho]. split; [exact Hs |].
      destruct (api.outcome _); [destruct Ho; split; lia | destruct Ho as (? & ? & ?)].
      repeat split; [assumption | lia | lia].
Qed.

(** The schedule of a whole run. *)
Lemma fetchJson_shape (network : nat -> api.FetchOutcome) (retries : nat)
    (initialDelay : Z) :
  let run := api.fetchJson Json JSON_parse network retries initialDelay in
  api.slept run = delaysBefore initialDelay (length (api.slept run))
  /\ match api.outcome run with
     | Returned _ =>
         api.fetchCalls run = S (length (api.slept run))
         /\ (api.fetchCalls run <= retries)%nat
     | Thrown error =>
         error = DataNotFetched
         /\ api.fetchCalls run = retries
         /\ length (api.slept run) = retries
     end.
Proof.
  pose proof (fetchLoop_schedule network initialDelay retries 0 None) as H.
  cbn [seq map Z.of_nat Z.pow] in H. rewrite Z.mul_1_r in H. exact H.
Qed.

(** X10. Whatever the network does: the helper sleeps [initialDelay],
    twice that, four times that, ... between its calls; when it returns,
    it made one call more than it slept, and at most [retries]; when it
    throws, the error is the generic one (never the status or the parse
    error it met), after exactly [retries] calls and as many sleeps. *)
Theorem fetchJson_schedule (network : nat -> api.FetchOutcome) (retries : nat)
    (initialDelay : Z) :
  let run := api.fetchJson Json JSON_parse network retries initialDelay in
  api.slept run = delaysBefore initialDelay (length (api.slept run))
  /\ match api.outcome run with
     | Returned _ =>
         api.fetchCalls run = S (length (api.slept run))
         /\ (api.fetchCalls run <= retries)%nat
     | Thrown error =>
         error = DataNotFetched
         /\ api.fetchCalls run = retries
         /\ length (api.slept run) = retries
     end.
Proof. exact (fetchJson_shape network retries initialDelay). Qed.

(** How one response fares in the [try] block. *)
Lemma tryBlock_returns (o : api.FetchOutcome) (value : option Json) :
  api.tryBlock Json JSON_parse o = api.Return Json value
  <-> exists status text,
        o = api.Responded status text /\ 200 <= status <= 299
        /\ ((text = EmptyString /\ value = None)
            \/ (text <> EmptyString /\ exists v, JSON_parse text = Some v /\ value = Some v)).
Proof.
  unfold api.tryBlock, api.ok. split.
  - destruct o as [message | status text]; [discriminate |].
    destruct (Z.leb_spec 200 status); destruct (Z.leb_spec status 299); cbn [andb].
    2-4: destruct ((500 <=? status) && (status <? 600))%bool; discriminate.
    destruct (String.eqb_spec text EmptyString) as [-> | Hne].
    + intros [= <-]. exists status, EmptyString. repeat split; auto.
    + destruct (JSON_parse text) as [v |] eqn:Hparse; [| discriminate].
      intros [= <-]. exists status, text. repeat split; try assumption.
      right. split; [exact Hne |]. exists v. split; [exact Hparse | reflexivity].
  - intros (status & text & -> & [H1 H2] & Hcase).
    destruct (Z.leb_spec 200 status); [| lia].
    destruct (Z.leb_spec status 299); [| lia]. cbn [andb].
    destruct Hcase as [[-> ->] | (Hne & v & Hparse & ->)]; [reflexivity |].
    apply String.eqb_neq in Hne. now rewrite Hne, Hparse.
Qed.

Lemma fetchLoop_first_success (network : nat -> api.FetchOutcome) (value : option Json)
    (remaining i k : nat) (delay : Z) (lastError : option Error) (sleeps : list Z) :
  (k < remaining)%nat ->
  (forall j, (j < k)%nat -> forall v,
       api.tryBlock Json JSON_parse (network (i + j)%nat) <> api.Return Json v) ->
  api.tryBlock Json JSON_parse (network (i + k)%nat) = api.Return Json value ->
  api.outcome (api.fetchLoop Json JSON_parse network remaining i delay lastError sleeps)
  = Returned value
  /\ api.fetchCalls (api.fetchLoop Json JSON_parse network remaining i delay lastError sleeps)
     = S (i + k).
Proof.
  revert remaining i delay lastError sleeps.
  induction k as [| k IH]; intros remaining i delay lastError sleeps Hk Hfail Hok.
  - destruct remaining as [| remaining]; [lia |]. cbn [api.fetchLoop].
    rewrite Nat.add_0_r in Hok. rewrite Hok. split; [reflexivity | cbn; lia].
  - destruct remaining as [| remaining]; [lia |]. cbn [api.fetchLoop].
    pose proof (Hfail 0%nat ltac:(lia)) as Hfirst. rewrite Nat.add_0_r in Hfirst.
    assert (Hrest : forall j, (j < k)%nat -> forall v,
                 api.tryBlock Json JSON_parse (network (S i + j)%nat) <> api.Return Json v).
    { intros j Hj v. replace (S i + j)%nat with (i + S j)%nat by lia. apply Hfail. lia. }
    assert (Hok' : api.tryBlock Json JSON_parse (network (S i + k)%nat) = api.Return Json value).
    { replace (S i + k)%nat with (i + S k)%nat by lia. exact Hok. }
    destruct (api.tryBlock Json JSON_parse (network i)) as [v | e | e].
    + now specialize (Hfirst v).
    + destruct (IH remaining (S i) (delay * 2) (Some e) (sleeps ++ [delay])
                  ltac:(lia) Hrest Hok') as [H1 H2].
      split; [exact H1 | rewrite H2; lia].
    + destruct (IH remaining (S i) (delay * 2) (Some e) (sleeps ++ [delay])
                  ltac:(lia) Hrest Hok') as [H1 H2].
      split; [exact H1 | rewrite H2; lia].
Qed.

(** X11. The first good answer within [retries] calls is the result:
    when call [k] (counting from 0, [k < retries]) is the first to get a
    2xx response whose body is empty or parses, the helper returns [null]
    for the empty body and the parsed value otherwise, after [k + 1]
    calls. *)
Theorem fetchJson_first_success (network : nat -> api.FetchOutcome) (retries k : nat)
    (initialDelay : Z) (value : option Json) :
  (k < retries)%nat ->
  (forall j, (j < k)%nat -> forall v,
       api.tryBlock Json JSON_parse (network j) <> api.Return Json v) ->
  api.tryBlock Json JSON_parse (network k) = api.Return Json value ->
  api.outcome (api.fetchJson Json JSON_parse network retries initialDelay) = Returned value
  /\ api.fetchCalls (api.fetchJson Json JSON_parse network retries initialDelay) = S k.
Proof.
  intros Hk Hfail Hok. unfold api.fetchJson.
  apply (fetchLoop_first_success network value retries 0 k); assumption.
Qed.

End MoreFetchFacts.

(** * More of the navigation hook *)

Section WeatherFacts.

Variable calculateDistance : LatLon -> LatLon -> Q.

(** X12. Every severe weather code has a message of its own: the generic
    warning is never shown for a code that raises a weather alert. *)
Theorem severe_weather_has_text (code : Z) :
  hook.isWeatherSevere code = true ->
  hook.getWeatherAlertText code <> "Warning: Severe weather conditions detected ahead."
  /\ (hook.getWeatherAlertText code
      = "Warning: Heavy rain detected on your route. Drive carefully."
      \/ hook.getWeatherAlertText code
         = "Warning: Heavy snow detected. Conditions may be hazardous."
      \/ hook.getWeatherAlertText code
         = "Warning: Freezing rain detected. Roads may be icy."
      \/ hook.getWeatherAlertText code
         = "Warning: Thunderstorms nearby. Consider seeking shelter if possible.").
Proof.
  intros Hsevere. unfold hook.isWeatherSevere in Hsevere.
  apply existsb_exists in Hsevere. destruct Hsevere as (c & Hin & Heq).
  apply Z.eqb_eq in Heq. subst c.
  cbn [In] in Hin.
  repeat (destruct Hin as [<- | Hin]; [split; [discriminate | vm_compute; tauto] |]).
  destruct Hin.
Qed.

Local Ltac by_cases' :=
  repeat match goal with
         | |- context [if ?b then _ else _] => destruct b eqn:?; cbn in *
         | |- context [match ?o with Some _ => _ | None => _ end] => destruct o eqn:?; cbn in *
         end;
  repeat split; congruence.

Lemma animalAlertLoop_weather (currentLiveLocation : LatLon)
    (nearbyAnimals : list AnimalPrediction) (s : hook.Session) :
  let s' := hook.animalAlertLoop calculateDistance currentLiveLocation nearbyAnimals s in
  hook.weatherAlert s' = hook.weatherAlert s
  /\ hook.lastWeatherCheckTimestampRef s' = hook.lastWeatherCheckTimestampRef s
  /\ hook.liveLocation s' = hook.liveLocation s.
Proof. cbv zeta. rewrite animalAlertLoop_first. by_cases'. Qed.

Lemma trackProgress_weather (currentLiveLocation : LatLon) (s : hook.Session) :
  let s' := hook.trackProgress calculateDistance currentLiveLocation s in
  hook.weatherAlert s' = hook.weatherAlert s
  /\ hook.lastWeatherCheckTimestampRef s' = hook.lastWeatherCheckTimestampRef s
  /\ hook.liveLocation s' = hook.liveLocation s.
Proof.
  cbv zeta. unfold hook.trackProgress.
  destruct (hook.activeRouteOf s); [| repeat split].
  destruct (hook.isNowApproachingOf _ _ _ _); destruct (hook.isApproachingStartRef s);
    repeat split.
Qed.

(** The weather part of a fix is the weather step on the state the fix
    found. *)
Lemma onPosition_weather (position : hook.Position) (s : hook.Session) :
  let s' := hook.onPosition calculateDistance position s in
  hook.weatherAlert s' = hook.weatherAlert (hook.weatherStep position s)
  /\ hook.lastWeatherCheckTimestampRef s'
     = hook.lastWeatherCheckTimestampRef (hook.weatherStep position s)
  /\ hook.liveLocation s'
     = Some (mkLocation (hook.latitude position) (hook.longitude position) "Live Location").
Proof.
  cbv zeta. unfold hook.onPosition.
  match goal with
  | |- context [hook.trackProgress _ ?loc ?s2] =>
      destruct (trackProgress_weather loc s2) as (T1 & T2 & T3)
  end.
  cbv zeta in T1, T2, T3. rewrite T1, T2, T3.
  match goal with
  | |- context [hook.animalAlertLoop _ ?loc ?l ?s1] =>
      destruct (animalAlertLoop_weather loc l s1) as (A1 & A2 & A3)
  end.
  cbv zeta in A1, A2, A3. rewrite A1, A2, A3.
  unfold hook.preamble, hook.weatherStep, hook.applyWeather, hook.weatherCheckDue,
    hook.triggerWeatherAlert, hook.clearWeatherAlert, hook.clearNavigationAlert.
  cbn. by_cases'.
Qed.

(** X13. Weather is asked for at most once in five minutes: a fix that
    comes 300000 ms or less after the last check leaves the weather alert
    and the time of the check as they are, whatever the weather is; a later
    fix records its time as the time of the check even when the weather
    call failed, raises the alert for a severe code and, for a code that is
    not severe, clears the alert that the last render showed. *)
Theorem weather_checked_every_five_minutes (position : hook.Position) (s : hook.Session) :
  let s' := hook.onPosition calculateDistance position s in
  ((hook.now position - hook.lastWeatherCheckTimestampRef s <= 300000)%Z ->
   hook.weatherAlert s' = hook.weatherAlert s
   /\ hook.lastWeatherCheckTimestampRef s' = hook.lastWeatherCheckTimestampRef s)
  /\ ((300000 < hook.now position - hook.lastWeatherCheckTimestampRef s)%Z ->
      hook.lastWeatherCheckTimestampRef s' = hook.now position
      /\ match hook.weather position with
         | None => hook.weatherAlert s' = hook.weatherAlert s
         | Some weatherData =>
             if hook.isWeatherSevere (weatherCode weatherData)
             then hook.weatherAlert s'
                  = Some (hook.getWeatherAlertText (weatherCode weatherData))
             else match hook.weatherAlertRef s with
                  | Some _ => hook.weatherAlert s' = None
                  | None => hook.weatherAlert s' = hook.weatherAlert s
                  end
         end).
Proof.
  cbv zeta. destruct (onPosition_weather position s) as (H1 & H2 & _).
  cbv zeta in H1, H2. rewrite H1, H2.
  unfold hook.weatherStep, hook.applyWeather, hook.weatherCheckDue.
  change hook.WEATHER_CHECK_INTERVAL_MS with 300000%Z.
  split; intros Hdue.
  - destruct (Z.ltb_spec 300000 (hook.now position - hook.lastWeatherCheckTimestampRef s));
      [lia | split; reflexivity].
  - destruct (Z.ltb_spec 300000 (hook.now position - hook.lastWeatherCheckTimestampRef s));
      [| lia].
    destruct (hook.weather position) as [weatherData |]; [| split; reflexivity].
    destruct (hook.isWeatherSevere (weatherCode weatherData)); [split; reflexivity |].
    cbn. destruct (hook.weatherAlertRef s); split; reflexivity.
Qed.

(** X14. Stopping twice is stopping once, and a stopped session holds no
    route, alert, hazard, stats or snapshot.  The refs that mirror the
    route, the hazards and the alerts keep what they held until the
    component renders.  The watch is cleared, so the one handler that can
    still run is one that was waiting for the weather: once the component
    has rendered, it raises no navigation alert and computes no stats when
    it resumes, but it still raises the weather alert of a severe code. *)
Theorem stopNavigation_idempotent (s : hook.Session) (position : hook.Position) :
  hook.stopNavigation (hook.stopNavigation s) = hook.stopNavigation s
  /\ (let stopped := hook.stopNavigation s in
      hook.watching stopped = false /\ hook.isNavigating stopped = false
      /\ hook.safeRoute stopped = None /\ hook.emergencyRoute stopped = None
      /\ hook.navigationAlert stopped = None /\ hook.weatherAlert stopped = None
      /\ hook.animalsNearRoute stopped = [] /\ hook.navigationStats stopped = None
      /\ hook.closestPathIndexRef stopped = 0%nat
      /\ hook.isApproachingStartRef stopped = false
      /\ hook.initialRouteSnapshotRef stopped = None
      /\ hook.shownAnimalAlertsRef stopped = ∅)
  /\ (let stopped := hook.stopNavigation s in
      hook.safeRouteRef stopped = hook.safeRouteRef s
      /\ hook.emergencyRouteRef stopped = hook.emergencyRouteRef s
      /\ hook.animalsNearRouteRef stopped = hook.animalsNearRouteRef s
      /\ hook.navigationAlertRef stopped = hook.navigationAlertRef s
      /\ hook.weatherAlertRef stopped = hook.weatherAlertRef s)
  /\ (let late := hook.onPositionResume calculateDistance position
                    (hook.render (hook.stopNavigation s)) in
      hook.alertsRaised late = hook.alertsRaised s
      /\ hook.navigationAlert late = None
      /\ hook.navigationStats late = None
      /\ hook.closestPathIndexRef late = 0%nat
      /\ match hook.weather position with
         | Some weatherData =>
             if hook.isWeatherSevere (weatherCode weatherData)
             then hook.weatherAlert late
                  = Some (hook.getWeatherAlertText (weatherCode weatherData))
                  /\ hook.weatherAlertsRaised late
                     = hook.getWeatherAlertText (weatherCode weatherData)
                       :: hook.weatherAlertsRaised s
             else hook.weatherAlert late = None
                  /\ hook.weatherAlertsRaised late = hook.weatherAlertsRaised s
         | None => hook.weatherAlert late = None
                   /\ hook.weatherAlertsRaised late = hook.weatherAlertsRaised s
         end).
Proof.
  destruct s. split; [vm_compute; reflexivity |]. split; [vm_compute; repeat split |].
  split; [cbn; repeat split |].
  cbv zeta. unfold hook.onPositionResume, hook.onPositionEnd, hook.applyWeather,
    hook.triggerWeatherAlert, hook.clearWeatherAlert.
  destruct (hook.weather position) as [weatherData |];
    [destruct (hook.isWeatherSevere (weatherCode weatherData)) |];
    cbn; repeat split; reflexivity.
Qed.

(** X15. A lost signal is forgotten at the next fix.  After the watch
    reported an error and the component rendered, the signal-lost alert is
    on show, and the next fix clears it.  When its handler runs to its end
    before the component renders again (no weather check is due, or the
    weather is answered before the render), it raises no hazard alert,
    since it still sees the old alert; when the component renders while the
    handler waits for the weather, the handler resumes seeing no alert and
    raises the alert of the first hazard of the list that qualifies. *)
Theorem signal_lost_cleared_by_next_fix (s : hook.Session) (position : hook.Position) :
  let currentLiveLocation := mkLatLon (hook.latitude position) (hook.longitude position) in
  let lost := hook.render (hook.onPositionError s) in
  let next := hook.handle calculateDistance (hook.PositionFix position) lost in
  hook.navigationAlert lost = Some (hook.mkAlert None hook.SignalLost)
  /\ (hook.weatherCheckDue position lost = false ->
      (hook.navigationAlert next = None
       \/ hook.navigationAlert next = Some (hook.mkAlert None hook.NavigationBegun))
      /\ hook.hazardAlerts (hook.alertsRaised next) = hook.hazardAlerts (hook.alertsRaised s)
      /\ hook.shownAnimalAlertsRef next = hook.shownAnimalAlertsRef s)
  /\ (hook.weatherCheckDue position lost = true ->
      hook.navigationAlert next = None
      /\ hook.alertsRaised next = hook.alertsRaised lost
      /\ (let resumed := hook.handle calculateDistance (hook.WeatherAnswered position) next in
          hook.hazardAlerts (hook.alertsRaised resumed)
          = hook.hazardAlerts (hook.alertsRaised s)
          /\ hook.shownAnimalAlertsRef resumed = hook.shownAnimalAlertsRef s)
      /\ (let resumed := hook.handle calculateDistance (hook.WeatherAnswered position)
                           (hook.render next) in
          match List.find (hook.qualifiesForAlert calculateDistance currentLiveLocation
                             (hook.shownAnimalAlertsRef s))
                          (hook.animalsNearRoute s) with
          | Some animal =>
              hook.hazardAlerts (hook.alertsRaised resumed)
              = hook.animalAlert calculateDistance currentLiveLocation animal
                :: hook.hazardAlerts (hook.alertsRaised s)
              /\ hook.shownAnimalAlertsRef resumed
                 = {[animal_id animal]} ∪ hook.shownAnimalAlertsRef s
          | None =>
              hook.hazardAlerts (hook.alertsRaised resumed)
              = hook.hazardAlerts (hook.alertsRaised s)
              /\ hook.shownAnimalAlertsRef resumed = hook.shownAnimalAlertsRef s
          end)).
Proof.
  cbv zeta. split; [reflexivity |].
  set (lost := hook.render (hook.onPositionError s)).
  set (here := mkLatLon (hook.latitude position) (hook.longitude position)).
  assert (Hbegin : hook.navigationAlert (hook.onPositionBegin position lost) = None).
  { unfold hook.onPositionBegin, hook.weatherCheckDue, hook.clearNavigationAlert.
    cbn [hook.isSignalLost hook.navigationAlertRef lost hook.render hook.onPositionError
           hook.triggerNavigationAlert hook.put_alertsRaised hook.setNavigationAlert
           hook.navigationAlert].
    by_cases'. }
  destruct (onPositionBegin_keeps position lost) as (B1 & B2 & B3 & B4 & _).
  split.
  - intros Hdue. cbn [hook.handle]. rewrite Hdue.
    destruct (handle_ends_alerts calculateDistance (hook.PositionFix position) position lost)
      as (begun & Hbegun & Hcase); [left; split; [reflexivity | exact Hdue] |].
    cbn [hook.handle] in Hcase. rewrite Hdue in Hcase.
    change (hook.navigationAlertRef lost) with (Some (hook.mkAlert None hook.SignalLost))
      in Hcase.
    destruct Hcase as [Hlog Hshown]. rewrite Hlog, Hshown.
    split; [| split; [| reflexivity]].
    + unfold hook.onPositionEnd. rewrite animalAlertLoop_first, B1.
      change (hook.navigationAlertRef lost) with (Some (hook.mkAlert None hook.SignalLost)).
      destruct (trackProgress_showing calculateDistance here
                  (hook.onPositionBegin position lost)) as [Hsame | Hbegan].
      * left. fold here. rewrite Hsame. exact Hbegin.
      * right. exact Hbegan.
    + rewrite hazardAlerts_app. destruct Hbegun as [-> | ->]; reflexivity.
  - intros Hdue. cbn [hook.handle]. rewrite Hdue.
    split; [exact Hbegin |]. split; [exact B4 |]. split.
    + destruct (handle_ends_alerts calculateDistance (hook.WeatherAnswered position) position
                  (hook.onPositionBegin position lost))
        as (begun & Hbegun & Hcase); [right; reflexivity |].
      cbn [hook.handle] in Hcase. rewrite B1 in Hcase.
      change (hook.navigationAlertRef lost) with (Some (hook.mkAlert None hook.SignalLost))
        in Hcase.
      destruct Hcase as [Hlog Hshown]. rewrite Hlog, Hshown, B3, B4.
      split; [| reflexivity].
      rewrite hazardAlerts_app. destruct Hbegun as [-> | ->]; reflexivity.
    + destruct (handle_ends_alerts calculateDistance (hook.WeatherAnswered position) position
                  (hook.render (hook.onPositionBegin position lost)))
        as (begun & Hbegun & Hcase); [right; reflexivity |].
      cbn [hook.handle] in Hcase.
      assert (Href : hook.navigationAlertRef (hook.render (hook.onPositionBegin position lost))
                     = None) by exact Hbegin.
      assert (Hanimals : hook.animalsNearRouteRef
                           (hook.render (hook.onPositionBegin position lost))
                         = hook.animalsNearRoute s).
      { unfold hook.onPositionBegin, hook.weatherCheckDue, hook.clearNavigationAlert.
        cbn [hook.isSignalLost hook.navigationAlertRef lost hook.render hook.onPositionError
               hook.triggerNavigationAlert hook.put_alertsRaised hook.setNavigationAlert
               hook.navigationAlert].
        by_cases'. }
      assert (Hshown0 : hook.shownAnimalAlertsRef
                          (hook.render (hook.onPositionBegin position lost))
                        = hook.shownAnimalAlertsRef s) by exact B3.
      assert (Hlog0 : hook.alertsRaised (hook.render (hook.onPositionBegin position lost))
                      = hook.mkAlert None hook.SignalLost :: hook.alertsRaised s)
        by exact B4.
      rewrite Href, Hanimals, Hshown0, Hlog0 in Hcase. fold here in Hcase.
      cbn [hook.handle].
      destruct (List.find _ (hook.animalsNearRoute s)) as [animal |].
      * destruct Hcase as [Hlog Hshown]. rewrite Hlog, Hshown. split; [| reflexivity].
        rewrite hazardAlerts_app. destruct Hbegun as [-> | ->]; reflexivity.
      * destruct Hcase as [Hlog Hshown]. rewrite Hlog, Hshown. split; [| reflexivity].
        rewrite hazardAlerts_app. destruct Hbegun as [-> | ->]; reflexivity.
Qed.

End WeatherFacts.

Section StatsFacts.

Variable calculateDistance : LatLon -> LatLon -> Q.

(** The ratio grows with the index and is 1 at the last vertex. *)
Lemma progressRatioOf_mono (routePath : list Coord) (i j : nat) :
  (i <= j)%nat ->
  hook.progressRatioOf routePath i <= hook.progressRatioOf routePath j.
Proof.
  intros Hij. unfold hook.progressRatioOf.
  destruct (Nat.ltb_spec 1 (length routePath)) as [Hlen | _]; [| apply Qle_refl].
  assert (Hd : 0 < Num.ofNat (length routePath) - 1).
  { rewrite ofNat_pred by lia. change 0 with (Num.ofNat 0).
    unfold Num.ofNat. rewrite <- Zlt_Qlt. lia. }
  apply fl_mono.
  apply Qle_shift_div_l; [exact Hd |].
  assert (E : Num.ofNat i / (Num.ofNat (length routePath) - 1)
              * (Num.ofNat (length routePath) - 1) == Num.ofNat i).
  { field. lra. }
  rewrite E. now apply ofNat_mono.
Qed.

Lemma progressRatioOf_last (routePath : list Coord) :
  (2 <= length routePath)%nat ->
  hook.progressRatioOf routePath (length routePath - 1) = 1.
Proof.
  intros Hlen. unfold hook.progressRatioOf.
  destruct (Nat.ltb_spec 1 (length routePath)) as [_ | Hshort]; [| lia].
  rewrite <- fl_1. apply fl_comp.
  rewrite ofNat_pred by lia.
  assert (Hd : 0 < Num.ofNat (length routePath - 1)).
  { change 0 with (Num.ofNat 0). unfold Num.ofNat. rewrite <- Zlt_Qlt. lia. }
  field. lra.
Qed.

Lemma progressRatioOf_first (routePath : list Coord) :
  hook.progressRatioOf routePath 0 = 0.
Proof.
  unfold hook.progressRatioOf.
  destruct (1 <? length routePath)%nat; [| reflexivity].
  rewrite <- fl_0. apply fl_comp.
  change (Num.ofNat 0) with 0. unfold Qdiv. ring.
Qed.

(** The three numbers of the stats as functions of the ratio. *)
Lemma fl_nonneg (x : Q) : 0 <= x -> 0 <= Num.fl x.
Proof. intros H. rewrite <- fl_0. now apply fl_mono. Qed.

Lemma remaining_mono (total r r' : Q) :
  0 <= total -> r <= r' ->
  Num.fl (Num.toFixed1 (Num.fl (Num.fl total * Num.fl (1 - r'))))
  <= Num.fl (Num.toFixed1 (Num.fl (Num.fl total * Num.fl (1 - r)))).
Proof.
  intros Htotal Hr. apply fl_mono, toFixed1_mono, fl_mono.
  assert (Hw : Num.fl (1 - r') <= Num.fl (1 - r)) by (apply fl_mono; lra).
  rewrite !(Qmult_comm (Num.fl total)).
  apply Qmult_le_compat_r; [exact Hw | now apply fl_nonneg].
Qed.

Lemma eta_mono (total r r' : Q) :
  0 <= total -> r <= r' ->
  Num.Math_round (Num.fl (Num.fl total * Num.fl (1 - r')))
  <= Num.Math_round (Num.fl (Num.fl total * Num.fl (1 - r))).
Proof.
  intros Htotal Hr. apply Math_round_mono, fl_mono.
  assert (Hw : Num.fl (1 - r') <= Num.fl (1 - r)) by (apply fl_mono; lra).
  rewrite !(Qmult_comm (Num.fl total)).
  apply Qmult_le_compat_r; [exact Hw | now apply fl_nonneg].
Qed.

Lemma percent_mono (r r' : Q) :
  r <= r' ->
  Num.Math_max 0 (Num.Math_min 100 (Num.Math_round (Num.fl (r * 100))))
  <= Num.Math_max 0 (Num.Math_min 100 (Num.Math_round (Num.fl (r' * 100)))).
Proof. intros Hr. apply clamp_mono, Math_round_mono, fl_mono. lra. Qed.

(** At ratio 0 and at ratio 1. *)
Lemma stats_at_0 (total : Q) :
  Num.fl (Num.fl total * Num.fl (1 - 0)) = Num.fl total.
Proof.
  rewrite (fl_comp (1 - 0) 1) by ring. rewrite fl_1.
  rewrite (fl_comp (Num.fl total * 1) (Num.fl total)) by ring. apply fl_idem.
Qed.

Lemma stats_at_1 (total : Q) :
  Num.fl (Num.fl total * Num.fl (1 - 1)) = 0.
Proof.
  rewrite (fl_comp (1 - 1) 0) by ring. rewrite fl_0.
  rewrite (fl_comp (Num.fl total * 0) 0) by ring. apply fl_0.
Qed.

(** X16. The stats follow the matched index: a farther index never gives
    a smaller percent, nor, for totals that are not negative, a larger
    remaining distance or ETA; at index 0 they are the route's totals
    (rounded) and 0 %, at the last vertex of a path of two points or more
    they are 0 km, 0 min and 100 %. *)
Theorem statsOf_monotone (activeRoute : Route) (i j : nat) :
  (i <= j)%nat ->
  0 <= distanceKm activeRoute -> 0 <= durationMinutes activeRoute ->
  progressPercent (hook.statsOf activeRoute i) <= progressPercent (hook.statsOf activeRoute j)
  /\ remainingKm (hook.statsOf activeRoute j) <= remainingKm (hook.statsOf activeRoute i)
  /\ etaMinutes (hook.statsOf activeRoute j) <= etaMinutes (hook.statsOf activeRoute i)
  /\ hook.statsOf activeRoute 0
     = mkStats (Num.fl (Num.toFixed1 (Num.fl (distanceKm activeRoute))))
               (Num.Math_round (Num.fl (durationMinutes activeRoute))) 0
  /\ ((2 <= length (path activeRoute))%nat ->
      remainingKm (hook.statsOf activeRoute (length (path activeRoute) - 1)) == 0
      /\ etaMinutes (hook.statsOf activeRoute (length (path activeRoute) - 1)) == 0
      /\ progressPercent (hook.statsOf activeRoute (length (path activeRoute) - 1)) == 100).
Proof.
  intros Hij Hdist Hdur.
  pose proof (progressRatioOf_mono (path activeRoute) i j Hij) as Hratio.
  unfold hook.statsOf. cbn [progressPercent remainingKm etaMinutes].
  split; [| split; [| split; [| split]]].
  - now apply percent_mono.
  - now apply remaining_mono.
  - now apply eta_mono.
  - rewrite progressRatioOf_first, !stats_at_0.
    rewrite (fl_comp (0 * 100) 0) by ring. reflexivity.
  - intros Hlen. rewrite (progressRatioOf_last (path activeRoute) Hlen), !stats_at_1.
    rewrite (fl_comp (1 * 100) 100) by ring. rewrite fl_100.
    repeat split; vm_compute; reflexivity.
Qed.

End StatsFacts.

Section RangeFacts.

Variable calculateDistance : LatLon -> LatLon -> Q.

Local Abbreviation onPosition := (hook.onPosition calculateDistance).

Lemma progressRatioOf_range (routePath : list Coord) (index : nat) :
  (2 <= length routePath)%nat -> (index < length routePath)%nat ->
  0 <= hook.progressRatioOf routePath index <= 1.
Proof.
  intros Hlen Hindex. split.
  - rewrite <- (progressRatioOf_first routePath).
    apply progressRatioOf_mono. lia.
  - rewrite <- (progressRatioOf_last routePath Hlen).
    apply progressRatioOf_mono. lia.
Qed.

(** X17. A fix processed on a route of two vertices or more, whose
    cursor is inside the path, leaves the cursor inside the path; outside
    the approaching-start state, and for totals that are not negative, the
    stats it emits lie between 0 and the route's (rounded) totals. *)
Theorem onPosition_stays_on_path (position : hook.Position) (s : hook.Session)
    (activeRoute : Route) :
  hook.activeRouteOf s = Some activeRoute ->
  (2 <= length (path activeRoute))%nat ->
  (hook.closestPathIndexRef s < length (path activeRoute))%nat ->
  0 <= distanceKm activeRoute -> 0 <= durationMinutes activeRoute ->
  (hook.closestPathIndexRef (onPosition position s) < length (path activeRoute))%nat
  /\ (hook.isApproachingStartRef (onPosition position s) = false ->
      exists stats,
        hook.navigationStats (onPosition position s) = Some stats
        /\ 0 <= remainingKm stats
           <= Num.fl (Num.toFixed1 (Num.fl (distanceKm activeRoute)))
        /\ 0 <= etaMinutes stats <= Num.Math_round (Num.fl (durationMinutes activeRoute))
        /\ 0 <= progressPercent stats <= 100).
Proof.
  intros Hactive Hlen Hindex Hdist Hdur.
  destruct (onPosition_result calculateDistance position s activeRoute Hactive)
    as [Happroaching Hres].
  cbv zeta in Happroaching, Hres.
  set (here := mkLatLon (hook.latitude position) (hook.longitude position)) in *.
  destruct (getPathDataFromLocation_found calculateDistance here (path activeRoute)
              (hook.closestPathIndexRef s) Hlen ltac:(lia))
    as (c & Hfound & _ & Hc & _).
  assert (Hnearest : hook.newClosestPointIndexOf calculateDistance here activeRoute s = c).
  { unfold hook.newClosestPointIndexOf. rewrite Hfound. reflexivity. }
  rewrite Hnearest in Hres.
  destruct (hook.isNowApproachingOf calculateDistance here activeRoute s).
  - destruct Hres as (Href & _). split; [rewrite Href; exact Hindex |].
    intros Hfalse. congruence.
  - destruct Hres as (Href & _ & Hstats). split; [rewrite Href; exact Hc |].
    intros _. eexists. split; [exact Hstats |].
    pose proof (progressRatioOf_range (path activeRoute) c Hlen Hc) as [Hr0 Hr1].
    unfold hook.statsOf. cbn [remainingKm etaMinutes progressPercent].
    set (r := hook.progressRatioOf (path activeRoute) c) in *.
    repeat split.
    + apply Qle_trans with (Num.fl (Num.toFixed1 (Num.fl (Num.fl (distanceKm activeRoute)
                                                           * Num.fl (1 - 1))))).
      * rewrite stats_at_1. vm_compute. discriminate.
      * now apply remaining_mono.
    + pose proof (remaining_mono (distanceKm activeRoute) 0 r Hdist Hr0) as H0.
      rewrite stats_at_0 in H0. exact H0.
    + apply Qle_trans with (Num.Math_round (Num.fl (Num.fl (durationMinutes activeRoute)
                                                     * Num.fl (1 - 1)))).
      * rewrite stats_at_1. vm_compute. discriminate.
      * now apply eta_mono.
    + pose proof (eta_mono (durationMinutes activeRoute) 0 r Hdur Hr0) as H0.
      rewrite stats_at_0 in H0. exact H0.
    + apply clamp_percent.
    + apply clamp_percent.
Qed.

End RangeFacts.

Section MoreArbitrationFacts.

Variable getSafeNavigationRoute :
  Location -> Location -> list api.Polygon -> TravelMode -> Outcome (option Route).
Variable createCirclePolygon : Coord -> Q -> api.Polygon.

Local Abbreviation calculateSafeRoute :=
  (hook.calculateSafeRoute getSafeNavigationRoute createCirclePolygon).
Local Abbreviation avoidancePolygonsOf :=
  (hook.avoidancePolygonsOf createCirclePolygon).

Lemma avoidancePolygonsOf_length (relevantPredictions : list AnimalPrediction)
    (excludedAnimalIds : list string) (radius : Q) :
  length (avoidancePolygonsOf relevantPredictions excludedAnimalIds radius)
  = length (List.filter (fun p => negb (bool_decide (animal_id p ∈ excludedAnimalIds)))
                        relevantPredictions).
Proof. unfold hook.avoidancePolygonsOf. apply length_map. Qed.

Lemma filter_nil_iff {A : Type} (f : A -> bool) (l : list A) :
  List.filter f l = [] <-> forall x, In x l -> f x = false.
Proof.
  induction l as [| a l IH]; cbn.
  - split; [intros _ x [] | reflexivity].
  - destruct (f a) eqn:Ha; split.
    + discriminate.
    + intros H. specialize (H a (or_introl eq_refl)). congruence.
    + intros H x [<- | Hx]; [exact Ha | now apply IH].
    + intros H. apply IH. intros x Hx. apply H. now right.
Qed.

(** X18. When every hazard of the list is excluded (or the list is
    empty) and the direct route is found, no polygon is drawn and the plan
    is the direct route as it came, with no alternative and the
    no-wildlife-risk message. *)
Theorem calculateSafeRoute_without_hazards (startLoc endLoc : Location) (radius : Q)
    (mode : TravelMode) (excludedAnimalIds : list string)
    (relevantPredictions : list AnimalPrediction) (directRoute : Route) :
  getSafeNavigationRoute startLoc endLoc [] mode = Returned (Some directRoute) ->
  (forall p, In p relevantPredictions -> animal_id p ∈ excludedAnimalIds) ->
  avoidancePolygonsOf relevantPredictions excludedAnimalIds radius = []
  /\ calculateSafeRoute startLoc endLoc radius mode excludedAnimalIds relevantPredictions
     = Returned (hook.mkPlan directRoute None hook.NoWildlifeRisk).
Proof.
  intros Hdirect Hexcluded.
  assert (Hnone : avoidancePolygonsOf relevantPredictions excludedAnimalIds radius = []).
  { unfold hook.avoidancePolygonsOf.
    replace (List.filter _ relevantPredictions) with (@nil AnimalPrediction); [reflexivity |].
    symmetry. apply filter_nil_iff. intros p Hp.
    rewrite bool_decide_eq_true_2 by (apply Hexcluded; exact Hp). reflexivity. }
  split; [exact Hnone |].
  unfold hook.calculateSafeRoute. rewrite Hdirect, Hnone. reflexivity.
Qed.

(** X19. How route planning fails: an error of the direct request is
    passed on; a direct request that finds nothing raises the
    no-direct-route error, whatever the hazards; and with a direct route
    and a hazard that is not excluded, an error of the second request is
    passed on too, so the direct route that was found is not returned. *)
Theorem calculateSafeRoute_failures (startLoc endLoc : Location) (radius : Q)
    (mode : TravelMode) (excludedAnimalIds : list string)
    (relevantPredictions : list AnimalPrediction) :
  (forall error,
      getSafeNavigationRoute startLoc endLoc [] mode = Thrown error ->
      calculateSafeRoute startLoc endLoc radius mode excludedAnimalIds relevantPredictions
      = Thrown error)
  /\ (getSafeNavigationRoute startLoc endLoc [] mode = Returned None ->
      calculateSafeRoute startLoc endLoc radius mode excludedAnimalIds relevantPredictions
      = Thrown NoDirectRoute)
  /\ (forall directRoute hazard error,
         getSafeNavigationRoute startLoc endLoc [] mode = Returned (Some directRoute) ->
         In hazard relevantPredictions ->
         animal_id hazard ∉ excludedAnimalIds ->
         getSafeNavigationRoute startLoc endLoc
           (avoidancePolygonsOf relevantPredictions excludedAnimalIds radius) mode
         = Thrown error ->
         calculateSafeRoute startLoc endLoc radius mode excludedAnimalIds relevantPredictions
         = Thrown error).
Proof.
  unfold hook.calculateSafeRoute. split; [| split].
  - intros error ->. reflexivity.
  - intros ->. reflexivity.
  - intros directRoute hazard error -> Hin Hnot Hsafe.
    destruct (avoidancePolygonsOf relevantPredictions excludedAnimalIds radius)
      as [| polygon polygons] eqn:Hpolygons.
    + exfalso. apply (f_equal (@length _)) in Hpolygons.
      rewrite avoidancePolygonsOf_length in Hpolygons.
      apply length_zero_iff_nil in Hpolygons.
      pose proof (proj1 (filter_nil_iff _ _) Hpolygons hazard Hin) as Hf.
      cbv beta in Hf. rewrite bool_decide_eq_false_2 in Hf by exact Hnot. discriminate.
    + cbn [length Nat.ltb Nat.leb]. rewrite Hsafe. reflexivity.
Qed.

End MoreArbitrationFacts.

Section PlacesFacts.

Lemma orElse_nonempty (x : option string) (fallback : string) :
  fallback <> EmptyString -> apiService.orElse x fallback <> EmptyString.
Proof.
  intros Hfallback. unfold apiService.orElse.
  destruct x as [s |]; [| exact Hfallback].
  destruct (String.eqb s EmptyString) eqn:Hs; [exact Hfallback |].
  now apply String.eqb_neq.
Qed.

Lemma nonEmpty_not_empty (x : option string) :
  apiService.nonEmpty x <> Some EmptyString.
Proof.
  unfold apiService.nonEmpty. destruct x as [s |]; [| discriminate].
  destruct (String.eqb s EmptyString) eqn:Hs; [discriminate |].
  apply String.eqb_neq in Hs. congruence.
Qed.

Lemma truthy_nonzero (x : option Q) :
  apiService.truthy x = true -> exists q, x = Some q /\ ~ q == 0.
Proof.
  unfold apiService.truthy. destruct x as [q |]; [| discriminate].
  intros H. exists q. split; [reflexivity |].
  intros Hq. apply Qeq_bool_iff in Hq. rewrite Hq in H. discriminate.
Qed.

(** X20. Every safe place kept from an answer of the map service comes
    from one of its elements, has coordinates that are both present and
    not 0, is a police station exactly when the element's amenity tag says
    so (a ranger post otherwise), has a name that is not empty, and
    carries no empty address, hours or phone; the order of the elements is
    kept. *)
Theorem placesOf_wellformed (elements : list apiService.Element)
    (place : geoService.SafePlace) :
  In place (apiService.placesOf elements) ->
  (exists el,
      In el elements
      /\ place = apiService.raw_place (apiService.placeOf el)
      /\ geoService.sp_id place = apiService.el_id el
      /\ (geoService.sp_type place = geoService.police
          <-> apiService.tag el "amenity" = Some "police"))
  /\ ~ geoService.sp_lat place == 0 /\ ~ geoService.sp_lon place == 0
  /\ geoService.sp_name place <> EmptyString
  /\ geoService.sp_address place <> Some EmptyString
  /\ geoService.sp_hours place <> Some EmptyString
  /\ geoService.sp_phone place <> Some EmptyString.
Proof.
  unfold apiService.placesOf. intros Hin.
  apply in_map_iff in Hin. destruct Hin as (raw & <- & Hraw).
  apply List.filter_In in Hraw. destruct Hraw as [Hraw Hkept].
  apply in_map_iff in Hraw. destruct Hraw as (el & <- & Hel).
  apply andb_true_iff in Hkept. destruct Hkept as [Hlat Hlon].
  apply truthy_nonzero in Hlat, Hlon.
  destruct Hlat as (qlat & Hlat & Hlat0). destruct Hlon as (qlon & Hlon & Hlon0).
  split; [exists el; repeat split; try assumption |].
  - unfold apiService.placeOf. cbn [apiService.raw_place geoService.sp_type].
    destruct (apiService.tag el "amenity") as [amenity |]; [| discriminate].
    destruct (String.eqb amenity "police") eqn:Hamenity; [| discriminate].
    apply String.eqb_eq in Hamenity. congruence.
  - unfold apiService.placeOf. cbn [apiService.raw_place geoService.sp_type].
    intros ->. reflexivity.
  - unfold apiService.placeOf in *.
    cbn [apiService.raw_place apiService.raw_lat apiService.raw_lon
         geoService.sp_lat geoService.sp_lon geoService.sp_name
         geoService.sp_address geoService.sp_hours geoService.sp_phone] in *.
    rewrite Hlat, Hlon. cbn [default].
    repeat split; try assumption; try apply nonEmpty_not_empty.
    apply orElse_nonempty.
    destruct (apiService.tag el "amenity") as [amenity |]; [| discriminate].
    destruct (String.eqb amenity "police"); discriminate.
Qed.

Lemma Math_min_le (a b : Q) : Num.Math_min a b <= a /\ Num.Math_min a b <= b.
Proof.
  unfold Num.Math_min. destruct (Num.ltb b a) eqn:H.
  - apply ltb_lt in H. split; [apply Qlt_le_weak; exact H | apply Qle_refl].
  - apply ltb_ge in H. split; [apply Qle_refl | exact H].
Qed.

Lemma Math_max_ge (a b : Q) : a <= Num.Math_max a b /\ b <= Num.Math_max a b.
Proof.
  unfold Num.Math_max. destruct (Num.ltb a b) eqn:H.
  - apply ltb_lt in H. split; [apply Qlt_le_weak; exact H | apply Qle_refl].
  - apply ltb_ge in H. split; [apply Qle_refl | exact H].
Qed.

Lemma boxStep_fold (routePath : list Coord) (a b c d a' b' c' d' : Q) :
  fold_left apiService.boxStep routePath (a, b, c, d) = (a', b', c', d') ->
  (a' <= a /\ b <= b' /\ c' <= c /\ d <= d')
  /\ forall vertex, In vertex routePath ->
       a' <= fst vertex <= b' /\ c' <= snd vertex <= d'.
Proof.
  revert a b c d. induction routePath as [| v rest IH]; intros a b c d Hfold.
  - cbn [fold_left] in Hfold. injection Hfold as <- <- <- <-.
    split; [repeat split; apply Qle_refl | intros vertex []].
  - cbn [fold_left apiService.boxStep] in Hfold.
    apply IH in Hfold. destruct Hfold as [(H1 & H2 & H3 & H4) Hrest].
    pose proof (Math_min_le a (fst v)) as [? ?].
    pose proof (Math_max_ge b (fst v)) as [? ?].
    pose proof (Math_min_le c (snd v)) as [? ?].
    pose proof (Math_max_ge d (snd v)) as [? ?].
    split; [repeat split; eapply Qle_trans; eassumption |].
    intros vertex [<- | Hin]; [| apply Hrest; exact Hin].
    repeat split; eapply Qle_trans; eassumption.
Qed.

(** X21. The box sent with the query for safe places along a route:
    none for an empty path; otherwise a box that holds every vertex of the
    path with a margin of 0.05 degrees on each side, whatever the
    coordinates are. *)
Theorem routeBox_encloses (routePath : list Coord) :
  (routePath = [] <-> apiService.routeBox routePath = None)
  /\ forall south west north east,
       apiService.routeBox routePath = Some (south, west, north, east) ->
       forall vertex, In vertex routePath ->
         south + 0.05 <= fst vertex /\ fst vertex <= north - 0.05
         /\ west + 0.05 <= snd vertex /\ snd vertex <= east - 0.05.
Proof.
  unfold apiService.routeBox. split.
  - destruct routePath as [| v rest]; cbn [length Nat.eqb].
    + split; reflexivity.
    + destruct (fold_left _ _ _) as [[[a b] c] d]. split; discriminate.
  - intros south west north east Hbox vertex Hin.
    destruct (length routePath =? 0)%nat; [discriminate |].
    destruct (fold_left apiService.boxStep routePath _) as [[[a b] c] d] eqn:Hfold.
    apply boxStep_fold in Hfold. destruct Hfold as [_ Hfold].
    specialize (Hfold vertex Hin).
    injection Hbox as <- <- <- <-. lra.
Qed.

End PlacesFacts.

Section CallFacts.

Variable Json : Type.
Variable JSON_parse : string -> option Json.
Variable display_name : Json -> option string.
Variable results : Json -> option (list apiService.Occurrence).

Local Abbreviation reverseGeocode := (apiService.reverseGeocode Json JSON_parse display_name).
Local Abbreviation getAnimalSightings := (apiService.getAnimalSightings Json JSON_parse results).

Lemma fetchJson_default_calls (network : nat -> api.FetchOutcome) :
  let run := api.fetchJson Json JSON_parse network 3 1000 in
  (1 <= api.fetchCalls run <= 3)%nat
  /\ forall error, api.outcome run = Thrown error ->
                   error = DataNotFetched /\ api.fetchCalls run = 3%nat.
Proof.
  pose proof (fetchJson_shape Json JSON_parse network 3 1000) as [_ H].
  cbv zeta in *.
  destruct (api.outcome _) as [value | error'].
  - split; [lia | discriminate].
  - destruct H as (-> & Hcalls & _). split; [lia |].
    intros error [= <-]. split; [reflexivity | lia].
Qed.

(** X22. Reverse geocoding checks the coordinates before it asks:
    outside [-90, 90] x [-180, 180] it fails with the invalid-coordinates
    error and no request is made; inside, one to three requests are made,
    the name is never empty ("Unknown location" stands in for a missing or
    empty one), and the only other failure is the fetch helper's generic
    error after three requests. *)
Theorem reverseGeocode_validates (lat lon : Q) (network : nat -> api.FetchOutcome) :
  let inRange := -90 <= lat /\ lat <= 90 /\ -180 <= lon /\ lon <= 180 in
  (~ inRange ->
   reverseGeocode lat lon network = (apiService.InvalidCoordinates lat lon, 0%nat))
  /\ (inRange ->
      (1 <= snd (reverseGeocode lat lon network) <= 3)%nat
      /\ match fst (reverseGeocode lat lon network) with
         | apiService.Resolved name => name <> EmptyString
         | apiService.InvalidCoordinates _ _ => False
         | apiService.GeocodeFailed error =>
             error = DataNotFetched /\ snd (reverseGeocode lat lon network) = 3%nat
         end).
Proof.
  cbv zeta. unfold apiService.reverseGeocode.
  destruct (Num.ltb lat (-90)) eqn:H1; [apply ltb_lt in H1 | apply ltb_ge in H1];
    destruct (Num.gtb lat 90) eqn:H2; [apply gtb_gt in H2 | apply gtb_le in H2 | apply gtb_gt in H2 | apply gtb_le in H2];
    destruct (Num.ltb lon (-180)) eqn:H3; [apply ltb_lt in H3 | apply ltb_ge in H3 | apply ltb_lt in H3 | apply ltb_ge in H3 | apply ltb_lt in H3 | apply ltb_ge in H3 | apply ltb_lt in H3 | apply ltb_ge in H3];
    destruct (Num.gtb lon 180) eqn:H4;
    try apply gtb_gt in H4; try apply gtb_le in H4;
    cbn [orb];
    try (split; [reflexivity | intros (? & ? & ? & ?); exfalso; lra]).
  split; [intros Hnot; exfalso; apply Hnot; repeat split; assumption |].
  intros _.
  pose proof (fetchJson_default_calls network) as [Hcalls Hthrown]. cbv zeta in *.
  destruct (api.outcome _) as [[data |] | error]; cbn [fst snd].
  - split; [exact Hcalls |]. apply orElse_nonempty. discriminate.
  - split; [exact Hcalls | discriminate].
  - split; [exact Hcalls |]. apply Hthrown. reflexivity.
Qed.

(** X23. The sightings of a species: without a taxon key no request is
    made and there is none; otherwise at most three requests are made,
    a failed fetch gives none, and every sighting returned has a latitude
    and a longitude that are both not 0 (an occurrence on the equator or
    on the prime meridian is dropped), at most one per occurrence. *)
Theorem getAnimalSightings_filtered (taxonKey : string) (network : nat -> api.FetchOutcome) :
  (taxonKey = EmptyString -> getAnimalSightings taxonKey network = ([], 0%nat))
  /\ (snd (getAnimalSightings taxonKey network) <= 3)%nat
  /\ (forall error,
         taxonKey <> EmptyString ->
         api.outcome (api.fetchJson Json JSON_parse network 3 1000) = Thrown error ->
         fst (getAnimalSightings taxonKey network) = [])
  /\ (forall sighting,
         In sighting (fst (getAnimalSightings taxonKey network)) ->
         ~ s_lat sighting == 0 /\ ~ s_lon sighting == 0)
  /\ (forall data occurrences,
         taxonKey <> EmptyString ->
         api.outcome (api.fetchJson Json JSON_parse network 3 1000) = Returned (Some data) ->
         results data = Some occurrences ->
         (length (fst (getAnimalSightings taxonKey network)) <= length occurrences)%nat).
Proof.
  unfold apiService.getAnimalSightings.
  pose proof (fetchJson_default_calls network) as [Hcalls _]. cbv zeta in Hcalls.
  destruct (String.eqb taxonKey EmptyString) eqn:Hkey.
  - apply String.eqb_eq in Hkey.
    repeat split; cbn; try lia; try contradiction; try congruence.
  - apply String.eqb_neq in Hkey.
    split; [congruence |].
    destruct (api.outcome _) as [[data |] | error'] eqn:Hout; cbn [fst snd].
    + destruct (results data) as [occurrences |] eqn:Hresults; cbn [fst snd].
      * split; [lia |]. split; [discriminate |]. split.
        -- intros sighting Hin. apply in_map_iff in Hin.
           destruct Hin as (raw & <- & Hraw).
           apply List.filter_In in Hraw. destruct Hraw as [_ Hkept].
           apply andb_true_iff in Hkept. destruct Hkept as [Hlat Hlon].
           apply truthy_nonzero in Hlat, Hlon.
           destruct Hlat as (qlat & -> & Hlat0). destruct Hlon as (qlon & -> & Hlon0).
           cbn. split; assumption.
        -- intros data' occurrences' _ [= <-] Hres'.
           rewrite Hresults in Hres'. injection Hres' as <-.
           rewrite length_map.
           eapply Nat.le_trans; [apply List.filter_length_le | rewrite length_map; lia].
      * split; [lia |]. split; [discriminate |]. split; [intros ? [] |].
        intros data' occurrences' _ [= <-] Hres'. congruence.
    + split; [lia |]. split; [reflexivity |]. split; [intros ? [] |]. discriminate.
    + split; [lia |]. split; [reflexivity |]. split; [intros ? [] |]. discriminate.
Qed.

End CallFacts.

Section LegFacts.

Variable calculateDistance : LatLon -> LatLon -> Q.



End LegFacts.

Section HistoryFacts.

(** X25. The search history stays a list of at most five distinct
    entries: a name searched again leaves it as it is (the entry does not
    move to the front), a new name goes in front and only the four most
    recent of the others are kept. *)
Theorem searchHistoryAfter_bounded (location : string) (searchHistory : list string) :
  NoDup searchHistory -> (length searchHistory <= 5)%nat ->
  let history' := useAnimalData.searchHistoryAfter location searchHistory in
  NoDup history' /\ (length history' <= 5)%nat
  /\ location ∈ history'
  /\ (location ∈ searchHistory -> history' = searchHistory)
  /\ (location ∉ searchHistory -> history' = location :: take 4 searchHistory).
Proof.
  intros Hnodup Hlen. cbv zeta. unfold useAnimalData.searchHistoryAfter.
  destruct (bool_decide (location ∈ searchHistory)) eqn:Hin.
  - apply bool_decide_eq_true_1 in Hin.
    split; [exact Hnodup |]. split; [exact Hlen |]. split; [exact Hin |].
    split; [reflexivity | intros Hnot; contradiction].
  - apply bool_decide_eq_false_1 in Hin.
    split; [| split; [| split; [| split]]].
    + apply NoDup_cons. split.
      * intros Htake. apply Hin. apply (subseteq_take 4 searchHistory). exact Htake.
      * eapply sublist_NoDup; [exact Hnodup | apply sublist_take].
    + cbn [length]. rewrite length_take. lia.
    + apply elem_of_cons. left. reflexivity.
    + intros Hyes. contradiction.
    + reflexivity.
Qed.

End HistoryFacts.

Section AuthFacts.

Variable toLowerCase : string -> string.

Local Abbreviation handleAuth := (App.handleAuth toLowerCase).

(** X26. Signing up with a password that is not empty, for an address
    that has no account with a password, succeeds, stores the account
    under the lower-cased address and shows the onboarding; logging in
    right after with the same address and password succeeds and leaves
    the state as the sign-up left it, and logging in with any other
    password is refused and changes nothing. *)
Theorem handleAuth_signup_then_login (name email pass : string) (st : App.State) :
  pass <> EmptyString ->
  App.registered (App.usersDB st) (toLowerCase email) = false ->
  let newUser := App.mkUser name (toLowerCase email) "tiger"
                            (Some useAnimalData.NEARBY_KM) true in
  let st1 := snd (handleAuth App.signup name email pass st) in
  fst (handleAuth App.signup name email pass st) = None
  /\ App.user st1 = Some newUser
  /\ App.usersDB st1 !! toLowerCase email = Some pass
  /\ App.showOnboarding st1 = true
  /\ (forall name', handleAuth App.login name' email pass st1 = (None, st1))
  /\ (forall name' wrong,
         wrong <> pass ->
         handleAuth App.login name' email wrong st1
         = (Some "Invalid credentials. Please try again.", st1)).
Proof.
  intros Hpass Hfree. cbv zeta.
  assert (Hsignup :
            handleAuth App.signup name email pass st
            = (None,
               let newUser := App.mkUser name (toLowerCase email) "tiger"
                                         (Some useAnimalData.NEARBY_KM) true in
               let newDB := <[toLowerCase email := pass]> (App.usersDB st) in
               App.mkState (Some newUser) newDB true
                 (App.mkStorage (Some newDB) (Some newUser)
                    (<[toLowerCase email := newUser]>
                       (App.user_items (App.localStorage st)))))).
  { unfold App.handleAuth. rewrite Hfree. reflexivity. }
  rewrite Hsignup. cbv zeta. cbn [fst snd App.user App.usersDB App.showOnboarding].
  assert (Hlookup : <[toLowerCase email := pass]> (App.usersDB st) !! toLowerCase email
                    = Some pass) by apply lookup_insert_eq.
  assert (Hregistered :
            App.registered (<[toLowerCase email := pass]> (App.usersDB st))
                           (toLowerCase email) = true).
  { unfold App.registered. rewrite Hlookup.
    apply negb_true_iff, String.eqb_neq. exact Hpass. }
  repeat split; try assumption.
  - intros name'. unfold App.handleAuth.
    cbn [App.usersDB App.localStorage App.user_items App.users_item App.showOnboarding].
    rewrite Hregistered, bool_decide_eq_true_2 by exact Hlookup.
    cbn [andb]. rewrite lookup_insert_eq. reflexivity.
  - intros name' wrong Hwrong. unfold App.handleAuth.
    cbn [App.usersDB App.localStorage App.user_items App.users_item App.showOnboarding].
    rewrite Hregistered, bool_decide_eq_false_2; [reflexivity |].
    rewrite Hlookup. congruence.
Qed.

(** X27. Through any call of the handler, the accounts in memory stay
    the stored ones and every account with a password keeps its user
    data; a call that returns a message changes nothing; an account with
    a password is never overwritten; and in such a state a login is
    refused only for invalid credentials. *)
Theorem handleAuth_keeps_accounts (mode : App.Mode) (name email pass : string)
    (st : App.State) :
  App.consistent st ->
  let result := fst (handleAuth mode name email pass st) in
  let st' := snd (handleAuth mode name email pass st) in
  App.consistent st'
  /\ (result <> None -> st' = st)
  /\ (forall address stored,
         App.registered (App.usersDB st) address = true ->
         App.usersDB st !! address = Some stored ->
         App.usersDB st' !! address = Some stored)
  /\ (mode = App.login ->
      result = None \/ result = Some "Invalid credentials. Please try again.").
Proof.
  intros [Hstored Hdata]. cbv zeta. unfold App.handleAuth.
  destruct mode.
  - destruct (App.registered (App.usersDB st) (toLowerCase email)) eqn:Hregistered;
      cbn [andb]; [| repeat split; try assumption; try tauto; auto].
    destruct (bool_decide _) eqn:Hmatch;
      [| repeat split; try assumption; try tauto; auto].
    destruct (Hdata _ Hregistered) as [data Hitem]. rewrite Hitem.
    cbn [fst snd]. repeat split; try assumption; try tauto; auto.
  - destruct (App.registered (App.usersDB st) (toLowerCase email)) eqn:Hregistered;
      cbn [fst snd]; [repeat split; try assumption; try tauto; try discriminate |].
    split; [split |]; cbn [App.localStorage App.usersDB App.users_item App.user_items].
    + reflexivity.
    + intros address Haddress.
      destruct (decide (address = toLowerCase email)) as [-> | Hne].
      * rewrite lookup_insert_eq. eexists. reflexivity.
      * rewrite lookup_insert_ne by congruence. apply Hdata.
        unfold App.registered in *. rewrite lookup_insert_ne in Haddress by congruence.
        exact Haddress.
    + split; [intros Hnot; contradiction |]. split; [| discriminate].
      intros address stored Haddress Hlookup.
      destruct (decide (address = toLowerCase email)) as [-> | Hne].
      * congruence.
      * rewrite lookup_insert_ne by congruence. exact Hlookup.
Qed.

End AuthFacts.

Section NearbyFacts.

Variable calculateDistance : LatLon -> LatLon -> Q.

Local Abbreviation nearbyAnimalsOf := (useAnimalData.nearbyAnimalsOf calculateDistance).

(** The distance from a position to vertex [j] of a route. *)
Local Abbreviation toVertexOf position route j :=
  (calculateDistance position
     (mkLatLon (fst (geo.at_ (path route) j)) (snd (geo.at_ (path route) j)))).

(** X28. The animals listed near a route: each is one of the predicted
    animals, annotated with its distance to a vertex of the route, which
    is under the radius; an animal within the radius of one of the first
    32 vertices is always listed (the search gives up after 31 vertices
    that are no nearer, so this need not hold for later vertices); a route
    of fewer than two vertices lists none. *)
Theorem nearbyAnimalsOf_first_vertices (relevantPredictions : list AnimalPrediction)
    (finalRoute : Route) (radius : Q) :
  (forall listed,
      In listed (nearbyAnimalsOf relevantPredictions finalRoute radius) ->
      exists p d,
        In p relevantPredictions
        /\ listed = mkAnimal (animal_id p) (common p) (current p) (Some d)
        /\ d < radius
        /\ exists c, (c < length (path finalRoute))%nat
                     /\ d = toVertexOf (current p) finalRoute c)
  /\ ((length (path finalRoute) < 2)%nat ->
      nearbyAnimalsOf relevantPredictions finalRoute radius = [])
  /\ (forall p j,
         In p relevantPredictions ->
         (j <= 31)%nat -> (j < length (path finalRoute))%nat ->
         (2 <= length (path finalRoute))%nat ->
         toVertexOf (current p) finalRoute j < radius ->
         exists d,
           In (mkAnimal (animal_id p) (common p) (current p) (Some d))
              (nearbyAnimalsOf relevantPredictions finalRoute radius)
           /\ d <= toVertexOf (current p) finalRoute j).
Proof.
  unfold useAnimalData.nearbyAnimalsOf. split; [| split].
  - intros listed Hin. apply List.filter_In in Hin. destruct Hin as [Hin Hnear].
    apply in_map_iff in Hin. destruct Hin as (p & <- & Hp).
    cbn [distanceToPathKm] in Hnear.
    destruct (Nat.lt_ge_cases (length (path finalRoute)) 2) as [Hshort | Hlong].
    + unfold geo.getPathDataFromLocation in Hnear.
      destruct (Nat.ltb_spec (length (path finalRoute)) 2); [discriminate | lia].
    + destruct (getPathDataFromLocation_found calculateDistance (current p)
                  (path finalRoute) 0 Hlong ltac:(lia))
        as (c & Hfound & _ & Hc & _).
      rewrite Hfound in Hnear |- *. cbn [geo.distanceToPath] in Hnear |- *.
      apply ltb_lt in Hnear.
      exists p. eexists. split; [exact Hp |]. split; [reflexivity |].
      split; [exact Hnear |]. exists c. split; [exact Hc | reflexivity].
  - intros Hshort. unfold geo.getPathDataFromLocation.
    destruct (Nat.ltb_spec (length (path finalRoute)) 2); [| lia].
    induction relevantPredictions as [| p rest IH]; [reflexivity |].
    cbn [map List.filter geo.distanceToPath distanceToPathKm]. exact IH.
  - intros p j Hp Hj Hjlen Hlong Hnear.
    destruct (getPathDataFromLocation_found calculateDistance (current p)
                (path finalRoute) 0 Hlong ltac:(lia))
      as (c & Hfound & _ & Hc & Hbefore & Hafter).
    assert (Hle : toVertexOf (current p) finalRoute c
                  <= toVertexOf (current p) finalRoute j).
    { destruct (Nat.lt_trichotomy j c) as [Hlt | [-> | Hgt]].
      - apply Qlt_le_weak, Hbefore; lia.
      - apply Qle_refl.
      - apply Hafter; lia. }
    eexists. split; [| exact Hle].
    apply List.filter_In. split.
    + apply in_map_iff. exists p. split; [| exact Hp].
      rewrite Hfound. reflexivity.
    + cbn [distanceToPathKm]. apply ltb_lt.
      eapply Qle_lt_trans; [exact Hle | exact Hnear].
Qed.

End NearbyFacts.

Section TrackFacts.

Variables Math_cos Math_sin : Q -> Q.
Variable Math_PI : Q.
Variable tf : api.TensorLibrary.
Variable reverseGeocode : Q -> Q -> apiService.GeocodeOutcome.

Local Abbreviation predictAnimalPaths :=
  (api.predictAnimalPaths Math_cos Math_sin Math_PI tf).
Local Abbreviation trackOf := (useAnimalData.trackOf reverseGeocode).

Lemma find_unique (sets : list api.SightingSet) (set : api.SightingSet) :
  NoDup (map api.scientificName sets) -> In set sets ->
  List.find (fun s => String.eqb (api.scientificName s) (api.scientificName set)) sets
  = Some set.
Proof.
  induction sets as [| s sets IH]; intros Hnodup Hin; [destruct Hin |].
  cbn [map] in Hnodup. apply NoDup_cons in Hnodup.
  destruct Hnodup as [Hfresh Hnodup].
  cbn [List.find]. destruct Hin as [-> | Hin].
  - rewrite String.eqb_refl. reflexivity.
  - destruct (String.eqb (api.scientificName s) (api.scientificName set)) eqn:Hname.
    + apply String.eqb_eq in Hname. exfalso. apply Hfresh. rewrite Hname.
      apply list_elem_of_In, in_map, Hin.
    + apply IH; assumption.
Qed.

(** X29. With the tensor library loaded and sets of distinct species,
    take a group the predictor returns.  When the address of its current
    sighting is found and its species is in the table, the group is
    detailed: its track starts (as a rational) at the first sighting of its
    set, ends at the second predicted point, and has 303 points, 151 for
    each of the two segments and the end point.  When the lookup of that
    address throws, or the species is not in the table, the work on the
    group is rejected and with it the whole batch: no prediction is put on
    the map. *)
Theorem trackOf_predicted (sightingSets : list api.SightingSet) (randoms : nat -> Q)
    (predGroup : api.PredictionGroup) :
  NoDup (map api.scientificName sightingSets) ->
  In predGroup (predictAnimalPaths true sightingSets randoms) ->
  exists set currentSighting older pred1 pred2,
    In set sightingSets
    /\ api.scientificName set = api.g_scientificName predGroup
    /\ api.sightings set = currentSighting :: older
    /\ api.predictions predGroup = [pred1; pred2]
    /\ (forall common currentAddr,
          useAnimalData.animalInfoOf (api.scientificName set) = Some common ->
          reverseGeocode (s_lat currentSighting) (s_lon currentSighting)
          = apiService.Resolved currentAddr ->
          exists first fullPath,
            trackOf sightingSets predGroup
            = useAnimalData.Detailed currentSighting common currentAddr fullPath
            /\ length fullPath = 303%nat
            /\ head fullPath = Some first
            /\ coord_eq first (s_lat currentSighting, s_lon currentSighting)
            /\ last fullPath = Some (lat pred2, lon pred2))
    /\ (useAnimalData.animalInfoOf (api.scientificName set) = None
        \/ (forall currentAddr,
              reverseGeocode (s_lat currentSighting) (s_lon currentSighting)
              <> apiService.Resolved currentAddr) ->
        trackOf sightingSets predGroup = useAnimalData.Rejected
        /\ useAnimalData.newPredictionsOf reverseGeocode sightingSets
             (predictAnimalPaths true sightingSets randoms) = None).
Proof.
  intros Hnodup Hreturned. pose proof Hreturned as Hin.
  unfold api.predictAnimalPaths in Hin. cbn [negb] in Hin.
  apply List.filter_In in Hin. destruct Hin as [Hin Hsome].
  apply predictSets_origin in Hin. destruct Hin as (set & k & Hset & Hgroup).
  assert (Hshape : exists currentSighting older pred1 pred2,
             api.sightings set = currentSighting :: older
             /\ api.predictions predGroup = [pred1; pred2]
             /\ api.g_scientificName predGroup = api.scientificName set).
  { rewrite Hgroup in *. unfold api.predictSet in *.
    destruct (api.sightings set) as [| currentSighting older]; [discriminate |].
    exists currentSighting, older.
    destruct (length (currentSighting :: older) <? 2)%nat;
      do 2 eexists; repeat split; reflexivity. }
  destruct Hshape as (currentSighting & older & pred1 & pred2 & Hsightings & Hpreds & Hname).
  exists set, currentSighting, older, pred1, pred2.
  split; [exact Hset |]. split; [symmetry; exact Hname |].
  split; [exact Hsightings |]. split; [exact Hpreds |].
  assert (Hfind : List.find (fun s => String.eqb (api.scientificName s)
                                                 (api.g_scientificName predGroup))
                            sightingSets = Some set).
  { rewrite Hname. apply find_unique; assumption. }
  split.
  - intros common currentAddr Hinfo Haddr.
    set (waypoints := [(s_lat currentSighting, s_lon currentSighting);
                       (lat pred1, lon pred1); (lat pred2, lon pred2)]).
    destruct (createSplinePath_long useAnimalData.SMOOTH_STEPS 0.5 waypoints
                ltac:(cbn; lia))
      as (first & rest & Hpath & Hfirst & Hsegs).
    exists first, (geo.createSplinePath waypoints useAnimalData.SMOOTH_STEPS 0.5).
    split.
    { unfold useAnimalData.trackOf. rewrite Hfind, Hsightings, Hpreds, Haddr, Hname, Hinfo.
      reflexivity. }
    rewrite Hpath. split; [| split; [reflexivity | split; [exact Hfirst |]]].
    + rewrite length_app, Hsegs.
      rewrite (length_flat_map_blocks _ (useAnimalData.SMOOTH_STEPS + 1)).
      * reflexivity.
      * intros i. unfold geo.splineSegment. rewrite length_map, length_seq. lia.
    + rewrite last_snoc. reflexivity.
  - intros Hfails.
    assert (Hrejected : trackOf sightingSets predGroup = useAnimalData.Rejected).
    { unfold useAnimalData.trackOf. rewrite Hfind, Hsightings, Hpreds, Hname.
      cbn [length Nat.eqb].
      destruct (reverseGeocode (s_lat currentSighting) (s_lon currentSighting))
        as [name | badLat badLon | error] eqn:Haddr; try reflexivity.
      destruct Hfails as [Hinfo | Hthrows].
      - rewrite Hinfo. reflexivity.
      - exfalso. apply (Hthrows name). reflexivity. }
    split; [exact Hrejected |].
    unfold useAnimalData.newPredictionsOf.
    replace (existsb useAnimalData.isRejected
               (map (trackOf sightingSets) (predictAnimalPaths true sightingSets randoms)))
      with true; [reflexivity |].
    symmetry. apply existsb_exists.
    exists (trackOf sightingSets predGroup). split.
    + apply (in_map (trackOf sightingSets)), Hreturned.
    + rewrite Hrejected. reflexivity.
Qed.

End TrackFacts.

Section MergeFacts.

Variable calculateDistance : LatLon -> LatLon -> Q.

Import useAnimalData.

Local Abbreviation keys := (map (@fst string (list Sighting))).
Local Abbreviation names := (map api.scientificName).

Lemma lookupSet_pushTo (key : string) (s : Sighting) (sets : ManualSets) (k : string) :
  lookupSet k (pushTo key s sets)
  = if String.eqb key k then Some (default [] (lookupSet key sets) ++ [s])
    else lookupSet k sets.
Proof.
  induction sets as [| [k0 l] rest IH]; cbn [pushTo lookupSet].
  - destruct (String.eqb_spec key k); reflexivity.
  - destruct (String.eqb_spec k0 key) as [-> | Hne]; cbn [lookupSet].
    + destruct (String.eqb_spec key k) as [-> | Hk]; reflexivity.
    + rewrite IH.
      destruct (String.eqb_spec key k) as [-> | Hk].
      * destruct (String.eqb_spec k0 k); [contradiction | reflexivity].
      * reflexivity.
Qed.

Lemma keys_pushTo (key : string) (s : Sighting) (sets : ManualSets) (k : string) :
  In k (keys (pushTo key s sets)) -> k = key \/ In k (keys sets).
Proof.
  induction sets as [| [k0 l] rest IH]; cbn [pushTo map fst In].
  - intros [<- | []]. left. reflexivity.
  - destruct (String.eqb_spec k0 key) as [-> | Hne]; cbn [map fst In].
    + intros [<- | Hin]; [left; reflexivity | right; right; exact Hin].
    + intros [<- | Hin]; [right; left; reflexivity |].
      destruct (IH Hin) as [-> | Hrest]; [left; reflexivity | right; right; exact Hrest].
Qed.

Lemma NoDup_pushTo (key : string) (s : Sighting) (sets : ManualSets) :
  List.NoDup (keys sets) -> List.NoDup (keys (pushTo key s sets)).
Proof.
  induction sets as [| [k0 l] rest IH]; cbn [pushTo map fst]; intros Hnodup.
  - constructor; [intros [] | constructor].
  - apply List.NoDup_cons_iff in Hnodup. destruct Hnodup as [Hfresh Hnodup].
    destruct (String.eqb_spec k0 key) as [-> | Hne]; cbn [map fst].
    + constructor; assumption.
    + constructor; [| apply IH; exact Hnodup].
      intros Hin. apply keys_pushTo in Hin. destruct Hin as [-> | Hin]; contradiction.
Qed.

Lemma lookupSet_deleteSet (key : string) (sets : ManualSets) (k : string) :
  lookupSet k (deleteSet key sets)
  = if String.eqb key k then None else lookupSet k sets.
Proof.
  induction sets as [| [k0 l] rest IH]; cbn [deleteSet lookupSet].
  - destruct (String.eqb key k); reflexivity.
  - destruct (String.eqb_spec k0 key) as [-> | Hne]; cbn [lookupSet]; rewrite IH.
    + destruct (String.eqb_spec key k); reflexivity.
    + destruct (String.eqb_spec key k) as [-> | Hk]; [| reflexivity].
      destruct (String.eqb_spec k0 k); [contradiction | reflexivity].
Qed.

Lemma keys_deleteSet (key : string) (sets : ManualSets) (k : string) :
  In k (keys (deleteSet key sets)) -> In k (keys sets).
Proof.
  induction sets as [| [k0 l] rest IH]; cbn [deleteSet map fst In]; [tauto |].
  destruct (String.eqb k0 key); cbn [map fst In]; tauto.
Qed.

Lemma NoDup_deleteSet (key : string) (sets : ManualSets) :
  List.NoDup (keys sets) -> List.NoDup (keys (deleteSet key sets)).
Proof.
  induction sets as [| [k0 l] rest IH]; cbn [deleteSet map fst]; intros Hnodup;
    [constructor |].
  apply List.NoDup_cons_iff in Hnodup. destruct Hnodup as [Hfresh Hnodup].
  destruct (String.eqb k0 key); cbn [map fst]; [apply IH; exact Hnodup |].
  constructor; [| apply IH; exact Hnodup].
  intros Hin. apply keys_deleteSet in Hin. contradiction.
Qed.

Lemma lookupSet_In (sets : ManualSets) (k : string) (l : list Sighting) :
  List.NoDup (keys sets) -> In (k, l) sets -> lookupSet k sets = Some l.
Proof.
  induction sets as [| [k0 l0] rest IH]; cbn [map fst lookupSet]; intros Hnodup Hin;
    [destruct Hin |].
  apply List.NoDup_cons_iff in Hnodup. destruct Hnodup as [Hfresh Hnodup].
  destruct Hin as [[= -> ->] | Hin].
  - rewrite String.eqb_refl. reflexivity.
  - destruct (String.eqb_spec k0 k) as [-> | Hne]; [| apply IH; assumption].
    exfalso. apply Hfresh. apply (in_map fst) in Hin. exact Hin.
Qed.

Lemma lookupSet_keys (sets : ManualSets) (k : string) :
  In k (keys sets) <-> lookupSet k sets <> None.
Proof.
  induction sets as [| [k0 l0] rest IH]; cbn [map fst lookupSet In]; [tauto |].
  destruct (String.eqb_spec k0 k) as [-> | Hne].
  - split; [discriminate | left; reflexivity].
  - rewrite <- IH. tauto.
Qed.

Lemma commonToScientific_known (name k : string) :
  commonToScientific name = Some k -> In k (map fst ANIMALS).
Proof.
  unfold commonToScientific.
  assert (Hfold : forall table found,
             fold_left (fun found entry =>
                          if String.eqb (snd entry) name then Some (fst entry) else found)
                       table found = Some k ->
             found = Some k \/ In k (map fst table)).
  { induction table as [| e table IH]; intros found; cbn [fold_left map In]; [tauto |].
    intros H. apply IH in H. destruct H as [H | H]; [| tauto].
    destruct (String.eqb (snd e) name); [| tauto].
    injection H as <-. tauto. }
  intros H. apply Hfold in H. destruct H as [H | H]; [discriminate | exact H].
Qed.

(** The manual sets, read by species. *)
Lemma manualSightingSetsOf_lookup (relevant : list ManualSighting) :
  List.NoDup (keys (manualSightingSetsOf relevant))
  /\ forall k,
       lookupSet k (manualSightingSetsOf relevant)
       = match manualOf k relevant with
         | [] => None
         | l => Some l
         end.
Proof.
  unfold manualSightingSetsOf, manualOf.
  induction relevant as [| s relevant [IHnodup IH]] using rev_ind.
  - split; [constructor | reflexivity].
  - rewrite fold_left_app. cbn [fold_left].
    destruct (commonToScientific (commonName s)) as [sciName |] eqn:Hsci.
    + split; [apply NoDup_pushTo; exact IHnodup |].
      intros k. rewrite lookupSet_pushTo, List.filter_app, map_app. cbn [List.filter].
      rewrite Hsci.
      destruct (String.eqb_spec sciName k) as [-> | Hne].
      * rewrite bool_decide_eq_true_2 by reflexivity. rewrite IH. cbn [map].
        destruct (map _ (List.filter _ relevant)) as [| x xs]; reflexivity.
      * rewrite bool_decide_eq_false_2 by congruence. cbn [map].
        rewrite app_nil_r. apply IH.
    + split; [exact IHnodup |].
      intros k. rewrite List.filter_app, map_app. cbn [List.filter].
      rewrite Hsci, bool_decide_eq_false_2 by discriminate. cbn [map].
      rewrite app_nil_r. apply IH.
Qed.

(** The merge, for fetched sets of distinct species. *)
Lemma mergeManual_result (sightingSets : list api.SightingSet) (manual : ManualSets)
    (out : list api.SightingSet) :
  List.NoDup (names sightingSets) -> List.NoDup (keys manual) ->
  let merged :=
    fold_left (fun acc set =>
                 match lookupSet (api.scientificName set) (snd acc) with
                 | Some m =>
                     (fst acc ++ [api.mkSightingSet (api.scientificName set)
                                                    (m ++ api.sightings set)],
                      deleteSet (api.scientificName set) (snd acc))
                 | None => (fst acc ++ [set], snd acc)
                 end)
              sightingSets (out, manual) in
  fst merged
  = out ++ map (fun set =>
                  api.mkSightingSet (api.scientificName set)
                    (default [] (lookupSet (api.scientificName set) manual)
                     ++ api.sightings set))
               sightingSets
  /\ List.NoDup (keys (snd merged))
  /\ forall k, lookupSet k (snd merged)
               = if bool_decide (k ∈ names sightingSets) then None
                 else lookupSet k manual.
Proof.
  revert manual out.
  induction sightingSets as [| set rest IH]; intros manual out Hnames Hkeys; cbv zeta.
  - cbn [fold_left fst snd map]. rewrite app_nil_r.
    split; [reflexivity |]. split; [exact Hkeys |].
    intros k. rewrite bool_decide_eq_false_2 by (rewrite list_elem_of_In; intros []). reflexivity.
  - cbn [map] in Hnames. apply List.NoDup_cons_iff in Hnames.
    destruct Hnames as [Hfresh Hnames].
    cbn [fold_left fst snd].
    assert (Hset : api.mkSightingSet (api.scientificName set) (api.sightings set) = set)
      by (destruct set; reflexivity).
    destruct (lookupSet (api.scientificName set) manual) as [m |] eqn:Hlookup.
    + destruct (IH (deleteSet (api.scientificName set) manual)
                  (out ++ [api.mkSightingSet (api.scientificName set)
                                             (m ++ api.sightings set)])
                  Hnames (NoDup_deleteSet _ _ Hkeys)) as (Hfst & Hnodup & Hsnd).
      cbv zeta in Hfst, Hnodup, Hsnd.
      split; [| split; [exact Hnodup |]].
      * rewrite Hfst, <- app_assoc. cbn [app map default]. rewrite Hlookup. cbn [default].
        do 2 f_equal. apply map_ext_in. intros x Hx.
        rewrite lookupSet_deleteSet.
        destruct (String.eqb_spec (api.scientificName set) (api.scientificName x))
          as [Heq | _]; [| reflexivity].
        exfalso. apply Hfresh. rewrite Heq. apply in_map. exact Hx.
      * intros k. rewrite Hsnd, lookupSet_deleteSet. cbn [map].
        destruct (String.eqb_spec (api.scientificName set) k) as [<- | Hne].
        -- rewrite (bool_decide_eq_true_2 (_ ∈ _ :: _)) by (rewrite list_elem_of_In; left; reflexivity).
           destruct (bool_decide _); reflexivity.
        -- destruct (bool_decide (k ∈ names rest)) eqn:Hrest.
           ++ apply bool_decide_eq_true_1, list_elem_of_In in Hrest.
              rewrite bool_decide_eq_true_2 by (rewrite list_elem_of_In; right; exact Hrest). reflexivity.
           ++ apply bool_decide_eq_false_1 in Hrest. rewrite list_elem_of_In in Hrest.
              rewrite bool_decide_eq_false_2
                by (rewrite list_elem_of_In; intros [? | ?]; contradiction).
              reflexivity.
    + destruct (IH manual (out ++ [set]) Hnames Hkeys) as (Hfst & Hnodup & Hsnd).
      cbv zeta in Hfst, Hnodup, Hsnd.
      split; [| split; [exact Hnodup |]].
      * rewrite Hfst, <- app_assoc. cbn [app map]. rewrite Hlookup. cbn [default app].
        rewrite Hset. reflexivity.
      * intros k. rewrite Hsnd. cbn [map].
        destruct (bool_decide (k ∈ names rest)) eqn:Hrest.
        -- apply bool_decide_eq_true_1, list_elem_of_In in Hrest.
           rewrite bool_decide_eq_true_2 by (rewrite list_elem_of_In; right; exact Hrest). reflexivity.
        -- apply bool_decide_eq_false_1 in Hrest. rewrite list_elem_of_In in Hrest.
           destruct (String.eqb_spec (api.scientificName set) k) as [<- | Hne].
           ++ rewrite bool_decide_eq_true_2 by (rewrite list_elem_of_In; left; reflexivity).
              exact Hlookup.
           ++ rewrite bool_decide_eq_false_2
                by (rewrite list_elem_of_In; intros [? | ?]; contradiction).
              reflexivity.
Qed.

Lemma NoDup_ANIMALS : List.NoDup (map fst ANIMALS).
Proof. apply NoDup_ListNoDup. apply (bool_decide_unpack _). vm_compute. exact I. Qed.

Lemma take_SEQ_LEN_nonempty (l : list Sighting) : l <> [] -> take SEQ_LEN l <> [].
Proof. destruct l; [congruence | discriminate]. Qed.

Lemma NoDup_fetched (sightingsOf : string -> list Sighting) (table : list (string * string)) :
  List.NoDup (map fst table) ->
  List.NoDup
    (names (List.filter (fun set => (0 <? length (api.sightings set))%nat)
              (map (fun entry => api.mkSightingSet (fst entry)
                                   (take SEQ_LEN (sightingsOf (fst entry))))
                   table))).
Proof.
  induction table as [| e table IH]; cbn [map List.filter]; intros Hnodup; [constructor |].
  apply List.NoDup_cons_iff in Hnodup. destruct Hnodup as [Hfresh Hnodup].
  destruct (0 <? length _)%nat; [| apply IH; exact Hnodup].
  cbn [map api.scientificName]. constructor; [| apply IH; exact Hnodup].
  intros Hin. apply Hfresh. apply in_map_iff in Hin. destruct Hin as (s & <- & Hs).
  apply List.filter_In in Hs. destruct Hs as [Hs _].
  apply in_map_iff in Hs. destruct Hs as (e' & <- & He').
  cbn [api.scientificName]. apply in_map. exact He'.
Qed.

(** X30. The sighting sets handed to the predictor hold each species at
    most once, only species of the table, and none without a sighting;
    the sequence of a species is its manual sightings within the radius,
    in the order of the list, followed by its fetched sightings, cut to
    the first [SEQ_LEN]; and every species of the table with a manual
    sighting within the radius or a fetched one is among them. *)
Theorem sightingSetsOf_merges (location : LatLon) (radius : Q)
    (sightingsOf : string -> list Sighting) (manualSightings : list ManualSighting) :
  let relevant :=
    List.filter (fun s => Num.leb (calculateDistance location
                                     (mkLatLon (m_lat s) (m_lon s))) radius)
                manualSightings in
  let result := sightingSetsOf calculateDistance location radius sightingsOf
                               manualSightings in
  NoDup (names result)
  /\ (forall set,
         In set result ->
         In (api.scientificName set) (map fst ANIMALS)
         /\ api.sightings set
            = take SEQ_LEN (manualOf (api.scientificName set) relevant
                            ++ take SEQ_LEN (sightingsOf (api.scientificName set)))
         /\ api.sightings set <> [])
  /\ (forall name,
         In name (map fst ANIMALS) ->
         manualOf name relevant ++ sightingsOf name <> [] ->
         In name (names result)).
Proof.
  cbv zeta. unfold sightingSetsOf.
  set (relevant := List.filter _ manualSightings).
  set (g := fun entry : string * string =>
              api.mkSightingSet (fst entry) (take SEQ_LEN (sightingsOf (fst entry)))).
  set (fetched := List.filter _ (map g ANIMALS)).
  set (manualSets := manualSightingSetsOf relevant).
  destruct (manualSightingSetsOf_lookup relevant) as [Hmkeys Hmlookup].
  fold manualSets in Hmkeys, Hmlookup.
  assert (Hfnames : List.NoDup (names fetched))
    by (apply NoDup_fetched, NoDup_ANIMALS).
  assert (Hfin : forall k, In k (names fetched)
                           <-> In k (map fst ANIMALS) /\ take SEQ_LEN (sightingsOf k) <> []).
  { intros k. unfold fetched. rewrite in_map_iff. split.
    - intros (s & <- & Hs). apply List.filter_In in Hs. destruct Hs as [Hs Hsome].
      apply in_map_iff in Hs. destruct Hs as (e & <- & He).
      cbn [g api.scientificName api.sightings] in *.
      split; [apply in_map; exact He |].
      intros Hnil. rewrite Hnil in Hsome. discriminate.
    - intros [Hk Hsome]. apply in_map_iff in Hk. destruct Hk as (e & <- & He).
      exists (g e). split; [reflexivity |].
      apply List.filter_In. split; [apply in_map; exact He |].
      cbn [g api.sightings]. destruct (take SEQ_LEN (sightingsOf (fst e)));
        [congruence | reflexivity]. }
  assert (Hdefault : forall k, default [] (lookupSet k manualSets) = manualOf k relevant).
  { intros k. rewrite Hmlookup. destruct (manualOf k relevant); reflexivity. }
  pose proof (mergeManual_result fetched manualSets [] Hfnames Hmkeys) as Hmerged.
  cbv zeta in Hmerged.
  change (fold_left _ fetched ([], manualSets)) with (mergeManual fetched manualSets)
    in Hmerged.
  set (merged := mergeManual fetched manualSets) in *.
  destruct Hmerged as (Hfst & Hrkeys & Hrlookup). cbn [app] in Hfst.
  set (trunc := fun set : api.SightingSet =>
                  api.mkSightingSet (api.scientificName set)
                                    (take SEQ_LEN (api.sightings set))).
  set (mk := fun entry : string * list Sighting =>
               api.mkSightingSet (fst entry) (snd entry)).
  assert (Hnames : names (map trunc (fst merged ++ map mk (snd merged)))
                   = names fetched ++ keys (snd merged)).
  { rewrite map_map, map_app. f_equal.
    - rewrite Hfst, map_map. apply map_ext. intros s. reflexivity.
    - rewrite map_map. apply map_ext. intros [k l]. reflexivity. }
  split; [| split].
  - rewrite Hnames. apply NoDup_app. split; [apply NoDup_ListNoDup; exact Hfnames |].
    split; [| apply NoDup_ListNoDup; exact Hrkeys].
    intros k Hk Hk'. apply list_elem_of_In in Hk'. apply lookupSet_keys in Hk'.
    apply Hk'. rewrite Hrlookup, bool_decide_eq_true_2 by exact Hk. reflexivity.
  - intros set Hset. apply in_map_iff in Hset. destruct Hset as (x & <- & Hx).
    apply in_app_or in Hx. destruct Hx as [Hx | Hx].
    + rewrite Hfst in Hx. apply in_map_iff in Hx. destruct Hx as (s & <- & Hs).
      cbn [trunc api.scientificName api.sightings]. rewrite Hdefault.
      assert (Hname : In (api.scientificName s) (names fetched)) by (apply in_map; exact Hs).
      apply Hfin in Hname. destruct Hname as [Hknown Hsome].
      apply List.filter_In in Hs. destruct Hs as [Hs _].
      apply in_map_iff in Hs. destruct Hs as (e & <- & He).
      cbn [g api.scientificName api.sightings] in *.
      split; [exact Hknown |]. split; [reflexivity |].
      apply take_SEQ_LEN_nonempty. intros Hnil. apply app_eq_nil in Hnil.
      destruct Hnil as [_ Hnil]. contradiction.
    + apply in_map_iff in Hx. destruct Hx as ([k l] & <- & Hkl).
      cbn [trunc mk fst snd api.scientificName api.sightings].
      pose proof (lookupSet_In _ _ _ Hrkeys Hkl) as Hlookup.
      rewrite Hrlookup in Hlookup.
      destruct (bool_decide (k ∈ names fetched)) eqn:Hfetched; [discriminate |].
      apply bool_decide_eq_false_1 in Hfetched. rewrite list_elem_of_In in Hfetched.
      rewrite Hmlookup in Hlookup.
      destruct (manualOf k relevant) as [| first more] eqn:Hmanual; [discriminate |].
      injection Hlookup as <-.
      assert (Hknown : In k (map fst ANIMALS)).
      { assert (Hfirst : In first (manualOf k relevant))
          by (rewrite Hmanual; left; reflexivity).
        unfold manualOf in Hfirst. apply in_map_iff in Hfirst.
        destruct Hfirst as (s & _ & Hs). apply List.filter_In in Hs.
        destruct Hs as [_ Hs]. apply bool_decide_eq_true_1 in Hs.
        eapply commonToScientific_known. exact Hs. }
      assert (Hnone : take SEQ_LEN (sightingsOf k) = []).
      { destruct (take SEQ_LEN (sightingsOf k)) eqn:Htake; [reflexivity |].
        exfalso. apply Hfetched. apply Hfin. split; [exact Hknown |].
        rewrite Htake. discriminate. }
      split; [exact Hknown |]. rewrite Hnone, app_nil_r.
      split; [reflexivity | apply take_SEQ_LEN_nonempty; discriminate].
  - intros name Hknown Hsome. rewrite Hnames. apply in_or_app.
    destruct (take SEQ_LEN (sightingsOf name)) as [| x xs] eqn:Htake.
    + right. apply lookupSet_keys. rewrite Hrlookup.
      rewrite bool_decide_eq_false_2.
      * rewrite Hmlookup.
        destruct (manualOf name relevant) as [| first more]; [| discriminate].
        exfalso. apply Hsome. cbn [app].
        destruct (sightingsOf name); [reflexivity | discriminate].
      * rewrite list_elem_of_In. intros Hin. apply Hfin in Hin.
        destruct Hin as [_ Hin]. contradiction.
    + left. apply Hfin. split; [exact Hknown | rewrite Htake; discriminate].
Qed.

End MergeFacts.

(** * The properties of the second part on sample data *)


Lemma sample_cos_proper : Proper (Qeq ==> Qeq) sample.Math_cos.
Proof. intros x y H. unfold sample.Math_cos. rewrite H. reflexivity. Qed.

Lemma sample_cos_even (x : Q) : sample.Math_cos (- x) == sample.Math_cos x.
Proof. unfold sample.Math_cos. field. Qed.

Lemma identity_proper : Proper (Qeq ==> Qeq) (fun x : Q => x).
Proof. intros x y H. exact H. Qed.

Lemma calculateDistance_symmetric_witness :
  geoService.calculateDistance sample.Math_cos fixtures.Math_asin fixtures.Math_sqrt
    sample.Math_PI fixtures.ooty fixtures.coonoor
  == geoService.calculateDistance sample.Math_cos fixtures.Math_asin fixtures.Math_sqrt
       sample.Math_PI fixtures.coonoor fixtures.ooty.
Proof.
  apply (calculateDistance_symmetric sample.Math_cos fixtures.Math_asin fixtures.Math_sqrt
           sample.Math_PI fixtures.ooty fixtures.coonoor).
  - exact sample_cos_proper.
  - exact identity_proper.
  - exact identity_proper.
  - exact sample_cos_even.
  - reflexivity.
  - reflexivity.
  - reflexivity.
Defined.

Lemma gridDistance_nonneg (a b : LatLon) : 0 <= sample.gridDistance a b.
Proof.
  unfold sample.gridDistance.
  pose proof (Qabs_nonneg (lat a - lat b)). pose proof (Qabs_nonneg (lon a - lon b)).
  nra.
Qed.

Lemma gridDistance_triangle (a b c : LatLon) :
  sample.gridDistance a c <= sample.gridDistance a b + sample.gridDistance b c.
Proof.
  unfold sample.gridDistance.
  assert (H1 : Qabs (lat a - lat c) <= Qabs (lat a - lat b) + Qabs (lat b - lat c)).
  { assert (E : lat a - lat c == (lat a - lat b) + (lat b - lat c)) by ring.
    rewrite E. apply Qabs_triangle. }
  assert (H2 : Qabs (lon a - lon c) <= Qabs (lon a - lon b) + Qabs (lon b - lon c)).
  { assert (E : lon a - lon c == (lon a - lon b) + (lon b - lon c)) by ring.
    rewrite E. apply Qabs_triangle. }
  lra.
Qed.

Lemma calculatePolylineDistance_lower_bound_witness :
  sample.gridDistance (mkLatLon 0 0) (mkLatLon 0 (3 # 100))
  <= geoService.calculatePolylineDistance sample.gridDistance (path sample.trail).
Proof.
  destruct (calculatePolylineDistance_lower_bound sample.gridDistance
              gridDistance_nonneg gridDistance_triangle) as (_ & _ & _ & Hlower).
  apply (Hlower (0, 0) [(0, 1 # 100); (0, 2 # 100); (0, 3 # 100)] (0, 3 # 100)).
  - reflexivity.
  - discriminate.
Defined.

Lemma findClosestSafePlace_nearest_witness :
  exists p,
    geoService.findClosestSafePlace sample.gridDistance (mkLatLon 0 0) [fixtures.station]
    = Some p
    /\ In p [fixtures.station].
Proof.
  destruct (findClosestSafePlace_nearest sample.gridDistance (mkLatLon 0 0)
              [fixtures.station]) as [_ Hsome].
  destruct (Hsome ltac:(discriminate)) as (p & Hp & Hin & _).
  exists p. split; assumption.
Defined.

Lemma getPathDataFromLocation_window_witness :
  exists c,
    geo.closestPointIndex
      (geo.getPathDataFromLocation sample.gridDistance (mkLatLon 0 (2 # 100))
         (path sample.trail) 3) = c
    /\ (c < 4)%nat.
Proof.
  destruct (getPathDataFromLocation_window sample.gridDistance (mkLatLon 0 (2 # 100))
              (path sample.trail) 3) as (c & Hfound & _ & Hc & _).
  - simpl. lia.
  - simpl. lia.
  - exists c. split; [rewrite Hfound; reflexivity | exact Hc].
Defined.

Lemma getPathDataFromLocation_edges_witness :
  geo.getPathDataFromLocation sample.gridDistance (mkLatLon 0 0) (path sample.trail) 30
  = geo.mkPathData [(0, 0)] None 30.
Proof.
  destruct (getPathDataFromLocation_edges sample.gridDistance (mkLatLon 0 0)
              (path sample.trail) 30) as [_ Hpast].
  apply Hpast; simpl; lia.
Defined.

Lemma flaky_fails_twice (j : nat) (v : option string) :
  (j < 2)%nat ->
  api.tryBlock string fixtures.parse (fixtures.flaky j) <> api.Return string v.
Proof.
  intros Hj. destruct j as [| [| j]]; [discriminate | discriminate | lia].
Qed.

Lemma fetchJson_first_success_witness :
  api.outcome (api.fetchJson string fixtures.parse fixtures.flaky 3 1000)
  = Returned (Some "{}")
  /\ api.fetchCalls (api.fetchJson string fixtures.parse fixtures.flaky 3 1000) = 3%nat.
Proof.
  apply (fetchJson_first_success string fixtures.parse fixtures.flaky 3 2 1000 (Some "{}")).
  - lia.
  - intros j Hj v. apply flaky_fails_twice. exact Hj.
  - reflexivity.
Defined.

Lemma severe_weather_has_text_witness :
  hook.isWeatherSevere 95 = true
  /\ hook.getWeatherAlertText 95 <> "Warning: Severe weather conditions detected ahead.".
Proof.
  split; [reflexivity |].
  destruct (severe_weather_has_text 95) as [Hspecific _]; [reflexivity | exact Hspecific].
Defined.

Lemma statsOf_monotone_witness :
  remainingKm (hook.statsOf sample.trail 2) <= remainingKm (hook.statsOf sample.trail 1)
  /\ etaMinutes (hook.statsOf sample.trail 2) <= etaMinutes (hook.statsOf sample.trail 1).
Proof.
  destruct (statsOf_monotone sample.trail 1 2) as (_ & Hkm & Heta & _).
  - lia.
  - vm_compute. discriminate.
  - vm_compute. discriminate.
  - split; assumption.
Defined.

Lemma onPosition_stays_on_path_witness :
  (hook.closestPathIndexRef
     (hook.onPosition sample.gridDistance (sample.fixAt 2) sample.onTrail) < 4)%nat.
Proof.
  destruct (onPosition_stays_on_path sample.gridDistance (sample.fixAt 2) sample.onTrail
              sample.trail) as [Hinside _].
  - reflexivity.
  - simpl. lia.
  - vm_compute. lia.
  - vm_compute. discriminate.
  - vm_compute. discriminate.
  - exact Hinside.
Defined.

Lemma calculateSafeRoute_without_hazards_witness :
  hook.calculateSafeRoute sample.router sample.ring sample.A sample.B 5 walk
    ["Panthera tigris-1"] [sample.tiger]
  = Returned (hook.mkPlan sample.direct30 None hook.NoWildlifeRisk).
Proof.
  destruct (calculateSafeRoute_without_hazards sample.router sample.ring sample.A sample.B 5
              walk ["Panthera tigris-1"] [sample.tiger] sample.direct30) as [_ Hplan].
  - reflexivity.
  - intros p [<- | []]. apply list_elem_of_In. left. reflexivity.
  - exact Hplan.
Defined.

Lemma placesOf_wellformed_witness :
  geoService.sp_name fixtures.station <> EmptyString
  /\ ~ geoService.sp_lat fixtures.station == 0.
Proof.
  destruct (placesOf_wellformed [fixtures.stationElement] fixtures.station)
    as (_ & Hlat & _ & Hname & _).
  - vm_compute. left. reflexivity.
  - split; assumption.
Defined.


Lemma searchHistoryAfter_bounded_witness :
  useAnimalData.searchHistoryAfter "Ooty" ["Mysuru"; "Coonoor"]
  = ["Ooty"; "Mysuru"; "Coonoor"].
Proof.
  destruct (searchHistoryAfter_bounded "Ooty" ["Mysuru"; "Coonoor"])
    as (_ & _ & _ & _ & Hnew).
  - apply (bool_decide_unpack _). vm_compute. exact I.
  - simpl. lia.
  - apply Hnew. apply (bool_decide_unpack _). vm_compute. exact I.
Defined.

Lemma handleAuth_signup_then_login_witness :
  App.handleAuth fixtures.asTyped App.login "Ranger" "ranger@example.org" "secret"
    (snd (App.handleAuth fixtures.asTyped App.signup "Ranger" "ranger@example.org"
            "secret" fixtures.fresh))
  = (None,
     snd (App.handleAuth fixtures.asTyped App.signup "Ranger" "ranger@example.org"
            "secret" fixtures.fresh)).
Proof.
  destruct (handleAuth_signup_then_login fixtures.asTyped "Ranger" "ranger@example.org"
              "secret" fixtures.fresh) as (_ & _ & _ & _ & Hlogin & _).
  - discriminate.
  - reflexivity.
  - apply Hlogin.
Defined.

Lemma fresh_consistent : App.consistent fixtures.fresh.
Proof.
  split; [reflexivity |]. intros address Hregistered.
  unfold App.registered, fixtures.fresh in Hregistered. cbn [App.usersDB] in Hregistered.
  rewrite lookup_empty in Hregistered. discriminate.
Qed.

Lemma handleAuth_keeps_accounts_witness :
  App.consistent
    (snd (App.handleAuth fixtures.asTyped App.signup "Ranger" "ranger@example.org"
            "secret" fixtures.fresh)).
Proof.
  destruct (handleAuth_keeps_accounts fixtures.asTyped App.signup "Ranger"
              "ranger@example.org" "secret" fixtures.fresh fresh_consistent)
    as (Hconsistent & _).
  exact Hconsistent.
Defined.

Lemma trackOf_predicted_witness :
  exists currentSighting fullPath,
    useAnimalData.trackOf fixtures.geocoder [sample.tigerSightings; sample.bearSighting]
      (api.predictSet sample.Math_cos sample.Math_sin sample.Math_PI sample.tf
         sample.tigerSightings (1 # 4))
    = useAnimalData.Detailed currentSighting "Tiger" "Mudumalai" fullPath
    /\ length fullPath = 303%nat.
Proof.
  destruct (trackOf_predicted sample.Math_cos sample.Math_sin sample.Math_PI sample.tf
              fixtures.geocoder
              [sample.tigerSightings; sample.bearSighting] sample.randoms
              (api.predictSet sample.Math_cos sample.Math_sin sample.Math_PI sample.tf
                 sample.tigerSightings (1 # 4)))
    as (set & currentSighting & older & pred1 & pred2
        & _ & Hname & _ & _ & Hdetailed & _).
  - apply (bool_decide_unpack _). vm_compute. exact I.
  - left. reflexivity.
  - destruct (Hdetailed "Tiger" "Mudumalai") as (first & fullPath & Htrack & Hlength & _).
    + rewrite Hname. vm_compute. reflexivity.
    + reflexivity.
    + exists currentSighting, fullPath. split; [exact Htrack | exact Hlength].
Defined.

Lemma routeBox_encloses_witness :
  exists south west north east,
    apiService.routeBox (path sample.trail) = Some (south, west, north, east)
    /\ west + 0.05 <= 0 /\ (3 # 100) <= east - 0.05.
Proof.
  destruct (routeBox_encloses (path sample.trail)) as [_ Hbox].
  destruct (apiService.routeBox (path sample.trail))
    as [[[[south west] north] east] |] eqn:Hvalue; [| vm_compute in Hvalue; discriminate].
  exists south, west, north, east. split; [reflexivity |].
  destruct (Hbox _ _ _ _ eq_refl (0, 0)) as (_ & _ & Hwest & _); [left; reflexivity |].
  destruct (Hbox _ _ _ _ eq_refl (0, 3 # 100)) as (_ & _ & _ & Heast);
    [right; right; right; left; reflexivity |].
  split; assumption.
Defined.

Lemma nearbyAnimalsOf_first_vertices_witness :
  exists d,
    In (mkAnimal "Elephas maximus-1" "Elephant" (mkLatLon (1 # 100) (1 # 100)) (Some d))
       (useAnimalData.nearbyAnimalsOf sample.gridDistance [sample.elephant] sample.trail 5).
Proof.
  destruct (nearbyAnimalsOf_first_vertices sample.gridDistance [sample.elephant]
              sample.trail 5) as (_ & _ & Hlisted).
  destruct (Hlisted sample.elephant 1%nat) as (d & Hin & _).
  - left. reflexivity.
  - lia.
  - simpl. lia.
  - simpl. lia.
  - vm_compute. reflexivity.
  - exists d. exact Hin.
Defined.

Lemma weather_checked_every_five_minutes_witness :
  hook.weatherAlert (hook.onPosition sample.gridDistance fixtures.stormFix sample.onTrail)
  = Some (hook.getWeatherAlertText 95).
Proof.
  destruct (weather_checked_every_five_minutes sample.gridDistance fixtures.stormFix
              sample.onTrail) as [_ Hdue].
  destruct Hdue as [_ Halert]; [vm_compute; reflexivity |].
  exact Halert.
Defined.

(** After the stop and a render, the handler that waited for the weather
    under a thunderstorm raises the weather alert and computes no stats. *)
Lemma stopNavigation_idempotent_witness :
  hook.weatherAlert
    (hook.onPositionResume sample.gridDistance fixtures.stormFix
       (hook.render (hook.stopNavigation sample.onTrail)))
  = Some (hook.getWeatherAlertText 95)
  /\ hook.navigationStats
       (hook.onPositionResume sample.gridDistance fixtures.stormFix
          (hook.render (hook.stopNavigation sample.onTrail)))
     = None.
Proof.
  destruct (stopNavigation_idempotent sample.gridDistance sample.onTrail fixtures.stormFix)
    as (_ & _ & _ & Hlate).
  cbv zeta in Hlate. destruct Hlate as (_ & _ & Hstats & _ & Hweather).
  change (hook.weather fixtures.stormFix) with (Some (mkWeather 20 95 10 1)) in Hweather.
  cbv iota beta in Hweather.
  change (hook.isWeatherSevere (weatherCode (mkWeather 20 95 10 1))) with true in Hweather.
  cbv iota in Hweather. destruct Hweather as [Halert _].
  split; [exact Halert | exact Hstats].
Defined.

(** The signal is lost on the trail; the first fix that follows waits for
    the weather while the component renders, and its handler resumes to
    raise the elephant's alert. *)
Lemma signal_lost_cleared_by_next_fix_witness :
  hook.weatherCheckDue sample.firstFix (hook.render (hook.onPositionError sample.onTrail))
  = true
  /\ hook.hazardAlerts
       (hook.alertsRaised
          (hook.handle sample.gridDistance (hook.WeatherAnswered sample.firstFix)
             (hook.render
                (hook.handle sample.gridDistance (hook.PositionFix sample.firstFix)
                   (hook.render (hook.onPositionError sample.onTrail))))))
     = [hook.animalAlert sample.gridDistance (mkLatLon 0 (1 # 100)) sample.elephant].
Proof.
  split; [reflexivity |].
  destruct (signal_lost_cleared_by_next_fix sample.gridDistance sample.onTrail
              sample.firstFix) as (_ & _ & Hdue).
  destruct (Hdue eq_refl) as (_ & _ & _ & Hrendered).
  cbv zeta in Hrendered.
  assert (Hfind :
            List.find (hook.qualifiesForAlert sample.gridDistance
                         (mkLatLon (hook.latitude sample.firstFix)
                                   (hook.longitude sample.firstFix))
                         (hook.shownAnimalAlertsRef sample.onTrail))
                      (hook.animalsNearRoute sample.onTrail)
            = Some sample.elephant) by (vm_compute; reflexivity).
  rewrite Hfind in Hrendered. destruct Hrendered as [Hraised _].
  rewrite Hraised. vm_compute. reflexivity.
Defined.

Lemma calculateSafeRoute_failures_witness :
  hook.calculateSafeRoute fixtures.offline sample.ring sample.A sample.B 5 walk []
    [sample.tiger]
  = Thrown DataNotFetched.
Proof.
  destruct (calculateSafeRoute_failures fixtures.offline sample.ring sample.A sample.B 5
              walk [] [sample.tiger]) as [Hthrown _].
  apply Hthrown. reflexivity.
Defined.

Lemma reverseGeocode_validates_witness :
  apiService.reverseGeocode string fixtures.parse (fun _ => None) 91 0 fixtures.flaky
  = (apiService.InvalidCoordinates 91 0, 0%nat).
Proof.
  destruct (reverseGeocode_validates string fixtures.parse (fun _ => None) 91 0
              fixtures.flaky) as [Hinvalid _].
  apply Hinvalid. intros (_ & Hlat & _). vm_compute in Hlat. apply Hlat. reflexivity.
Defined.

Lemma getAnimalSightings_filtered_witness :
  apiService.getAnimalSightings string fixtures.parse (fun _ => None) EmptyString
    fixtures.flaky
  = ([], 0%nat).
Proof.
  destruct (getAnimalSightings_filtered string fixtures.parse (fun _ => None) EmptyString
              fixtures.flaky) as [Hnone _].
  apply Hnone. reflexivity.
Defined.
